(** * Token validation and theme sync: a shallow embedding in Rocq

    This development embeds the token tooling of the design system:
    - [scripts/validate-tokens.js]   (stylesheet parser, graph, six rules, exit code),
    - [scripts/figma-sync-dry-run.js] (external token normalizer, validation gate, diff),
    - [scripts/figma-sync-apply.js]   (the apply engine, concatenated into
      [validate-tokens.js] in the repository: prompt, review, merge).

    JavaScript strings are modelled as [string]; each character is a code
    point below 256 ([ascii]), which covers the characters the regular
    expressions of the scripts distinguish.  A JavaScript [Map] is an
    association list in insertion order (its iteration order); [Map.set] on a
    present key updates the value in place, on an absent key appends. *)

From Stdlib Require Import String Ascii List Bool ZArith Lia Arith Permutation.
Import ListNotations.
Open Scope string_scope.
Open Scope nat_scope.

(* ------------------------------------------------------------------ *)
(** ** Characters and strings (JavaScript built-ins used by the scripts) *)

Module Text.

Definition code (c : ascii) : nat := nat_of_ascii c.

(** [\s] of a JavaScript regular expression, restricted to code points
    below 256: TAB, LF, VT, FF, CR, SPACE and NO-BREAK SPACE. *)
Definition is_ws (c : ascii) : bool :=
  let n := code c in
  ((9 <=? n) && (n <=? 13)) || (n =? 32) || (n =? 160).

(** Line terminators, the characters [.] does not match. *)
Definition is_lineterm (c : ascii) : bool :=
  let n := code c in (n =? 10) || (n =? 13).

(** [\w]: ASCII letters, digits and underscore. *)
Definition is_word (c : ascii) : bool :=
  let n := code c in
  ((48 <=? n) && (n <=? 57)) || ((65 <=? n) && (n <=? 90))
  || ((97 <=? n) && (n <=? 122)) || (n =? 95).

(** [[\w-]] *)
Definition is_name_char (c : ascii) : bool :=
  is_word c || Ascii.eqb c "-"%char.

(** [String.prototype.toLowerCase] on code points below 256. *)
Definition lower_char (c : ascii) : ascii :=
  let n := code c in
  if ((65 <=? n) && (n <=? 90)) || ((192 <=? n) && (n <=? 222) && negb (n =? 215))
  then ascii_of_nat (n + 32) else c.

Fixpoint to_lower (s : string) : string :=
  match s with
  | EmptyString => EmptyString
  | String c s' => String (lower_char c) (to_lower s')
  end.

Fixpoint ltrim (s : string) : string :=
  match s with
  | EmptyString => EmptyString
  | String c s' => if is_ws c then ltrim s' else s
  end.

Fixpoint drop_ws_list (l : list ascii) : list ascii :=
  match l with
  | [] => []
  | c :: l' => if is_ws c then drop_ws_list l' else l
  end.

Definition rtrim (s : string) : string :=
  string_of_list_ascii (rev (drop_ws_list (rev (list_ascii_of_string s)))).

(** [String.prototype.trim] *)
Definition trim (s : string) : string := rtrim (ltrim s).

(** [s.split('\n')] *)
Fixpoint split_lines (s : string) : list string :=
  match s with
  | EmptyString => [EmptyString]
  | String c s' =>
      if Ascii.eqb c "010"%char then EmptyString :: split_lines s'
      else match split_lines s' with
           | [] => [String c EmptyString]
           | l :: ls => String c l :: ls
           end
  end.

(** [(s.match(/c/g) || []).length] *)
Fixpoint count_char (c : ascii) (s : string) : nat :=
  match s with
  | EmptyString => 0
  | String d s' => (if Ascii.eqb c d then 1 else 0) + count_char c s'
  end.

(** The rest of [s] after the literal prefix [p], if [s] starts with it. *)
Fixpoint strip_prefix (p s : string) : option string :=
  match p, s with
  | EmptyString, _ => Some s
  | String a p', String b s' => if Ascii.eqb a b then strip_prefix p' s' else None
  | String _ _, EmptyString => None
  end.

(** [s.startsWith(p)] *)
Definition starts_with (p s : string) : bool :=
  match strip_prefix p s with Some _ => true | None => false end.

Fixpoint skip_ws (s : string) : string :=
  match s with
  | EmptyString => EmptyString
  | String c s' => if is_ws c then skip_ws s' else s
  end.

(** The maximal run of [[\w-]] at the start of [s], and the rest. *)
Fixpoint name_run (s : string) : string * string :=
  match s with
  | EmptyString => (EmptyString, EmptyString)
  | String c s' =>
      if is_name_char c then let (n, r) := name_run s' in (String c n, r)
      else (EmptyString, s)
  end.

Definition head_is (c : ascii) (s : string) : bool :=
  match s with String d _ => Ascii.eqb c d | EmptyString => false end.

End Text.

Import Text.

(* ------------------------------------------------------------------ *)
(** ** The regular expressions of the stylesheet parsers *)

Module Regex.

(** [\s*;] at the start of [s]. *)
Definition ws_then_semi (s : string) : bool := head_is ";"%char (skip_ws s).

(** The lazy group [(.+?)] followed by [\s*;]: the shortest non-empty
    prefix without line terminators after which [\s*;] matches. *)
Fixpoint lazy_value (s : string) : option string :=
  match s with
  | EmptyString => None
  | String c s' =>
      if is_lineterm c then None
      else if ws_then_semi s' then Some (String c EmptyString)
      else match lazy_value s' with
           | Some v => Some (String c v)
           | None => None
           end
  end.

(** [\s*(.+?)\s*;] after the colon: the greedy [\s*] gives back one
    whitespace character at a time when the rest fails. *)
Fixpoint value_after_colon (s : string) : option string :=
  match s with
  | String c s' =>
      if is_ws c then
        match value_after_colon s' with
        | Some v => Some v
        | None => lazy_value s
        end
      else lazy_value s
  | EmptyString => lazy_value s
  end.

(** [trimmed.match(/^(--[\w-]+)\s*:\s*(.+?)\s*;/)]: groups 1 and 2. *)
Definition match_def (t : string) : option (string * string) :=
  match strip_prefix "--" t with
  | None => None
  | Some r =>
      let (nm, rest) := name_run r in
      if String.eqb nm "" then None
      else match skip_ws rest with
           | String c r2 =>
               if Ascii.eqb c ":"%char then
                 match value_after_colon r2 with
                 | Some v => Some ("--" ++ nm, v)
                 | None => None
                 end
               else None
           | EmptyString => None
           end
  end.

(** [/^:root\s*\{/.test(trimmed)] *)
Definition is_root_open (t : string) : bool :=
  match strip_prefix ":root" t with
  | Some r => head_is "{"%char (skip_ws r)
  | None => false
  end.

(** [trimmed.match(/^@layer\s+([\w-]+)\s*\{/)]: group 1. *)
Definition match_layer (t : string) : option string :=
  match strip_prefix "@layer" t with
  | Some (String c r) =>
      if is_ws c then
        let (nm, rest) := name_run (skip_ws r) in
        if String.eqb nm "" then None
        else if head_is "{"%char (skip_ws rest) then Some nm else None
      else None
  | _ => None
  end.

(** One match of [/var\(\s*(--[\w-]+)/] at the start of [s]: group 1 and
    the length of the whole match. *)
Definition match_var_at (s : string) : option (string * nat) :=
  match strip_prefix "var(" s with
  | None => None
  | Some r =>
      let r2 := skip_ws r in
      match strip_prefix "--" r2 with
      | None => None
      | Some r3 =>
          let (nm, _) := name_run r3 in
          if String.eqb nm "" then None
          else Some ("--" ++ nm,
                     4 + (String.length r - String.length r2) + 2 + String.length nm)
      end
  end.

(** The [regex.exec] loop of a global regular expression: after a match
    the search resumes at its end ([skip] characters are passed over),
    otherwise one character further. *)
Fixpoint scan_var_refs (skip : nat) (s : string) : list string :=
  match s with
  | EmptyString => []
  | String _ s' =>
      match skip with
      | S k => scan_var_refs k s'
      | O =>
          match match_var_at s with
          | Some (nm, len) => nm :: scan_var_refs (len - 1) s'
          | None => scan_var_refs 0 s'
          end
      end
  end.

End Regex.

(** [extractVarRefs(value)] (validate-tokens.js) *)
Definition extractVarRefs (value : string) : list string :=
  Regex.scan_var_refs 0 value.

(* ------------------------------------------------------------------ *)
(** ** JavaScript [Map] and [Set] in insertion order *)

Module JsMap.

Section Map.
Context {V : Type}.

Fixpoint get (k : string) (m : list (string * V)) : option V :=
  match m with
  | [] => None
  | (k', v) :: m' => if String.eqb k k' then Some v else get k m'
  end.

Definition has (k : string) (m : list (string * V)) : bool :=
  match get k m with Some _ => true | None => false end.

(** [m.set(k, v)]: update in place, or append a new entry. *)
Fixpoint set (k : string) (v : V) (m : list (string * V)) : list (string * V) :=
  match m with
  | [] => [(k, v)]
  | (k', v') :: m' =>
      if String.eqb k k' then (k', v) :: m' else (k', v') :: set k v m'
  end.

Definition keys (m : list (string * V)) : list string := map fst m.

End Map.

(** [new Map(entries)]: later entries for a key overwrite earlier ones. *)
Definition of_entries {V} (l : list (string * V)) : list (string * V) :=
  fold_left (fun m '(k, v) => set k v m) l [].

(** [s.add(x)] on a [Set]. *)
Definition set_add (x : string) (s : list string) : list string :=
  if existsb (String.eqb x) s then s else app s [x].

End JsMap.

(* ------------------------------------------------------------------ *)
(** ** validate-tokens.js: tiers and the stylesheet parser *)

Inductive tier := Primitive | Semantic | Component | Base | Unknown.

Definition tier_eqb (a b : tier) : bool :=
  match a, b with
  | Primitive, Primitive | Semantic, Semantic | Component, Component
  | Base, Base | Unknown, Unknown => true
  | _, _ => false
  end.

(** [getTier(name)] *)
Definition getTier (name : string) : tier :=
  if starts_with "--primitive-" name then Primitive
  else if starts_with "--semantic-" name then Semantic
  else if starts_with "--component-" name then Component
  else if starts_with "--base-" name then Base
  else Unknown.

(** [ALLOWED_DEPS] *)
Definition ALLOWED_DEPS (t : tier) : list tier :=
  match t with
  | Primitive => []
  | Semantic => [Primitive]
  | Component => [Semantic; Base]
  | Base => [Semantic]
  | Unknown => [Primitive; Semantic; Component; Base; Unknown]
  end.

Record TokenDef := mkTokenDef {
  value : string;
  refs : list string;
  line : nat;
  layer : option string
}.

(** The [context] of a direct primitive usage: the trimmed line, or its
    first 97 characters followed by an ellipsis when it is longer than 100. *)
Inductive context := Ctx (s : string) | CtxCut (first97 : string).

Record PrimUse := mkPrimUse { pu_token : string; pu_line : nat; pu_context : context }.

Record ParseState := mkParseState {
  braceDepth : Z;
  inRoot : bool;
  rootDepth : Z;
  layerStack : list (string * Z);   (* top of the stack first *)
  tokenDefs : list (string * TokenDef);
  ruleUsages : list string;
  primInRules : list PrimUse
}.

Definition parse_init : ParseState := mkParseState 0 false (-1) [] [] [] [].

(** [while (layerStack.length > 0 && braceDepth < top.depth) layerStack.pop()] *)
Fixpoint pop_layers (d : Z) (ls : list (string * Z)) : list (string * Z) :=
  match ls with
  | (n, d0) :: ls' => if (d <? d0)%Z then pop_layers d ls' else ls
  | [] => []
  end.

(** The [while ((match = varRegex.exec(trimmed)) !== null)] loop of a
    non-root line. *)
Fixpoint record_usages (lineNum : nat) (trimmed : string) (names : list string)
    (us : list string) (ps : list PrimUse) : list string * list PrimUse :=
  match names with
  | [] => (us, ps)
  | tokenName :: names' =>
      let us' := JsMap.set_add tokenName us in
      let ps' := if starts_with "--primitive-" tokenName then
                   app ps [mkPrimUse tokenName lineNum
                            (if 100 <? String.length trimmed
                             then CtxCut (substring 0 97 trimmed)
                             else Ctx trimmed)]
                 else ps in
      record_usages lineNum trimmed names' us' ps'
  end.

(** One iteration of the line loop of [parseCSS]. *)
Definition parse_line (st : ParseState) (lineNum : nat) (line : string) : ParseState :=
  let trimmed := trim line in
  if String.eqb trimmed "" || starts_with "/*" trimmed || starts_with "//" trimmed
  then st
  else
    let opens := Z.of_nat (count_char "{"%char line) in
    let closes := Z.of_nat (count_char "}"%char line) in
    let layerMatch := Regex.match_layer trimmed in
    let isRootOpen := negb (inRoot st) && Regex.is_root_open trimmed in
    let depth := (braceDepth st + opens - closes)%Z in
    let ls1 := match layerMatch with
               | Some n => (n, depth) :: layerStack st
               | None => layerStack st
               end in
    let ls2 := pop_layers depth ls1 in
    let '(inr1, rd1) := if isRootOpen then (true, depth) else (inRoot st, rootDepth st) in
    let '(inr2, rd2) := if inr1 && (depth <? rd1)%Z then (false, (-1)%Z) else (inr1, rd1) in
    let currentLayer := match ls2 with (n, _) :: _ => Some n | [] => None end in
    if inr2 then
      let defs :=
        match Regex.match_def trimmed with
        | Some (name, v) =>
            if JsMap.has name (tokenDefs st) then tokenDefs st
            else JsMap.set name (mkTokenDef v (extractVarRefs v) lineNum currentLayer)
                   (tokenDefs st)
        | None => tokenDefs st
        end in
      mkParseState depth inr2 rd2 ls2 defs (ruleUsages st) (primInRules st)
    else if (0 <? depth)%Z then
      let '(us, ps) := record_usages lineNum trimmed (Regex.scan_var_refs 0 trimmed)
                         (ruleUsages st) (primInRules st) in
      mkParseState depth inr2 rd2 ls2 (tokenDefs st) us ps
    else mkParseState depth inr2 rd2 ls2 (tokenDefs st) (ruleUsages st) (primInRules st).

Fixpoint parse_lines (st : ParseState) (lineNum : nat) (lines : list string) : ParseState :=
  match lines with
  | [] => st
  | l :: ls => parse_lines (parse_line st lineNum l) (S lineNum) ls
  end.

(** [parseCSS(css)] *)
Definition parseCSS (css : string) : ParseState :=
  parse_lines parse_init 1 (split_lines css).

(* ------------------------------------------------------------------ *)
(** ** figma-sync-dry-run.js: the stylesheet parser feeding the diff *)

Record CssToken := mkCssToken { ct_value : string; ct_line : nat }.

Record TokState := mkTokState {
  ts_depth : Z; ts_inRoot : bool; ts_rootDepth : Z;
  ts_tokens : list (string * CssToken)
}.

Definition tok_line (st : TokState) (lineNum : nat) (raw : string) : TokState :=
  let trimmed := trim raw in
  let '(inr1, rd1) :=
    if negb (ts_inRoot st) && Regex.is_root_open trimmed
    then (true, ts_depth st) else (ts_inRoot st, ts_rootDepth st) in
  let depth := (ts_depth st + Z.of_nat (count_char "{"%char raw)
                - Z.of_nat (count_char "}"%char raw))%Z in
  let inr2 := if inr1 && (depth <=? rd1)%Z then false else inr1 in
  let toks :=
    if inr2 then
      match Regex.match_def trimmed with
      | Some (name, v) => JsMap.set name (mkCssToken v lineNum) (ts_tokens st)
      | None => ts_tokens st
      end
    else ts_tokens st in
  mkTokState depth inr2 rd1 toks.

Fixpoint tok_lines (st : TokState) (lineNum : nat) (lines : list string) : TokState :=
  match lines with
  | [] => st
  | l :: ls => tok_lines (tok_line st lineNum l) (S lineNum) ls
  end.

(** [parseCSSTokens(css)] *)
Definition parseCSSTokens (css : string) : list (string * CssToken) :=
  ts_tokens (tok_lines (mkTokState 0 false (-1) []) 1 (split_lines css)).

(* ------------------------------------------------------------------ *)
(** ** validate-tokens.js: graph builder and cycle detector *)

(** [buildGraph(tokenDefs)] *)
Definition buildGraph (defs : list (string * TokenDef)) : list (string * list string) :=
  fold_left (fun g '(name, d) => JsMap.set name (refs d) g) defs [].

Inductive color := WHITE | GRAY | BLACK.

(** [path.indexOf(x)], [-1] when absent. *)
Fixpoint indexOf (x : string) (l : list string) : Z :=
  match l with
  | [] => (-1)%Z
  | y :: l' => if String.eqb x y then 0%Z
               else match indexOf x l' with
                    | (-1)%Z => (-1)%Z
                    | i => (i + 1)%Z
                    end
  end.

(** [l.slice(i)]: a negative index counts from the end. *)
Definition slice_from (i : Z) (l : list string) : list string :=
  if (i <? 0)%Z then skipn (Nat.max 0 (length l - Z.to_nat (- i))) l
  else skipn (Z.to_nat i) l.

Module Validate.

Record Frame := mkFrame { node : string; childIdx : nat }.

Record DfsState := mkDfs {
  colors : list (string * color);
  callStack : list Frame;        (* top of the stack first *)
  path : list string;            (* the JavaScript array, top last *)
  cycles : list (list string)
}.

(** The inner [while (frame.childIdx < deps.length)] loop, over the
    dependencies from [frame.childIdx] on.  Returns the new [childIdx], the
    colours, the cycles and the dependency pushed, if any ([advanced]). *)
Fixpoint inner (deps : list string) (idx : nat) (col : list (string * color))
    (p : list string) (cyc : list (list string))
    : nat * list (string * color) * list (list string) * option string :=
  match deps with
  | [] => (idx, col, cyc, None)
  | dep :: deps' =>
      match JsMap.get dep col with
      | None => inner deps' (S idx) col p cyc
      | Some GRAY =>
          inner deps' (S idx) col p
            (app cyc [app (slice_from (indexOf dep p) p) [dep]])
      | Some WHITE => (S idx, JsMap.set dep GRAY col, cyc, Some dep)
      | Some BLACK => inner deps' (S idx) col p cyc
      end
  end.

(** One iteration of the outer [while (callStack.length > 0)] loop. *)
Definition step (graph : list (string * list string)) (st : DfsState) : DfsState :=
  match callStack st with
  | [] => st
  | frame :: rest =>
      let deps := match JsMap.get (node frame) graph with Some d => d | None => [] end in
      match inner (skipn (childIdx frame) deps) (childIdx frame) (colors st) (path st) (cycles st) with
      | (idx, col, cyc, Some dep) =>
          mkDfs col (mkFrame dep 0 :: mkFrame (node frame) idx :: rest) (app (path st) [dep]) cyc
      | (idx, col, cyc, None) =>
          mkDfs (JsMap.set (node frame) BLACK col) rest (removelast (path st)) cyc
      end
  end.

(** The outer loop, run with [fuel] iterations at most; [2 * |graph| + 2]
    iterations always suffice (each one greys a white node or pops). *)
Fixpoint loop (graph : list (string * list string)) (fuel : nat) (st : DfsState) : DfsState :=
  match fuel with
  | O => st
  | S f => match callStack st with
           | [] => st
           | _ => loop graph f (step graph st)
           end
  end.

(** [dfs(start)], on the shared colours and cycles. *)
Definition dfs (graph : list (string * list string)) (start : string)
    (col : list (string * color)) (cyc : list (list string))
    : list (string * color) * list (list string) :=
  let st := loop graph (2 * length graph + 2)
              (mkDfs (JsMap.set start GRAY col) [mkFrame start 0] [start] cyc) in
  (colors st, cycles st).

(** [findCycles(graph)] *)
Definition findCycles (graph : list (string * list string)) : list (list string) :=
  let col0 := fold_left (fun c name => JsMap.set name WHITE c) (JsMap.keys graph) [] in
  snd (fold_left (fun '(c, cy) name =>
                    match JsMap.get name c with
                    | Some WHITE => dfs graph name c cy
                    | _ => (c, cy)
                    end)
                 (JsMap.keys graph) (col0, [])).

End Validate.

(* ------------------------------------------------------------------ *)
(** ** validate-tokens.js: the rules and the exit code *)

Record MissingRef := mkMissingRef { mr_consumer : string; mr_missing : string; mr_line : option nat }.

(** [findMissingRefs(tokenDefs, ruleUsages)] *)
Definition findMissingRefs (defs : list (string * TokenDef)) (usages : list string) : list MissingRef :=
  let defined := JsMap.keys defs in
  app (flat_map (fun '(name, d) =>
          flat_map (fun dep => if existsb (String.eqb dep) defined then []
                               else [mkMissingRef name dep (Some (line d))]) (refs d)) defs)
      (flat_map (fun used => if existsb (String.eqb used) defined then []
                             else [mkMissingRef "(css rule)" used None]) usages).

Record TierViolation := mkTierViolation {
  tv_token : string; tv_dep : string; tv_tokenTier : tier; tv_depTier : tier; tv_line : nat
}.

(** [findTierViolations(tokenDefs)] *)
Definition findTierViolations (defs : list (string * TokenDef)) : list TierViolation :=
  flat_map (fun '(name, d) =>
    let tokenTier := getTier name in
    match tokenTier with
    | Unknown => []
    | Primitive =>
        map (fun dep => mkTierViolation name dep tokenTier (getTier dep) (line d)) (refs d)
    | _ =>
        let allowed := ALLOWED_DEPS tokenTier in
        flat_map (fun dep =>
          let depTier := getTier dep in
          if existsb (tier_eqb depTier) allowed then []
          else [mkTierViolation name dep tokenTier depTier (line d)]) (refs d)
    end) defs.

(** [findOrphans(tokenDefs, graph, ruleUsages)] *)
Definition findOrphans (defs : list (string * TokenDef)) (graph : list (string * list string))
    (usages : list string) : list string :=
  let referencedByTokens := flat_map snd graph in
  filter (fun name => negb (existsb (String.eqb name) referencedByTokens)
                      && negb (existsb (String.eqb name) usages)) (JsMap.keys defs).

(** [findUnusedSemantics(tokenDefs, graph, ruleUsages)] *)
Definition findUnusedSemantics (defs : list (string * TokenDef)) (graph : list (string * list string))
    (usages : list string) : list string :=
  let usedByComponents :=
    flat_map (fun '(name, deps) =>
      if tier_eqb (getTier name) Component
      then filter (fun dep => tier_eqb (getTier dep) Semantic) deps else []) graph in
  filter (fun name => tier_eqb (getTier name) Semantic
                      && negb (existsb (String.eqb name) usedByComponents)
                      && negb (existsb (String.eqb name) usages)) (JsMap.keys defs).

(** The entries of the [errors] and [warnings] arrays of [main]; the
    message text is the rendering of these payloads. *)
Inductive Issue :=
  | IMissingRef (m : MissingRef)
  | ICircular (cycle : list string)
  | ITierViolation (v : TierViolation)
  | IDirectPrimitive (p : PrimUse)
  | IOrphan (name : string)
  | IUnusedSemantic (name : string).

Record Report := mkReport {
  tokenCount : nat; ruleUsageCount : nat; noCycles : bool;
  errors : list Issue; warnings : list Issue
}.

(** Steps (b) to (e) of [main]: parse, build the graph, run every rule and
    compile the error and warning lists. *)
Definition validateCSS (css : string) : Report :=
  let p := parseCSS css in
  let graph := buildGraph (tokenDefs p) in
  let missingRefs := findMissingRefs (tokenDefs p) (ruleUsages p) in
  let cyc := Validate.findCycles graph in
  let tierViolations := findTierViolations (tokenDefs p) in
  let orphans := findOrphans (tokenDefs p) graph (ruleUsages p) in
  let unusedSemantics := findUnusedSemantics (tokenDefs p) graph (ruleUsages p) in
  let errs := app (map IMissingRef missingRefs)
             (app (map ICircular cyc)
             (app (map ITierViolation tierViolations)
                  (map IDirectPrimitive (primInRules p)))) in
  let warns := app (map IOrphan orphans) (map IUnusedSemantic unusedSemantics) in
  mkReport (length (tokenDefs p)) (length (ruleUsages p)) (Nat.eqb (length cyc) 0) errs warns.

(** What [resolveCSSFile] and [fs.readFileSync] deliver to [main]. *)
Inductive CssSource := NoCssFound | CssReadError | CssText (css : string).

(** [main()] of validate-tokens.js: its exit code. *)
Definition validate_main (src : CssSource) : nat :=
  match src with
  | NoCssFound => 0
  | CssReadError => 1
  | CssText css =>
      let r := validateCSS css in
      if 0 <? length (errors r) then 1 else 0
  end.

(* ------------------------------------------------------------------ *)
(** ** figma-sync-dry-run.js: normalizer, validation gate, cycles, diff *)

Module Figma.

(** [dotName.replace(/\./g, '-')] *)
Fixpoint dots_to_dashes (s : string) : string :=
  match s with
  | EmptyString => EmptyString
  | String c s' => String (if Ascii.eqb c "."%char then "-"%char else c) (dots_to_dashes s')
  end.

(** [figmaNameToCSSVar(dotName)] *)
Definition figmaNameToCSSVar (dotName : string) : string := "--" ++ dots_to_dashes dotName.

Fixpoint has_lineterm (s : string) : bool :=
  match s with
  | EmptyString => false
  | String c s' => is_lineterm c || has_lineterm s'
  end.

(** [figmaValue.match(/^\{(.+)\}$/)]: group 1.  The greedy [.+] ends just
    before the final [}]; it is non-empty and has no line terminator. *)
Definition match_brace_ref (v : string) : option string :=
  match v with
  | String c r =>
      if Ascii.eqb c "{"%char then
        match rev (list_ascii_of_string r) with
        | d :: inner_rev =>
            let inner := string_of_list_ascii (rev inner_rev) in
            if Ascii.eqb d "}"%char && negb (String.eqb inner "") && negb (has_lineterm inner)
            then Some inner else None
        | [] => None
        end
      else None
  | EmptyString => None
  end.

(** [figmaValueToCSS(figmaValue)] *)
Definition figmaValueToCSS (v : string) : string :=
  match match_brace_ref v with
  | Some m => "var(" ++ figmaNameToCSSVar m ++ ")"
  | None => v
  end.

(** [extractFigmaRef(figmaValue)] *)
Definition extractFigmaRef (v : string) : option string :=
  match match_brace_ref v with
  | Some m => Some (figmaNameToCSSVar m)
  | None => None
  end.

(** [getTierFromCSSName(cssName)]; [None] is [null]. *)
Definition getTierFromCSSName (n : string) : option tier :=
  if starts_with "--primitive-" n then Some Primitive
  else if starts_with "--semantic-" n then Some Semantic
  else if starts_with "--component-" n then Some Component
  else if starts_with "--base-" n then Some Base
  else None.

(** [VALID_FIGMA_TIERS.has(t)] *)
Definition valid_figma_tier (t : tier) : bool :=
  match t with Primitive | Semantic | Component => true | _ => false end.

(** [s.split('.')[0]] *)
Fixpoint first_segment (s : string) : string :=
  match s with
  | EmptyString => EmptyString
  | String c s' => if Ascii.eqb c "."%char then EmptyString else String c (first_segment s')
  end.

(** [getTierFromFigmaName(figmaName)] *)
Definition getTierFromFigmaName (figmaName : string) : option tier :=
  let prefix := first_segment figmaName in
  if String.eqb prefix "primitive" then Some Primitive
  else if String.eqb prefix "semantic" then Some Semantic
  else if String.eqb prefix "component" then Some Component
  else None.

(** [FIGMA_ALLOWED_DEPS] *)
Definition FIGMA_ALLOWED_DEPS (t : tier) : list tier :=
  match t with
  | Primitive => []
  | Semantic => [Primitive]
  | Component => [Semantic]
  | _ => []
  end.

Record FigmaToken := mkFigmaToken {
  cssName : string; cssValue : string; figmaName : string; figmaValue : string;
  ftier : option tier
}.

(** A JSON entry of the [tokens] array: its [name] and [value] when they
    are strings ([None] for any other JSON value or a missing field).  An
    element that is [null] itself, on which reading [entry.name] throws a
    TypeError, is not represented. *)
Record RawEntry := mkRawEntry { raw_name : option string; raw_value : option string }.

(** What [JSON.parse] makes of the export file. *)
Inductive FigmaJson := InvalidJson | NoTokensArray | TokensArray (entries : list RawEntry).

Inductive ParseError := EInvalidJson | ENoTokens | EMissingName (idx : nat) | EMissingValue (name : string).

(** The callback of [data.tokens.map]. *)
Definition convert_entry (idx : nat) (e : RawEntry) : ParseError + FigmaToken :=
  match raw_name e with
  | Some n =>
      if String.eqb (trim n) "" then inl (EMissingName idx)
      else match raw_value e with
           | Some v => inr (mkFigmaToken (figmaNameToCSSVar n) (figmaValueToCSS v) n v
                                         (getTierFromFigmaName n))
           | None => inl (EMissingValue n)
           end
  | None => inl (EMissingName idx)
  end.

Fixpoint convert_entries (idx : nat) (es : list RawEntry) : ParseError + list FigmaToken :=
  match es with
  | [] => inr []
  | e :: es' =>
      match convert_entry idx e with
      | inl err => inl err
      | inr t => match convert_entries (S idx) es' with
                 | inl err => inl err
                 | inr ts => inr (t :: ts)
                 end
      end
  end.

(** [parseFigmaExport(json)]: [inl] is a thrown error. *)
Definition parseFigmaExport (j : FigmaJson) : ParseError + list FigmaToken :=
  match j with
  | InvalidJson => inl EInvalidJson
  | NoTokensArray => inl ENoTokens
  | TokensArray es => convert_entries 0 es
  end.

Inductive ArchError :=
  | UnknownTier (figmaName : string)
  | UnknownRefTier (figmaName ref : string)
  | InvalidRefTier (figmaName ref : string) (refTier : tier)
  | FigmaTierViolation (figmaName ref : string) (t refTier : tier)
  | Circular (cycle : list string).

(** The loop body of [validateFigmaTiers]. *)
Definition check_token (token : FigmaToken) : list ArchError :=
  match ftier token with
  | None => [UnknownTier (figmaName token)]
  | Some t =>
      match extractFigmaRef (figmaValue token) with
      | None => []
      | Some ref =>
          match getTierFromCSSName ref with
          | None => [UnknownRefTier (figmaName token) ref]
          | Some refTier =>
              if negb (valid_figma_tier refTier) then [InvalidRefTier (figmaName token) ref refTier]
              else if existsb (tier_eqb refTier) (FIGMA_ALLOWED_DEPS t) then []
              else [FigmaTierViolation (figmaName token) ref t refTier]
          end
      end
  end.

(** [validateFigmaTiers(figmaTokens)] *)
Definition validateFigmaTiers (ts : list FigmaToken) : list ArchError :=
  flat_map check_token ts.

(** [buildFigmaGraph(figmaTokens)] *)
Definition buildFigmaGraph (ts : list FigmaToken) : list (string * list string) :=
  fold_left (fun g t => JsMap.set (cssName t)
                          (match extractFigmaRef (figmaValue t) with
                           | Some r => [r] | None => [] end) g) ts [].

Record Frame := mkFrame { fnode : string; fpath : list string; edgeIdx : nat }.

Record DfsState := mkDfs {
  colors : list (string * color);
  stack : list Frame;             (* top of the stack first *)
  cycles : list (list string)
}.

(** One iteration of [while (stack.length > 0)] in [dfs]. *)
Definition step (graph : list (string * list string)) (st : DfsState) : DfsState :=
  match stack st with
  | [] => st
  | frame :: rest =>
      let deps := match JsMap.get (fnode frame) graph with Some d => d | None => [] end in
      if length deps <=? edgeIdx frame then
        mkDfs (JsMap.set (fnode frame) BLACK (colors st)) rest (cycles st)
      else
        let dep := nth (edgeIdx frame) deps "" in
        let frame' := mkFrame (fnode frame) (fpath frame) (S (edgeIdx frame)) in
        let col := if JsMap.has dep (colors st) then colors st
                   else JsMap.set dep WHITE (colors st) in
        match JsMap.get dep col with
        | Some GRAY =>
            mkDfs col (frame' :: rest)
              (app (cycles st) [app (slice_from (indexOf dep (fpath frame)) (fpath frame)) [dep]])
        | Some WHITE =>
            mkDfs (JsMap.set dep GRAY col)
              (mkFrame dep (app (fpath frame) [dep]) 0 :: frame' :: rest) (cycles st)
        | _ => mkDfs col (frame' :: rest) (cycles st)
        end
  end.

Fixpoint loop (graph : list (string * list string)) (fuel : nat) (st : DfsState) : DfsState :=
  match fuel with
  | O => st
  | S f => match stack st with
           | [] => st
           | _ => loop graph f (step graph st)
           end
  end.

(** Number of nodes and edges of the graph: the loops below never need
    more iterations than a small multiple of it. *)
Definition graph_size (graph : list (string * list string)) : nat :=
  length graph + length (flat_map snd graph).

(** [dfs(start)] *)
Definition dfs (graph : list (string * list string)) (start : string)
    (col : list (string * color)) (cyc : list (list string))
    : list (string * color) * list (list string) :=
  let st := loop graph (3 * graph_size graph + 2)
              (mkDfs (JsMap.set start GRAY col) [mkFrame start [start] 0] cyc) in
  (colors st, cycles st).

(** [for (const [node, clr] of color) { if (clr === WHITE) dfs(node); }]:
    the iteration reads the live map, so entries added by [dfs] are
    visited too, at their insertion position. *)
Fixpoint outer (graph : list (string * list string)) (fuel i : nat)
    (col : list (string * color)) (cyc : list (list string)) : list (list string) :=
  match fuel with
  | O => cyc
  | S f =>
      match nth_error col i with
      | None => cyc
      | Some (nd, WHITE) => let '(col', cyc') := dfs graph nd col cyc in outer graph f (S i) col' cyc'
      | Some _ => outer graph f (S i) col cyc
      end
  end.

(** [findCycles(graph)] (figma-sync-dry-run.js) *)
Definition findCycles (graph : list (string * list string)) : list (list string) :=
  let col0 := fold_left (fun c name => JsMap.set name WHITE c) (JsMap.keys graph) [] in
  outer graph (S (graph_size graph)) 0 col0 [].

Record Added := mkAdded { a_name : string; a_figmaValue : string }.
Record Modified := mkModified { m_name : string; m_cssValue : string; m_figmaValue : string }.
Record Removed := mkRemoved { r_name : string; r_cssValue : string }.

Record Diff := mkDiff {
  added : list Added; modified : list Modified; removed : list Removed; unchanged : list string
}.

(** [diffTokens(cssTokens, figmaTokens)] *)
Definition diffTokens (cssTokens : list (string * CssToken)) (figmaTokens : list FigmaToken) : Diff :=
  let figmaMap := JsMap.of_entries (map (fun t => (cssName t, cssValue t)) figmaTokens) in
  let cssRelevant :=
    fold_left (fun m '(name, data) =>
                 match getTierFromCSSName name with
                 | Some t => if valid_figma_tier t then JsMap.set name data m else m
                 | None => m
                 end) cssTokens [] in
  let '(ad, md, un) :=
    fold_left (fun '(ad, md, un) '(name, fv) =>
                 match JsMap.get name cssRelevant with
                 | None => (app ad [mkAdded name fv], md, un)
                 | Some data =>
                     if negb (String.eqb (ct_value data) fv)
                     then (ad, app md [mkModified name (ct_value data) fv], un)
                     else (ad, md, app un [name])
                 end) figmaMap ([], [], []) in
  let rm := flat_map (fun '(name, data) =>
                        if JsMap.has name figmaMap then [] else [mkRemoved name (ct_value data)])
                     cssRelevant in
  mkDiff ad md rm un.

(** How [main] of figma-sync-dry-run.js ends. *)
Inductive DryRunOutcome :=
  | DRNoCss                        (* no compiled CSS: soft skip *)
  | DRNoFigmaFile
  | DRParseFailed (e : ParseError)
  | DRBlocked (archErrors : list ArchError)
  | DRDiffed (d : Diff).

Definition dry_run_exit (o : DryRunOutcome) : nat :=
  match o with
  | DRNoCss => 0 | DRNoFigmaFile => 1 | DRParseFailed _ => 1 | DRBlocked _ => 1 | DRDiffed _ => 0
  end.

(** Steps (d) to (e) of both mains: the architecture gate. *)
Definition archErrors (ts : list FigmaToken) : list ArchError :=
  app (validateFigmaTiers ts) (map Circular (findCycles (buildFigmaGraph ts))).

(** [main()] of figma-sync-dry-run.js, from the CSS text (if a candidate
    exists) and the parsed export file (if it exists). *)
Definition dry_run_main (css : option string) (figma : option FigmaJson) : DryRunOutcome :=
  match css with
  | None => DRNoCss
  | Some text =>
      match figma with
      | None => DRNoFigmaFile
      | Some j =>
          let cssTokens := parseCSSTokens text in
          match parseFigmaExport j with
          | inl e => DRParseFailed e
          | inr figmaTokens =>
              let errs := archErrors figmaTokens in
              if 0 <? length errs then DRBlocked errs
              else DRDiffed (diffTokens cssTokens figmaTokens)
          end
      end
  end.

End Figma.

(* ------------------------------------------------------------------ *)
(** ** figma-sync-apply.js: review, merge and write

    The apply script carries its own copies of [parseCSSTokens],
    [parseFigmaExport], [validateFigmaTiers], [buildGraph], [findCycles] and
    [diffTokens]; they are line for line the functions of the dry run, so the
    definitions of [Figma] are used for them. *)

Module Apply.
Import Figma.

Inductive Decision := Yes | No | All | SkipAll | Quit.

(** [prompt(rl, question)]: the decision for the operator's [answer]. *)
Definition prompt (answer : string) : Decision :=
  let a := to_lower (trim answer) in
  if String.eqb a "a" then All
  else if String.eqb a "s" then SkipAll
  else if String.eqb a "q" then Quit
  else if String.eqb a "n" || String.eqb a "no" then No
  else Yes.

(** The [for] loop of [reviewCategory], reading the operator's answers in
    order.  [None]: a prompt is left unanswered (input exhausted).  The
    result is [(approved, skipped, quit, answers not consumed)]. *)
Fixpoint review_items {A} (applyAll skipAll : bool) (items : list A) (answers : list string)
    (approved skipped : list A) : option (list A * list A * bool * list string) :=
  match items with
  | [] => Some (approved, skipped, false, answers)
  | item :: rest =>
      if applyAll then review_items applyAll skipAll rest answers (app approved [item]) skipped
      else if skipAll then review_items applyAll skipAll rest answers approved (app skipped [item])
      else match answers with
           | [] => None
           | a :: answers' =>
               match prompt a with
               | Quit => Some (approved, app (app skipped [item]) rest, true, answers')
               | All => review_items true skipAll rest answers' (app approved [item]) skipped
               | SkipAll => review_items applyAll true rest answers' approved (app skipped [item])
               | Yes => review_items applyAll skipAll rest answers' (app approved [item]) skipped
               | No => review_items applyAll skipAll rest answers' approved (app skipped [item])
               end
           end
  end.

(** [reviewCategory(rl, kind, items, renderItem)] *)
Definition reviewCategory {A} (items : list A) (answers : list string)
    : option (list A * list A * bool * list string) :=
  match items with
  | [] => Some ([], [], false, answers)
  | _ => review_items false false items answers [] []
  end.

Record ReviewResult := mkReview {
  approvedAdded : list Added; approvedUpdated : list Modified; approvedRemoved : list Removed;
  skippedCount : nat; quit : bool; answers_left : list string
}.

(** Step (g) of [main]: the [--yes] branch or the three interactive
    categories NEW, MODIFIED and REMOVED (overrides only), in that order. *)
Definition review_phase (yes : bool) (ad : list Added) (md : list Modified)
    (removableFromTheme : list Removed) (answers : list string) : option ReviewResult :=
  if yes then Some (mkReview ad md [] (length removableFromTheme) false answers)
  else
    let r0 := mkReview [] [] [] 0 false answers in
    let r1 :=
      if negb (quit r0) && (0 <? length ad) then
        match reviewCategory ad (answers_left r0) with
        | Some (ap, sk, q, rest) => Some (mkReview ap [] [] (skippedCount r0 + length sk) q rest)
        | None => None
        end
      else Some r0 in
    match r1 with
    | None => None
    | Some r1 =>
      let r2 :=
        if negb (quit r1) && (0 <? length md) then
          match reviewCategory md (answers_left r1) with
          | Some (ap, sk, q, rest) =>
              Some (mkReview (approvedAdded r1) ap [] (skippedCount r1 + length sk) q rest)
          | None => None
          end
        else Some r1 in
      match r2 with
      | None => None
      | Some r2 =>
          if negb (quit r2) && (0 <? length removableFromTheme) then
            match reviewCategory removableFromTheme (answers_left r2) with
            | Some (ap, sk, q, rest) =>
                Some (mkReview (approvedAdded r2) (approvedUpdated r2) ap
                               (skippedCount r2 + length sk) q rest)
            | None => None
            end
          else Some r2
      end
    end.

Record ChangeEntry := mkChange {
  ce_action : string; ce_token : string; ce_value : option string; ce_prev : option string
}.

(** The user theme registry ([tokens] is a plain object whose keys all
    start with [--], kept in insertion order). *)
Record Registry := mkRegistry {
  reg_tokens : list (string * string); reg_removed : list string; reg_changelog : list ChangeEntry
}.

(** [x || null] on an optional string: the empty string is falsy. *)
Definition or_null (o : option string) : option string :=
  match o with Some v => if String.eqb v "" then None else Some v | None => None end.

(** [delete obj[k]] *)
Definition obj_delete (k : string) (o : list (string * string)) : list (string * string) :=
  filter (fun '(k', _) => negb (String.eqb k k')) o.

(** [mergeRegistryChanges(current, changes)] *)
Definition mergeRegistryChanges (current : Registry)
    (added : list Added) (updated : list Modified) (removedFromTheme : list Removed) : Registry :=
  let tokens0 := reg_tokens current in
  let removedSet0 := fold_left (fun s x => JsMap.set_add x s) (reg_removed current) [] in
  let '(tokens1, removedSet1, changelog1) :=
    fold_left (fun '(tk, rs, cl) item =>
      let prev := or_null (JsMap.get (a_name item) tk) in
      (JsMap.set (a_name item) (a_figmaValue item) tk,
       filter (fun x => negb (String.eqb x (a_name item))) rs,
       app cl [mkChange "add" (a_name item) (Some (a_figmaValue item)) prev]))
      added (tokens0, removedSet0, []) in
  let '(tokens2, changelog2) :=
    fold_left (fun '(tk, cl) item =>
      let prev := match or_null (JsMap.get (m_name item) tk) with
                  | Some p => Some p | None => Some (m_cssValue item) end in
      (JsMap.set (m_name item) (m_figmaValue item) tk,
       app cl [mkChange "update" (m_name item) (Some (m_figmaValue item)) prev]))
      updated (tokens1, changelog1) in
  let '(tokens3, removedSet3, changelog3) :=
    fold_left (fun '(tk, rs, cl) item =>
      let prev := or_null (JsMap.get (r_name item) tk) in
      (obj_delete (r_name item) tk, JsMap.set_add (r_name item) rs,
       app cl [mkChange "remove" (r_name item) None prev]))
      removedFromTheme (tokens2, removedSet1, changelog2) in
  mkRegistry tokens3 removedSet3 changelog3.

(** How [main] of figma-sync-apply.js ends.  [ApWritten] carries the
    merged registry from which the three output files are generated. *)
Inductive ApplyOutcome :=
  | ApNoCss | ApNoFigmaFile | ApParseFailed (e : ParseError)
  | ApBlocked (archErrors : list ArchError)
  | ApNothingToApply
  | ApQuitNothingApproved
  | ApNoneApproved
  | ApWritten (merged : Registry) (review : ReviewResult)
  | ApAwaitingInput.

Definition apply_exit (o : ApplyOutcome) : option nat :=
  match o with
  | ApNoCss | ApNoFigmaFile | ApParseFailed _ | ApBlocked _ => Some 1
  | ApNothingToApply | ApNoneApproved | ApWritten _ _ => Some 0
  | ApQuitNothingApproved => Some 2
  | ApAwaitingInput => None
  end.

(** Steps (f) to (h) of [main], after the diff. *)
Definition apply_after_diff (yes : bool) (d : Diff) (currentRegistry : Registry)
    (answers : list string) : ApplyOutcome :=
  if (length (added d) =? 0) && (length (modified d) =? 0) then ApNothingToApply
  else
    let removableFromTheme :=
      filter (fun r => JsMap.has (r_name r) (reg_tokens currentRegistry)) (removed d) in
    match review_phase yes (added d) (modified d) removableFromTheme answers with
    | None => ApAwaitingInput
    | Some r =>
        let total := length (approvedAdded r) + length (approvedUpdated r)
                     + length (approvedRemoved r) in
        if negb yes && quit r && (total =? 0) then ApQuitNothingApproved
        else if total =? 0 then ApNoneApproved
        else ApWritten (mergeRegistryChanges currentRegistry (approvedAdded r)
                          (approvedUpdated r) (approvedRemoved r)) r
    end.

(** [main()] of figma-sync-apply.js. *)
Definition apply_main (css : option string) (figma : option FigmaJson) (yes : bool)
    (currentRegistry : Registry) (answers : list string) : ApplyOutcome :=
  match css with
  | None => ApNoCss
  | Some text =>
      match figma with
      | None => ApNoFigmaFile
      | Some j =>
          let cssTokens := parseCSSTokens text in
          match parseFigmaExport j with
          | inl e => ApParseFailed e
          | inr figmaTokens =>
              let errs := archErrors figmaTokens in
              if 0 <? length errs then ApBlocked errs
              else apply_after_diff yes (diffTokens cssTokens figmaTokens) currentRegistry answers
          end
      end
  end.

End Apply.

(* ================================================================== *)
(** * Graph vocabulary

    The dependency graphs handed to both [findCycles] map a token name to
    the list of names it references. *)

(** [graph.get(x) || []] *)
Definition deps_of (graph : list (string * list string)) (x : string) : list string :=
  match JsMap.get x graph with Some d => d | None => [] end.

(** Each name of [l] references the next one. *)
Fixpoint walk (graph : list (string * list string)) (l : list string) : Prop :=
  match l with
  | x :: ((y :: _) as l') => In y (deps_of graph x) /\ walk graph l'
  | _ => True
  end.

(** [c] lists the distinct names of a cycle of the graph in edge order,
    starting from one of them. *)
Definition simple_cycle (graph : list (string * list string)) (c : list string) : Prop :=
  NoDup c /\ exists x r, c = x :: r /\ walk graph (app c [x]).

(* ================================================================== *)
(** * Sample inputs *)

(** A line feed. *)
Definition LF : string := String (Ascii.ascii_of_nat 10) EmptyString.

(** A stylesheet whose [:root] block defines [--primitive-a] twice. *)
Definition css_duplicate_root : string :=
  String.concat LF [":root {"; "  --primitive-a: 1px;"; "  --primitive-a: 2px;"; "}"].

(** A stylesheet where [--semantic-b] references [--semantic-a] twice. *)
Definition css_double_reference : string :=
  String.concat LF [":root {"; "  --semantic-a: var(--semantic-b);";
                    "  --semantic-b: calc(var(--semantic-a) + var(--semantic-a));"; "}"].

(** Its dependency graph. *)
Definition graph_double_reference : list (string * list string) :=
  [("--semantic-a", ["--semantic-b"]); ("--semantic-b", ["--semantic-a"; "--semantic-a"])].

(** The two-token cycle with one reference each way. *)
Definition graph_two_cycle : list (string * list string) :=
  [("--semantic-a", ["--semantic-b"]); ("--semantic-b", ["--semantic-a"])].

(** An external batch setting [primitive.a] to the first local value. *)
Definition figma_primitive_a : Figma.FigmaJson :=
  Figma.TokensArray [Figma.mkRawEntry (Some "primitive.a") (Some "1px")].

(** A registry loaded with one changelog entry. *)
Definition registry_with_history : Apply.Registry :=
  Apply.mkRegistry [("--semantic-y", "3")] []
    [Apply.mkChange "add" "--semantic-y" (Some "3") None].

(* ================================================================== *)
(** * The apply script: command line and generated theme files *)

Module ApplyArgs.

(** The options object of [parseArgs]. *)
Record Options := mkOptions {
  figmaFile : string; yes : bool; themeName : string; scope : string; outputDir : string
}.

(** The [for] loop of [parseArgs] over [args]; a value option takes the
    next argument ([args[++i]]) when it is truthy, i.e. not empty.
    [resolve a] is [path.resolve(process.cwd(), a)]. *)
Fixpoint parse_args_loop (resolve : string -> string) (args : list string) (o : Options) : Options :=
  match args with
  | [] => o
  | a :: rest =>
      let positional :=
        if negb (starts_with "-" a)
        then parse_args_loop resolve rest
               (mkOptions (resolve a) (yes o) (themeName o) (scope o) (outputDir o))
        else parse_args_loop resolve rest o in
      if String.eqb a "--yes" || String.eqb a "-y" then
        parse_args_loop resolve rest
          (mkOptions (figmaFile o) true (themeName o) (scope o) (outputDir o))
      else match rest with
           | v :: rest' =>
               if String.eqb a "--theme" && negb (String.eqb v "") then
                 parse_args_loop resolve rest'
                   (mkOptions (figmaFile o) (yes o) v (scope o) (outputDir o))
               else if String.eqb a "--scope" && negb (String.eqb v "") then
                 parse_args_loop resolve rest'
                   (if String.eqb v "attr"
                    then mkOptions (figmaFile o) (yes o) (themeName o) "attr" (outputDir o)
                    else o)
               else if String.eqb a "--out" && negb (String.eqb v "") then
                 parse_args_loop resolve rest'
                   (mkOptions (figmaFile o) (yes o) (themeName o) (scope o) (resolve v))
               else positional
           | [] => positional
           end
  end.

(** [parseArgs(argv)]; [join f] is [path.join(ROOT, f)]. *)
Definition parseArgs (join resolve : string -> string) (argv : list string) : Options :=
  parse_args_loop resolve (skipn 2 argv)
    (mkOptions (join "figma-export.json") false "user" "root" (join "dist")).

End ApplyArgs.

Module ThemeOut.

Definition DQ : string := String "034"%char EmptyString.

(** The em dash of the fixed texts, as the UTF-8 bytes written to disk. *)
Definition EMDASH : string := String "226"%char (String "128"%char (String "148"%char EmptyString)).

(** [buildSelector(scope, themeName)] *)
Definition buildSelector (scope themeName : string) : string :=
  if String.eqb scope "attr" then "[data-theme=" ++ DQ ++ themeName ++ DQ ++ "]" else ":root".

(** [' '.repeat(n)] *)
Fixpoint spaces (n : nat) : string :=
  match n with O => EmptyString | S k => String " "%char (spaces k) end.

(** [String(n)] of a count: its decimal digits. *)
Fixpoint dec_aux (fuel n : nat) (acc : string) : string :=
  match fuel with
  | O => acc
  | S f =>
      let acc' := String (ascii_of_nat (48 + n mod 10)) acc in
      if n <? 10 then acc' else dec_aux f (n / 10) acc'
  end.

Definition to_dec (n : nat) : string := dec_aux (S n) n EmptyString.

(** [arr.join('\n')] *)
Definition join_lines (l : list string) : string := String.concat LF l.

(** [entries.reduce((m, [k]) => Math.max(m, k.length), 0)] *)
Definition maxLen (entries : list (string * string)) : nat :=
  fold_left (fun m '(k, _) => Nat.max m (String.length k)) entries 0.

(** The declaration line of one entry. *)
Definition decl (maxLen : nat) (e : string * string) : string :=
  let '(name, value) := e in
  "    " ++ name ++ ":" ++ spaces (maxLen - String.length name + 1) ++ value ++ ";".

Definition css_header_lines (now relSrc : string) (n : nat) (selector : string) : list string :=
  [
    "/* Design System " ++ EMDASH ++ " User Theme";
    " * Generated : " ++ now;
    " * Source    : " ++ relSrc;
    " * Tokens    : " ++ to_dec n;
    " * Scope     : " ++ selector;
    " *";
    " * DO NOT EDIT MANUALLY " ++ EMDASH ++ " regenerate with: npm run figma-sync-apply";
    " */"].

Definition css_header (now relSrc : string) (n : nat) (selector : string) : string :=
  join_lines (css_header_lines now relSrc n selector).

(** [generateThemeCSS(tokens, selector, sourceFile)]: [now] is the
    timestamp and [relSrc] the base name of [sourceFile]; [tokens] are the
    entries of the object in order. *)
Definition generateThemeCSS (now relSrc : string) (tokens : list (string * string))
    (selector : string) : string :=
  let entries := tokens in
  let header := css_header now relSrc (length entries) selector in
  match entries with
  | [] => header ++ LF ++ LF ++ "/* (no token overrides " ++ EMDASH
            ++ " all tokens use system defaults) */" ++ LF
  | _ =>
      let m := maxLen entries in
      join_lines (app [header; ""; "@layer themes {"; ""; "  " ++ selector ++ " {"]
                   (app (map (decl m) entries) ["  }"; ""; "}"; ""]))
  end.

(** [generateThemeSCSS(tokens, selector, sourceFile)] *)
Definition generateThemeSCSS (now relSrc : string) (tokens : list (string * string))
    (selector : string) : string :=
  let entries := tokens in
  let m := maxLen entries in
  let decls := match entries with
               | [] => ["    // (no token overrides " ++ EMDASH ++ " all tokens use system defaults)"]
               | _ => map (decl m) entries
               end in
  let rule := "// =============================================================================" in
  join_lines (app [
    rule;
    "// USER THEME";
    "// FILE: scss/themes/_user-theme.scss";
    "// LAYER: themes";
    "//";
    "// Generated : " ++ now;
    "// Source    : " ++ relSrc;
    "// Tokens    : " ++ to_dec (length entries);
    "// Scope     : " ++ selector;
    "//";
    "// To include in the SCSS build pipeline, add to scss/themes/_index.scss:";
    "//   @use 'user-theme';";
    "//";
    "// DO NOT EDIT MANUALLY " ++ EMDASH ++ " regenerate with: npm run figma-sync-apply";
    rule;
    "";
    "@layer themes {";
    "";
    "  " ++ selector ++ " {"]
    (app decls ["  }"; ""; "}"; ""])).

End ThemeOut.

(* ================================================================== *)
(** * Properties *)

(* ------------------------------------------------------------------ *)
(** ** Association-list maps *)

Module JsMapFacts.

Lemma get_set_same {V} (k : string) (v : V) m : JsMap.get k (JsMap.set k v m) = Some v.
Proof.
  induction m as [|[k' v'] m IH]; simpl.
  - now rewrite String.eqb_refl.
  - destruct (String.eqb k k') eqn:E; simpl; rewrite ?E; auto.
Qed.

Lemma get_set_other {V} (k k2 : string) (v : V) m :
  k2 <> k -> JsMap.get k2 (JsMap.set k v m) = JsMap.get k2 m.
Proof.
  intros Hne; induction m as [|[k' v'] m IH]; simpl.
  - destruct (String.eqb k2 k) eqn:E; [apply String.eqb_eq in E; congruence | reflexivity].
  - destruct (String.eqb k k') eqn:E; simpl.
    + apply String.eqb_eq in E; subst k'.
      destruct (String.eqb k2 k) eqn:E2; [apply String.eqb_eq in E2; congruence | reflexivity].
    + now rewrite IH.
Qed.

Lemma get_none_iff {V} k (m : list (string * V)) : JsMap.get k m = None <-> ~ In k (JsMap.keys m).
Proof.
  induction m as [|[k' v'] m IH]; simpl; [tauto|].
  destruct (String.eqb k k') eqn:E.
  - apply String.eqb_eq in E; subst; split; [discriminate | tauto].
  - apply String.eqb_neq in E. rewrite IH. intuition.
Qed.

Lemma set_absent {V} k (v : V) m : ~ In k (JsMap.keys m) -> JsMap.set k v m = app m [(k, v)].
Proof.
  induction m as [|[k' v'] m IH]; simpl; intros H; [reflexivity|].
  destruct (String.eqb k k') eqn:E.
  - apply String.eqb_eq in E; subst; tauto.
  - rewrite IH; tauto.
Qed.

Lemma get_in {V} k (v : V) m : NoDup (JsMap.keys m) -> In (k, v) m -> JsMap.get k m = Some v.
Proof.
  induction m as [|[k' v'] m IH]; simpl; intros Hnd Hin; [contradiction|].
  inversion Hnd as [|? ? Hnotin Hnd']; subst.
  destruct Hin as [Heq | Hin].
  - inversion Heq; subst. now rewrite String.eqb_refl.
  - destruct (String.eqb k k') eqn:E.
    + apply String.eqb_eq in E; subst. exfalso; apply Hnotin.
      change k' with (fst (k', v)). now apply in_map.
    + auto.
Qed.

Lemma get_some_in {V} k (v : V) m : JsMap.get k m = Some v -> In (k, v) m.
Proof.
  induction m as [|[k' v'] m IH]; simpl; intros H; [discriminate|].
  destruct (String.eqb k k') eqn:E.
  - apply String.eqb_eq in E; inversion H; subst; auto.
  - auto.
Qed.

(** Building a map from entries whose keys are distinct keeps them all,
    in order. *)
Lemma fold_set_nodup {V} (l acc : list (string * V)) :
  NoDup (JsMap.keys (app acc l)) ->
  fold_left (fun m '(k, v) => JsMap.set k v m) l acc = app acc l.
Proof.
  revert acc; induction l as [|[k v] l IH]; intros acc Hnd; simpl.
  - now rewrite app_nil_r.
  - rewrite set_absent.
    + rewrite IH; [now rewrite <- app_assoc | now rewrite <- app_assoc].
    + unfold JsMap.keys in *. rewrite map_app in Hnd. simpl in Hnd.
      apply NoDup_remove_2 in Hnd. rewrite in_app_iff in Hnd. tauto.
Qed.

Lemma of_entries_nodup {V} (l : list (string * V)) :
  NoDup (JsMap.keys l) -> JsMap.of_entries l = l.
Proof. intros H. unfold JsMap.of_entries. now apply (fold_set_nodup l []). Qed.

End JsMapFacts.

(* ------------------------------------------------------------------ *)
(** ** Rule R3 on primitives *)

(** C2 (functional_correctness). Every reference in the value of a token
    definition whose name has the [--primitive-] prefix is reported by
    [findTierViolations], whatever the tier of the referenced name; in the
    validator run on any stylesheet, each such reference is an error. *)
Theorem primitive_reference_is_violation :
  (forall defs name d dep,
      In (name, d) defs -> getTier name = Primitive -> In dep (refs d) ->
      In (mkTierViolation name dep Primitive (getTier dep) (line d)) (findTierViolations defs))
  /\
  (forall css name d dep,
      In (name, d) (tokenDefs (parseCSS css)) -> getTier name = Primitive -> In dep (refs d) ->
      In (ITierViolation (mkTierViolation name dep Primitive (getTier dep) (line d)))
         (errors (validateCSS css))).
Proof.
  assert (H1 : forall defs name d dep,
      In (name, d) defs -> getTier name = Primitive -> In dep (refs d) ->
      In (mkTierViolation name dep Primitive (getTier dep) (line d)) (findTierViolations defs)).
  { intros defs name d dep Hin Ht Hdep. unfold findTierViolations.
    apply in_flat_map. exists (name, d). split; [exact Hin|].
    simpl. rewrite Ht. apply in_map_iff. exists dep. split; auto. }
  split; [exact H1|].
  intros css name d dep Hin Ht Hdep. unfold validateCSS; simpl.
  apply in_or_app; right. apply in_or_app; right. apply in_or_app; left.
  apply in_map. now apply H1.
Qed.

(* ------------------------------------------------------------------ *)
(** ** The exit rule of the validator *)

(** C3 (error_handling). On a stylesheet that was found and read, the
    validator exits with 0 exactly when the compiled error list is empty and
    with 1 exactly when it is not; the warnings play no part. *)
Theorem validator_exit_rule : forall css,
  (validate_main (CssText css) = 0 <-> errors (validateCSS css) = []) /\
  (validate_main (CssText css) = 1 <-> errors (validateCSS css) <> []).
Proof.
  intros css. unfold validate_main.
  destruct (errors (validateCSS css)) as [|e es] eqn:E; simpl.
  - split; split; intros H; try discriminate; try reflexivity; congruence.
  - split; split; intros H; try discriminate; try reflexivity; congruence.
Qed.

(* ------------------------------------------------------------------ *)
(** ** The approval prompt *)

(** C10 (functional_correctness). The prompt answer, trimmed and lower-cased,
    is a rejection exactly when it is [n] or [no]; every answer that is not
    one of [n], [no], [a], [s], [q] (the empty answer among them) accepts
    the presented entry. *)
Theorem prompt_defaults_to_accept : forall answer,
  let a := to_lower (trim answer) in
  (a <> "n" -> a <> "no" -> a <> "a" -> a <> "s" -> a <> "q" -> Apply.prompt answer = Apply.Yes) /\
  (Apply.prompt answer = Apply.No <-> a = "n" \/ a = "no") /\
  Apply.prompt "" = Apply.Yes.
Proof.
  intros answer a. unfold Apply.prompt. fold a.
  repeat split.
  - intros Hn Hno Ha Hs Hq.
    destruct (String.eqb_spec a "a"); [contradiction|].
    destruct (String.eqb_spec a "s"); [contradiction|].
    destruct (String.eqb_spec a "q"); [contradiction|].
    destruct (String.eqb_spec a "n"); [contradiction|].
    destruct (String.eqb_spec a "no"); [contradiction|]. reflexivity.
  - destruct (String.eqb_spec a "a"); [discriminate|].
    destruct (String.eqb_spec a "s"); [discriminate|].
    destruct (String.eqb_spec a "q"); [discriminate|].
    destruct (String.eqb_spec a "n"); [auto|].
    destruct (String.eqb_spec a "no"); [auto|]. discriminate.
  - intros [H | H]; subst a; rewrite H; reflexivity.
Qed.

Lemma prompt_defaults_to_accept_witness :
  to_lower (trim " Maybe ") <> "n" /\ Apply.prompt " Maybe " = Apply.Yes.
Proof.
  split; [discriminate|].
  apply (proj1 (prompt_defaults_to_accept " Maybe ")); discriminate.
Defined.

Lemma primitive_reference_is_violation_witness :
  In (mkTierViolation "--primitive-a" "--semantic-b" Primitive Semantic 2)
     (findTierViolations [("--primitive-a", mkTokenDef "var(--semantic-b)" ["--semantic-b"] 2 None)]).
Proof.
  apply (proj1 primitive_reference_is_violation
           [("--primitive-a", mkTokenDef "var(--semantic-b)" ["--semantic-b"] 2 None)]
           "--primitive-a" (mkTokenDef "var(--semantic-b)" ["--semantic-b"] 2 None) "--semantic-b");
    simpl; auto.
Defined.

(* ------------------------------------------------------------------ *)
(** ** Non-interactive mode *)

(** C6 (functional_correctness). With [--yes] every NEW and every MODIFIED
    entry is approved without reading any answer, no REMOVED entry is
    approved (each removable override is only counted as skipped), and the
    merged registry is built from NEW and MODIFIED alone. *)
Theorem yes_mode_excludes_removals :
  (forall ad md rem answers,
      Apply.review_phase true ad md rem answers
      = Some (Apply.mkReview ad md [] (length rem) false answers)) /\
  (forall d reg answers,
      Figma.added d <> [] \/ Figma.modified d <> [] ->
      Apply.apply_after_diff true d reg answers
      = Apply.ApWritten (Apply.mergeRegistryChanges reg (Figma.added d) (Figma.modified d) [])
          (Apply.mkReview (Figma.added d) (Figma.modified d) []
             (length (filter (fun r => JsMap.has (Figma.r_name r) (Apply.reg_tokens reg))
                             (Figma.removed d))) false answers)).
Proof.
  split; [reflexivity|].
  intros d reg answers Hne. unfold Apply.apply_after_diff. simpl.
  destruct (Figma.added d) as [|x xs]; destruct (Figma.modified d) as [|y ys];
    simpl; try (destruct Hne as [H|H]; contradiction); reflexivity.
Qed.

Lemma yes_mode_excludes_removals_witness :
  Apply.apply_after_diff true
    (Figma.mkDiff [Figma.mkAdded "--semantic-x" "1"] [] [Figma.mkRemoved "--semantic-y" "2"] [])
    (Apply.mkRegistry [("--semantic-y", "3")] [] []) []
  = Apply.ApWritten
      (Apply.mergeRegistryChanges (Apply.mkRegistry [("--semantic-y", "3")] [] [])
         [Figma.mkAdded "--semantic-x" "1"] [] [])
      (Apply.mkReview [Figma.mkAdded "--semantic-x" "1"] [] [] 1 false []).
Proof.
  apply (proj2 yes_mode_excludes_removals
           (Figma.mkDiff [Figma.mkAdded "--semantic-x" "1"] [] [Figma.mkRemoved "--semantic-y" "2"] [])
           (Apply.mkRegistry [("--semantic-y", "3")] [] []) []).
  left; discriminate.
Defined.

(* ------------------------------------------------------------------ *)
(** ** The diff engine *)

Module DiffFacts.
Import Figma.

Definition relevant_set (m : list (string * CssToken)) (p : string * CssToken) :=
  let '(name, data) := p in
  match getTierFromCSSName name with
  | Some t => if valid_figma_tier t then JsMap.set name data m else m
  | None => m
  end.

Definition manageable (n : string) : Prop :=
  exists t, getTierFromCSSName n = Some t /\ valid_figma_tier t = true.

Lemma relevant_all (l acc : list (string * CssToken)) :
  NoDup (JsMap.keys (app acc l)) -> (forall n, In n (JsMap.keys l) -> manageable n) ->
  fold_left relevant_set l acc = app acc l.
Proof.
  revert acc; induction l as [|[k v] l IH]; intros acc Hnd Hman; simpl.
  - now rewrite app_nil_r.
  - destruct (Hman k (or_introl eq_refl)) as [t [Ht Hv]].
    rewrite Ht, Hv. rewrite JsMapFacts.set_absent.
    + rewrite IH; [now rewrite <- app_assoc | now rewrite <- app_assoc |].
      intros n Hn; apply Hman; simpl; auto.
    + unfold JsMap.keys in *. rewrite map_app in Hnd. simpl in Hnd.
      apply NoDup_remove_2 in Hnd. rewrite in_app_iff in Hnd. tauto.
Qed.

Definition classify (cssRelevant : list (string * CssToken))
    : list Added * list Modified * list string -> string * string ->
      list Added * list Modified * list string :=
  fun '(ad, md, un) '(name, fv) =>
    match JsMap.get name cssRelevant with
    | None => (app ad [mkAdded name fv], md, un)
    | Some data =>
        if negb (String.eqb (ct_value data) fv)
        then (ad, app md [mkModified name (ct_value data) fv], un)
        else (ad, md, app un [name])
    end.

Lemma classify_self (toks : list (string * CssToken)) :
  NoDup (JsMap.keys toks) ->
  forall l ad md un, (forall p, In p l -> In p toks) ->
  fold_left (classify toks) (map (fun '(n, d) => (n, ct_value d)) l) (ad, md, un)
  = (ad, md, app un (JsMap.keys l)).
Proof.
  intros Hnd l; induction l as [|[k v] l IH]; intros ad md un Hsub; simpl.
  - now rewrite app_nil_r.
  - rewrite (JsMapFacts.get_in k v toks Hnd (Hsub _ (or_introl eq_refl))).
    rewrite String.eqb_refl. simpl. rewrite IH; [now rewrite <- app_assoc|].
    intros p Hp; apply Hsub; simpl; auto.
Qed.

Lemma keys_map_value (toks : list (string * CssToken)) :
  JsMap.keys (map (fun '(n, d) => (n, ct_value d)) toks) = JsMap.keys toks.
Proof. induction toks as [|[k v] l IH]; simpl; congruence. Qed.

End DiffFacts.

(** C9 (algebraic_relational). [diffTokens] is a function of its two inputs
    (equal inputs give identical classified lists), and diffing a token set
    of the manageable tiers (names with the [--primitive-], [--semantic-] or
    [--component-] prefix, each once) against an external batch holding the
    same names and values gives no NEW, MODIFIED or REMOVED entry and lists
    every name as UNCHANGED. *)
Theorem diff_deterministic_and_self_identity :
  (forall c1 c2 f1 f2, c1 = c2 -> f1 = f2 -> Figma.diffTokens c1 f1 = Figma.diffTokens c2 f2) /\
  (forall (toks : list (string * CssToken)) (figmaTokens : list Figma.FigmaToken),
      NoDup (JsMap.keys toks) ->
      (forall n, In n (JsMap.keys toks) -> DiffFacts.manageable n) ->
      map (fun t => (Figma.cssName t, Figma.cssValue t)) figmaTokens
        = map (fun '(n, d) => (n, ct_value d)) toks ->
      Figma.diffTokens toks figmaTokens = Figma.mkDiff [] [] [] (JsMap.keys toks)).
Proof.
  split; [intros; subst; reflexivity|].
  intros toks fts Hnd Hman Hmap. unfold Figma.diffTokens. rewrite Hmap.
  rewrite JsMapFacts.of_entries_nodup by (now rewrite DiffFacts.keys_map_value).
  change (fold_left _ toks []) with (fold_left DiffFacts.relevant_set toks []).
  rewrite (DiffFacts.relevant_all toks []) by (simpl; auto). rewrite app_nil_l.
  pose proof (DiffFacts.classify_self toks Hnd toks [] [] [] (fun p H => H)) as Hc.
  unfold DiffFacts.classify in Hc. rewrite Hc. simpl.
  f_equal.
  assert (Hall : forall l, (forall p, In p l -> In p toks) ->
            flat_map (fun '(name, data) =>
              if JsMap.has name (map (fun '(n, d) => (n, ct_value d)) toks) then []
              else [Figma.mkRemoved name (ct_value data)]) l = []).
  { induction l as [|[k v] l IH]; intros Hsub; simpl; [reflexivity|].
    unfold JsMap.has.
    rewrite (JsMapFacts.get_in k (ct_value v)).
    - apply IH. intros p Hp; apply Hsub; simpl; auto.
    - now rewrite DiffFacts.keys_map_value.
    - apply in_map_iff. exists (k, v). split; auto. apply Hsub; simpl; auto. }
  apply Hall; auto.
Qed.

Lemma diff_deterministic_and_self_identity_witness :
  Figma.diffTokens [("--primitive-a", mkCssToken "1px" 2); ("--semantic-b", mkCssToken "var(--primitive-a)" 3)]
    [Figma.mkFigmaToken "--primitive-a" "1px" "primitive.a" "1px" (Some Primitive);
     Figma.mkFigmaToken "--semantic-b" "var(--primitive-a)" "semantic.b" "{primitive.a}" (Some Semantic)]
  = Figma.mkDiff [] [] [] ["--primitive-a"; "--semantic-b"].
Proof.
  apply (proj2 diff_deterministic_and_self_identity).
  - repeat constructor; simpl; intuition discriminate.
  - intros n [H|[H|[]]]; subst; [exists Primitive | exists Semantic]; split; reflexivity.
  - reflexivity.
Defined.

(* ------------------------------------------------------------------ *)
(** ** The tier gate of the external batch *)

Module FigmaFacts.
Import Figma.

Lemma convert_entries_tier (es : list RawEntry) :
  forall idx ts, convert_entries idx es = inr ts ->
  forall t, In t ts -> ftier t = getTierFromFigmaName (figmaName t).
Proof.
  induction es as [|e es IH]; intros idx ts H t Hin; simpl in H.
  - inversion H; subst; destruct Hin.
  - destruct (convert_entry idx e) as [err|t0] eqn:Hc; [discriminate|].
    destruct (convert_entries (S idx) es) as [err|ts'] eqn:Hr; [discriminate|].
    inversion H; subst. destruct Hin as [<-|Hin]; [|eapply IH; eauto].
    unfold convert_entry in Hc.
    destruct (raw_name e) as [n|]; [|discriminate].
    destruct (String.eqb (trim n) ""); [discriminate|].
    destruct (raw_value e); inversion Hc; reflexivity.
Qed.

Lemma parse_tier (j : FigmaJson) (ts : list FigmaToken) :
  parseFigmaExport j = inr ts ->
  forall t, In t ts -> ftier t = getTierFromFigmaName (figmaName t).
Proof.
  destruct j; simpl; try discriminate. apply convert_entries_tier.
Qed.

Lemma unknown_segment_no_tier (n : string) :
  first_segment n <> "primitive" -> first_segment n <> "semantic" ->
  first_segment n <> "component" -> getTierFromFigmaName n = None.
Proof.
  intros H1 H2 H3. unfold getTierFromFigmaName.
  destruct (String.eqb_spec (first_segment n) "primitive"); [contradiction|].
  destruct (String.eqb_spec (first_segment n) "semantic"); [contradiction|].
  destruct (String.eqb_spec (first_segment n) "component"); [contradiction|].
  reflexivity.
Qed.

Lemma unknown_tier_reported (ts : list FigmaToken) (t : FigmaToken) :
  In t ts -> ftier t = None -> In (UnknownTier (figmaName t)) (validateFigmaTiers ts).
Proof.
  intros Hin Ht. unfold validateFigmaTiers. apply in_flat_map.
  exists t. split; auto. unfold check_token. rewrite Ht. left; reflexivity.
Qed.

End FigmaFacts.

(** C4 (error_handling). If the parsed external batch holds a token whose
    dotted name has a first segment other than [primitive], [semantic] and
    [component] (for instance [base]), the tier gate reports an
    [UnknownTier] error for it, and both the dry run and the apply run stop
    with the whole list of architecture errors before [diffTokens] is
    called: the outcome carries no diff, review or merged registry. *)
Theorem unknown_segment_blocks_batch :
  forall j ts t,
    Figma.parseFigmaExport j = inr ts ->
    In t ts ->
    Figma.first_segment (Figma.figmaName t) <> "primitive" ->
    Figma.first_segment (Figma.figmaName t) <> "semantic" ->
    Figma.first_segment (Figma.figmaName t) <> "component" ->
    In (Figma.UnknownTier (Figma.figmaName t)) (Figma.validateFigmaTiers ts) /\
    (forall css, Figma.dry_run_main (Some css) (Some j) = Figma.DRBlocked (Figma.archErrors ts)) /\
    (forall css yes reg answers,
        Apply.apply_main (Some css) (Some j) yes reg answers = Apply.ApBlocked (Figma.archErrors ts)).
Proof.
  intros j ts t Hp Hin H1 H2 H3.
  assert (Hrep : In (Figma.UnknownTier (Figma.figmaName t)) (Figma.validateFigmaTiers ts)).
  { apply FigmaFacts.unknown_tier_reported; auto.
    rewrite (FigmaFacts.parse_tier j ts Hp t Hin).
    apply FigmaFacts.unknown_segment_no_tier; auto. }
  assert (Hlen : (0 <? length (Figma.archErrors ts)) = true).
  { apply Nat.ltb_lt. unfold Figma.archErrors. rewrite length_app.
    destruct (Figma.validateFigmaTiers ts); [destruct Hrep|simpl; lia]. }
  split; [exact Hrep|split].
  - intros css. unfold Figma.dry_run_main. rewrite Hp, Hlen. reflexivity.
  - intros css yes reg answers. unfold Apply.apply_main. rewrite Hp, Hlen. reflexivity.
Qed.

Lemma unknown_segment_blocks_batch_witness :
  Figma.dry_run_main (Some ":root {}")
    (Some (Figma.TokensArray [Figma.mkRawEntry (Some "base.spacing") (Some "4px")]))
  = Figma.DRBlocked (Figma.archErrors
      [Figma.mkFigmaToken (Figma.figmaNameToCSSVar "base.spacing") (Figma.figmaValueToCSS "4px")
         "base.spacing" "4px" None]).
Proof.
  apply (proj1 (proj2 (unknown_segment_blocks_batch
    (Figma.TokensArray [Figma.mkRawEntry (Some "base.spacing") (Some "4px")])
    [Figma.mkFigmaToken (Figma.figmaNameToCSSVar "base.spacing") (Figma.figmaValueToCSS "4px")
       "base.spacing" "4px" None]
    (Figma.mkFigmaToken (Figma.figmaNameToCSSVar "base.spacing") (Figma.figmaValueToCSS "4px")
       "base.spacing" "4px" None)
    eq_refl (or_introl eq_refl) ltac:(discriminate) ltac:(discriminate) ltac:(discriminate)))).
Defined.

(* ------------------------------------------------------------------ *)
(** ** Quitting the interactive review *)

Module ReviewFacts.
Import Figma Apply.

(** The operator's answer approves the entry it is given for. *)
Definition answered_yes (answer : string) : bool :=
  match prompt answer with Yes => true | _ => false end.

(** Once "a" or "s" has been answered no prompt is shown, so no quit. *)
Lemma review_items_flag_no_quit {A} (items : list A) :
  forall aa sa answers ap0 sk0 ap sk q rest,
  aa || sa = true ->
  review_items aa sa items answers ap0 sk0 = Some (ap, sk, q, rest) -> q = false.
Proof.
  induction items as [|item items IH]; intros aa sa answers ap0 sk0 ap sk q rest Hf H;
    simpl in H.
  - congruence.
  - destruct aa; [exact (IH true sa _ _ _ _ _ _ _ eq_refl H)|].
    destruct sa; [exact (IH false true _ _ _ _ _ _ _ eq_refl H)|discriminate].
Qed.

(** A quit inside the loop: the entries before it were each answered
    "yes" or "no", the approved list gains exactly those answered "yes",
    the skipped list gains those answered "no", then the entry quit on and
    all later entries. *)
Lemma review_items_quit {A} (items : list A) :
  forall answers ap0 sk0 ap sk rest,
  review_items false false items answers ap0 sk0 = Some (ap, sk, true, rest) ->
  exists pre x post used a,
    items = app pre (x :: post) /\ answers = app used (a :: rest) /\ prompt a = Quit /\
    length used = length pre /\
    Forall (fun b => prompt b = Yes \/ prompt b = No) used /\
    ap = app ap0 (map fst (filter (fun p => answered_yes (snd p)) (combine pre used))) /\
    sk = app sk0 (app (map fst (filter (fun p => negb (answered_yes (snd p))) (combine pre used)))
                      (x :: post)).
Proof.
  induction items as [|item items IH]; intros answers ap0 sk0 ap sk rest H; simpl in H;
    [discriminate|].
  destruct answers as [|b answers']; [discriminate|].
  destruct (prompt b) eqn:Hb.
  - destruct (IH _ _ _ _ _ _ H) as (pre & x & post & used & a & E & Ea & Hq & Hl & Hf & Eap & Esk).
    assert (Hy : answered_yes b = true) by (unfold answered_yes; rewrite Hb; reflexivity).
    exists (item :: pre), x, post, (b :: used), a.
    repeat split; auto.
    + simpl; congruence.
    + simpl; congruence.
    + simpl; lia.
    + rewrite Eap. cbn [combine filter snd]. rewrite Hy. cbn [map fst].
      rewrite <- app_assoc. reflexivity.
    + rewrite Esk. cbn [combine filter snd]. rewrite Hy. reflexivity.
  - destruct (IH _ _ _ _ _ _ H) as (pre & x & post & used & a & E & Ea & Hq & Hl & Hf & Eap & Esk).
    assert (Hy : answered_yes b = false) by (unfold answered_yes; rewrite Hb; reflexivity).
    exists (item :: pre), x, post, (b :: used), a.
    repeat split; auto.
    + simpl; congruence.
    + simpl; congruence.
    + simpl; lia.
    + rewrite Eap. cbn [combine filter snd]. rewrite Hy. reflexivity.
    + rewrite Esk. cbn [combine filter snd]. rewrite Hy. cbn [negb map fst].
      rewrite <- app_assoc. reflexivity.
  - pose proof (review_items_flag_no_quit _ true false _ _ _ _ _ _ _ eq_refl H). discriminate.
  - pose proof (review_items_flag_no_quit _ false true _ _ _ _ _ _ _ eq_refl H). discriminate.
  - inversion H; subst.
    exists [], item, items, [], b.
    repeat split; auto.
    + simpl. now rewrite app_nil_r.
    + simpl. now rewrite <- app_assoc.
Qed.

(** A category with no entries is not reviewed: nothing approved or
    skipped, no quit, no answer read. *)
Lemma reviewCategory_nil {A} answers (ap sk : list A) q rest :
  reviewCategory [] answers = Some (ap, sk, q, rest) ->
  ap = [] /\ sk = [] /\ q = false /\ rest = answers.
Proof. simpl. intros H. inversion H. auto. Qed.

(** The run's two tests of the approved total coincide. *)
Ltac close_total :=
  match goal with |- context [if ?c then _ else _] => destruct c; reflexivity end.

End ReviewFacts.

(** C5 (functional_correctness). Interactive mode: when the operator
    accepts the first of three NEW entries and quits on the second, the run
    writes the registry merged from the first entry alone, counts the other
    two as skipped and reads no answer for the third.  In general:
    (i) a quit inside a category splits its entries as [pre ++ x :: post],
    where [x] is the entry quit on; every entry of [pre] was answered "yes"
    or "no", the category's approved list is exactly the entries of [pre]
    answered "yes" (in order), and its skipped list is the entries of [pre]
    answered "no" followed by [x] and all of [post];
    (ii) a quit in NEW writes exactly the NEW entries approved before the
    quit and nothing of MODIFIED or REMOVED; a quit in MODIFIED after NEW
    was completed writes exactly the approvals of the completed NEW review
    and those of MODIFIED made before the quit; a quit in REMOVED after NEW
    and MODIFIED were completed writes the approvals of both completed
    reviews and those of REMOVED made before the quit.  When no entry at
    all was approved the run writes nothing (exit code 2). *)
Theorem quit_keeps_accepted_prefix :
  (forall (x1 x2 x3 : Figma.Added) md rem un reg a1 a2 rest,
      Apply.prompt a1 = Apply.Yes -> Apply.prompt a2 = Apply.Quit ->
      Apply.apply_after_diff false (Figma.mkDiff [x1; x2; x3] md rem un) reg (a1 :: a2 :: rest)
      = Apply.ApWritten (Apply.mergeRegistryChanges reg [x1] [] [])
          (Apply.mkReview [x1] [] [] 2 true rest)) /\
  (forall A (items : list A) answers ap sk rest,
      Apply.reviewCategory items answers = Some (ap, sk, true, rest) ->
      exists pre x post used a,
        items = app pre (x :: post) /\ answers = app used (a :: rest) /\
        Apply.prompt a = Apply.Quit /\ length used = length pre /\
        Forall (fun b => Apply.prompt b = Apply.Yes \/ Apply.prompt b = Apply.No) used /\
        ap = map fst (filter (fun p => ReviewFacts.answered_yes (snd p)) (combine pre used)) /\
        sk = app (map fst (filter (fun p => negb (ReviewFacts.answered_yes (snd p)))
                                  (combine pre used)))
                 (x :: post)) /\
  (forall d reg answers ap1 sk1 rest1,
      Apply.reviewCategory (Figma.added d) answers = Some (ap1, sk1, true, rest1) ->
      Apply.apply_after_diff false d reg answers
      = if length ap1 =? 0 then Apply.ApQuitNothingApproved
        else Apply.ApWritten (Apply.mergeRegistryChanges reg ap1 [] [])
               (Apply.mkReview ap1 [] [] (length sk1) true rest1)) /\
  (forall d reg answers ap1 sk1 rest1 ap2 sk2 rest2,
      Apply.reviewCategory (Figma.added d) answers = Some (ap1, sk1, false, rest1) ->
      Apply.reviewCategory (Figma.modified d) rest1 = Some (ap2, sk2, true, rest2) ->
      Apply.apply_after_diff false d reg answers
      = if length ap1 + length ap2 =? 0 then Apply.ApQuitNothingApproved
        else Apply.ApWritten (Apply.mergeRegistryChanges reg ap1 ap2 [])
               (Apply.mkReview ap1 ap2 [] (length sk1 + length sk2) true rest2)) /\
  (forall d reg answers ap1 sk1 rest1 ap2 sk2 rest2 ap3 sk3 rest3,
      Figma.added d <> [] \/ Figma.modified d <> [] ->
      Apply.reviewCategory (Figma.added d) answers = Some (ap1, sk1, false, rest1) ->
      Apply.reviewCategory (Figma.modified d) rest1 = Some (ap2, sk2, false, rest2) ->
      Apply.reviewCategory
        (filter (fun x => JsMap.has (Figma.r_name x) (Apply.reg_tokens reg)) (Figma.removed d))
        rest2 = Some (ap3, sk3, true, rest3) ->
      Apply.apply_after_diff false d reg answers
      = if length ap1 + length ap2 + length ap3 =? 0 then Apply.ApQuitNothingApproved
        else Apply.ApWritten (Apply.mergeRegistryChanges reg ap1 ap2 ap3)
               (Apply.mkReview ap1 ap2 ap3 (length sk1 + length sk2 + length sk3) true rest3)).
Proof.
  split; [|split; [|split; [|split]]].
  - intros x1 x2 x3 md rem un reg a1 a2 rest H1 H2.
    unfold Apply.apply_after_diff. simpl. rewrite H1, H2. reflexivity.
  - intros A items answers ap sk rest H. unfold Apply.reviewCategory in H.
    destruct items as [|i is]; [discriminate|].
    destruct (ReviewFacts.review_items_quit _ _ _ _ _ _ _ H)
      as (pre & x & post & used & a & E & Ea & Hq & Hl & Hf & Eap & Esk).
    exists pre, x, post, used, a. repeat split; auto.
  - intros [ad md rm un] reg answers ap1 sk1 rest1 H1. cbn [Figma.added] in H1.
    destruct ad as [|a0 ad'];
      [apply ReviewFacts.reviewCategory_nil in H1; destruct H1 as (_ & _ & ? & _); discriminate|].
    unfold Apply.apply_after_diff, Apply.review_phase.
    cbn -[Apply.reviewCategory Apply.mergeRegistryChanges]. rewrite H1.
    cbn -[Apply.mergeRegistryChanges]. rewrite ?Nat.add_0_r. ReviewFacts.close_total.
  - intros [ad md rm un] reg answers ap1 sk1 rest1 ap2 sk2 rest2 H1 H2.
    cbn [Figma.added Figma.modified] in H1, H2.
    destruct md as [|m0 md'];
      [apply ReviewFacts.reviewCategory_nil in H2; destruct H2 as (_ & _ & ? & _); discriminate|].
    unfold Apply.apply_after_diff, Apply.review_phase.
    destruct ad as [|a0 ad'].
    + apply ReviewFacts.reviewCategory_nil in H1. destruct H1 as (-> & -> & _ & ->).
      cbn -[Apply.reviewCategory Apply.mergeRegistryChanges]. rewrite H2.
      cbn -[Apply.mergeRegistryChanges]. rewrite ?Nat.add_0_r. ReviewFacts.close_total.
    + cbn -[Apply.reviewCategory Apply.mergeRegistryChanges]. rewrite H1.
      cbn -[Apply.reviewCategory Apply.mergeRegistryChanges]. rewrite H2.
      cbn -[Apply.mergeRegistryChanges]. rewrite ?Nat.add_0_r. ReviewFacts.close_total.
  - intros [ad md rm un] reg answers ap1 sk1 rest1 ap2 sk2 rest2 ap3 sk3 rest3 Hne H1 H2 H3.
    cbn [Figma.added Figma.modified Figma.removed] in Hne, H1, H2, H3.
    unfold Apply.apply_after_diff, Apply.review_phase.
    cbn [Figma.added Figma.modified Figma.removed].
    remember (filter (fun x => JsMap.has (Figma.r_name x) (Apply.reg_tokens reg)) rm) as rmv
      eqn:Erm.
    destruct rmv as [|r0 rmv'];
      [apply ReviewFacts.reviewCategory_nil in H3; destruct H3 as (_ & _ & ? & _); discriminate|].
    destruct ad as [|a0 ad']; destruct md as [|m0 md'].
    + destruct Hne as [H|H]; contradiction.
    + apply ReviewFacts.reviewCategory_nil in H1. destruct H1 as (-> & -> & _ & ->).
      cbn -[Apply.reviewCategory Apply.mergeRegistryChanges]. rewrite H2.
      cbn -[Apply.reviewCategory Apply.mergeRegistryChanges]. rewrite H3.
      cbn -[Apply.mergeRegistryChanges]. rewrite ?Nat.add_0_r. ReviewFacts.close_total.
    + apply ReviewFacts.reviewCategory_nil in H2. destruct H2 as (-> & -> & _ & ->).
      cbn -[Apply.reviewCategory Apply.mergeRegistryChanges]. rewrite H1.
      cbn -[Apply.reviewCategory Apply.mergeRegistryChanges]. rewrite H3.
      cbn -[Apply.mergeRegistryChanges]. rewrite ?Nat.add_0_r. ReviewFacts.close_total.
    + cbn -[Apply.reviewCategory Apply.mergeRegistryChanges]. rewrite H1.
      cbn -[Apply.reviewCategory Apply.mergeRegistryChanges]. rewrite H2.
      cbn -[Apply.reviewCategory Apply.mergeRegistryChanges]. rewrite H3.
      cbn -[Apply.mergeRegistryChanges]. rewrite ?Nat.add_0_r. ReviewFacts.close_total.
Qed.

Lemma quit_keeps_accepted_prefix_witness :
  Apply.apply_after_diff false
    (Figma.mkDiff [Figma.mkAdded "--semantic-x" "1"; Figma.mkAdded "--semantic-y" "2";
                   Figma.mkAdded "--semantic-z" "3"] [] [] [])
    (Apply.mkRegistry [] [] []) ["y"; "q"]
  = Apply.ApWritten (Apply.mergeRegistryChanges (Apply.mkRegistry [] [] [])
                       [Figma.mkAdded "--semantic-x" "1"] [] [])
      (Apply.mkReview [Figma.mkAdded "--semantic-x" "1"] [] [] 2 true []) /\
  Apply.apply_after_diff false
    (Figma.mkDiff [Figma.mkAdded "--semantic-x" "1"]
       [Figma.mkModified "--semantic-y" "2" "3"; Figma.mkModified "--semantic-z" "4" "5"] [] [])
    (Apply.mkRegistry [] [] []) ["n"; "y"; "q"]
  = Apply.ApWritten (Apply.mergeRegistryChanges (Apply.mkRegistry [] [] [])
                       [] [Figma.mkModified "--semantic-y" "2" "3"] [])
      (Apply.mkReview [] [Figma.mkModified "--semantic-y" "2" "3"] [] 2 true []).
Proof.
  split.
  - apply (proj1 quit_keeps_accepted_prefix); reflexivity.
  - apply (proj1 (proj2 (proj2 (proj2 quit_keeps_accepted_prefix)))
             (Figma.mkDiff [Figma.mkAdded "--semantic-x" "1"]
                [Figma.mkModified "--semantic-y" "2" "3"; Figma.mkModified "--semantic-z" "4" "5"]
                [] [])
             (Apply.mkRegistry [] [] []) ["n"; "y"; "q"]
             [] [Figma.mkAdded "--semantic-x" "1"] ["y"; "q"]
             [Figma.mkModified "--semantic-y" "2" "3"] [Figma.mkModified "--semantic-z" "4" "5"] []);
      reflexivity.
Defined.

(* ------------------------------------------------------------------ *)
(** ** The registry changelog *)

(** C7 (frame_effect). [mergeRegistryChanges] starts the new changelog
    from the empty list: the changelog written back never depends on the
    changelog of the loaded registry, so a run that approves one NEW entry
    on a registry with one earlier changelog entry writes a changelog that
    holds only the new entry; the earlier entry is lost. *)
Theorem merge_drops_loaded_changelog :
  (forall tk rm cl ad md rv,
      Apply.reg_changelog (Apply.mergeRegistryChanges (Apply.mkRegistry tk rm cl) ad md rv)
      = Apply.reg_changelog (Apply.mergeRegistryChanges (Apply.mkRegistry tk rm []) ad md rv)) /\
  Apply.reg_changelog
    (Apply.mergeRegistryChanges registry_with_history [Figma.mkAdded "--semantic-x" "1"] [] [])
  = [Apply.mkChange "add" "--semantic-x" (Some "1") None] /\
  Apply.apply_after_diff true
    (Figma.mkDiff [Figma.mkAdded "--semantic-x" "1"] [] [] []) registry_with_history []
  = Apply.ApWritten
      (Apply.mkRegistry [("--semantic-y", "3"); ("--semantic-x", "1")] []
         [Apply.mkChange "add" "--semantic-x" (Some "1") None])
      (Apply.mkReview [Figma.mkAdded "--semantic-x" "1"] [] [] 0 false []).
Proof.
  split; [reflexivity | split; reflexivity].
Qed.

(* ------------------------------------------------------------------ *)
(** ** Duplicate definitions in the root block *)

(** C8 (functional_correctness). On a stylesheet whose [:root] block
    defines [--primitive-a] twice (1px on line 2, 2px on line 3) the
    validator's [parseCSS] keeps the first definition, while
    [parseCSSTokens], whose result the diff engine consumes, keeps the last
    one; the dry run against an external value of 1px (the first local
    value) therefore reports [--primitive-a] as MODIFIED from 2px. *)
Theorem css_tokens_last_definition_wins :
  JsMap.get "--primitive-a" (tokenDefs (parseCSS css_duplicate_root))
    = Some (mkTokenDef "1px" [] 2 None) /\
  parseCSSTokens css_duplicate_root = [("--primitive-a", mkCssToken "2px" 3)] /\
  Figma.dry_run_main (Some css_duplicate_root) (Some figma_primitive_a)
    = Figma.DRDiffed (Figma.mkDiff [] [Figma.mkModified "--primitive-a" "2px" "1px"] [] []).
Proof.
  split; [vm_compute; reflexivity | split; vm_compute; reflexivity].
Qed.

(* ------------------------------------------------------------------ *)
(** ** Cycle detection *)

Module CycleFacts.

Lemma walk_sources (g : list (string * list string)) (l : list string) (y : string) :
  walk g (app l [y]) -> forall z, In z l -> deps_of g z <> [].
Proof.
  induction l as [|x l IH]; simpl; [tauto|].
  destruct l as [|x' l]; simpl.
  - intros [H _] z [<-|[]] E. rewrite E in H. destruct H.
  - intros [H Hw] z [<-|Hz] E.
    + rewrite E in H; destruct H.
    + apply (IH Hw z Hz E).
Qed.

(** In a graph whose only referencing names are [a] and [b], neither of
    them referencing itself, every simple cycle is [a; b] or [b; a]. *)
Lemma two_node_cycles (g : list (string * list string)) (a b : string) :
  (forall x, deps_of g x <> [] -> x = a \/ x = b) ->
  ~ In a (deps_of g a) -> ~ In b (deps_of g b) ->
  forall c, simple_cycle g c -> c = [a; b] \/ c = [b; a].
Proof.
  intros Hsrc Ha Hb c [Hnd (x & r & -> & Hw)].
  assert (Hin : forall z, In z (x :: r) -> z = a \/ z = b)
    by (intros z Hz; apply Hsrc; eapply walk_sources; eauto).
  destruct r as [|y r].
  - simpl in Hw. destruct (Hin x (or_introl eq_refl)) as [->| ->]; tauto.
  - inversion Hnd as [|? ? Hx Hnd']; subst. inversion Hnd' as [|? ? Hy _]; subst.
    destruct r as [|z r].
    + destruct (Hin x (or_introl eq_refl)) as [->| ->];
        destruct (Hin y (or_intror (or_introl eq_refl))) as [->| ->]; simpl in Hx;
        tauto.
    + exfalso.
      destruct (Hin x (or_introl eq_refl)) as [->| ->];
        destruct (Hin y (or_intror (or_introl eq_refl))) as [->| ->];
        destruct (Hin z (or_intror (or_intror (or_introl eq_refl)))) as [->| ->];
        simpl in Hx, Hy; tauto.
Qed.

Lemma double_reference_cycles :
  forall c, simple_cycle graph_double_reference c ->
  c = ["--semantic-a"; "--semantic-b"] \/ c = ["--semantic-b"; "--semantic-a"].
Proof.
  apply two_node_cycles.
  - intros x. unfold deps_of; simpl.
    destruct (String.eqb_spec x "--semantic-a"); [auto|].
    destruct (String.eqb_spec x "--semantic-b"); [auto|]. tauto.
  - simpl. intros [H|[]]; discriminate.
  - simpl. intros [H|[H|[]]]; discriminate.
Qed.

Lemma two_cycle_cycles :
  forall c, simple_cycle graph_two_cycle c ->
  c = ["--semantic-a"; "--semantic-b"] \/ c = ["--semantic-b"; "--semantic-a"].
Proof.
  apply two_node_cycles.
  - intros x. unfold deps_of; simpl.
    destruct (String.eqb_spec x "--semantic-a"); [auto|].
    destruct (String.eqb_spec x "--semantic-b"); [auto|]. tauto.
  - simpl. intros [H|[]]; discriminate.
  - simpl. intros [H|[]]; discriminate.
Qed.

End CycleFacts.

Module DfsModel.

(** The state both depth-first searches share: the colour map, the stack
    of frames (top first; each with the dependencies not yet examined) and
    the cycles found. *)
Record AState := mkA {
  ac : list (string * color);
  ast : list (string * list string);
  acy : list (list string)
}.

Definition apath (stk : list (string * list string)) : list string := rev (map fst stk).

Definition report (p : list string) (d : string) : list string :=
  app (slice_from (indexOf d p) p) [d].

Definition col0 (g : list (string * list string)) : list (string * color) :=
  fold_left (fun c name => JsMap.set name WHITE c) (JsMap.keys g) [].

Section Machine.
Variable g : list (string * list string).
(** [ap]: a dependency without colour is coloured and pushed (true) or
    skipped (false). *)
Variable ap : bool.

Inductive move : AState -> AState -> Prop :=
  | MSkip c x d ds rest cy :
      JsMap.get d c = None -> ap = false ->
      move (mkA c ((x, d :: ds) :: rest) cy) (mkA c ((x, ds) :: rest) cy)
  | MBlack c x d ds rest cy :
      JsMap.get d c = Some BLACK ->
      move (mkA c ((x, d :: ds) :: rest) cy) (mkA c ((x, ds) :: rest) cy)
  | MGray c x d ds rest cy :
      JsMap.get d c = Some GRAY ->
      move (mkA c ((x, d :: ds) :: rest) cy)
           (mkA c ((x, ds) :: rest) (app cy [report (apath ((x, d :: ds) :: rest)) d]))
  | MPush c x d ds rest cy :
      JsMap.get d c = Some WHITE ->
      move (mkA c ((x, d :: ds) :: rest) cy)
           (mkA (JsMap.set d GRAY c) ((d, deps_of g d) :: (x, ds) :: rest) cy)
  | MPushNew c x d ds rest cy :
      JsMap.get d c = None -> ap = true ->
      move (mkA c ((x, d :: ds) :: rest) cy)
           (mkA (JsMap.set d GRAY (JsMap.set d WHITE c)) ((d, deps_of g d) :: (x, ds) :: rest) cy)
  | MPop c x rest cy :
      move (mkA c ((x, []) :: rest) cy) (mkA (JsMap.set x BLACK c) rest cy)
  | MStart c x cy :
      JsMap.get x c = Some WHITE ->
      move (mkA c [] cy) (mkA (JsMap.set x GRAY c) [(x, deps_of g x)] cy).

Inductive reach : AState -> Prop :=
  | RInit : reach (mkA (col0 g) [] [])
  | RMove s s' : reach s -> move s s' -> reach s'.

Record Inv (s : AState) : Prop := {
  inv_nodup : NoDup (map fst (ast s));
  inv_gray : forall y, JsMap.get y (ac s) = Some GRAY <-> In y (map fst (ast s));
  inv_suffix : forall x ds, In (x, ds) (ast s) -> exists pre, deps_of g x = app pre ds;
  inv_walk : walk g (apath (ast s));
  inv_keys : forall y, In y (JsMap.keys g) -> JsMap.get y (ac s) <> None;
  inv_colored : forall y, JsMap.get y (ac s) <> None ->
                In y (JsMap.keys g) \/ (ap = true /\ In y (flat_map snd g));
  inv_cnodup : NoDup (JsMap.keys (ac s));
  inv_cycles : forall cy, In cy (acy s) ->
               exists x r, simple_cycle g (x :: r) /\ cy = app (x :: r) [x]
}.

End Machine.

(** *** Facts on maps *)

Lemma get_set {V} (x y : string) (v : V) m :
  JsMap.get y (JsMap.set x v m) = if String.eqb y x then Some v else JsMap.get y m.
Proof.
  destruct (String.eqb_spec y x) as [->|Hne].
  - apply JsMapFacts.get_set_same.
  - now apply JsMapFacts.get_set_other.
Qed.

Lemma keys_set {V} (x : string) (v : V) m :
  JsMap.keys (JsMap.set x v m) = JsMap.keys m \/
  (~ In x (JsMap.keys m) /\ JsMap.keys (JsMap.set x v m) = app (JsMap.keys m) [x]).
Proof.
  destruct (in_dec string_dec x (JsMap.keys m)) as [Hin|Hin].
  - left. induction m as [|[k w] m IH]; simpl in *; [contradiction|].
    destruct (String.eqb_spec x k); simpl; [congruence|].
    destruct Hin as [->|Hin]; [contradiction|]. now rewrite IH.
  - right. split; auto. rewrite JsMapFacts.set_absent by auto.
    unfold JsMap.keys. now rewrite map_app.
Qed.

Lemma set_nodup {V} (x : string) (v : V) m :
  NoDup (JsMap.keys m) -> NoDup (JsMap.keys (JsMap.set x v m)).
Proof.
  intros H. destruct (keys_set x v m) as [->|[Hn ->]]; auto.
  apply NoDup_app; auto.
  - constructor; [intros []|constructor].
  - intros z Hz [<-|[]]; contradiction.
Qed.

Lemma get_some_key {V} (y : string) (m : list (string * V)) :
  JsMap.get y m <> None -> In y (JsMap.keys m).
Proof.
  intros H. destruct (in_dec string_dec y (JsMap.keys m)); auto.
  apply JsMapFacts.get_none_iff in n. contradiction.
Qed.

Lemma col0_get g y :
  JsMap.get y (col0 g) = if in_dec string_dec y (JsMap.keys g) then Some WHITE else None.
Proof.
  unfold col0.
  assert (H : forall l acc, JsMap.get y (fold_left (fun c name => JsMap.set name WHITE c) l acc)
             = if in_dec string_dec y l then Some WHITE else JsMap.get y acc).
  { induction l as [|n l IH]; intros acc; simpl; [reflexivity|].
    rewrite IH, get_set.
    destruct (in_dec string_dec y l), (String.eqb_spec y n), (string_dec n y);
      subst; tauto || reflexivity || (exfalso; tauto). }
  rewrite H. destruct (in_dec string_dec y (JsMap.keys g)); reflexivity.
Qed.

Lemma col0_nodup g : NoDup (JsMap.keys (col0 g)).
Proof.
  unfold col0.
  assert (H : forall l acc, NoDup (JsMap.keys acc) ->
             NoDup (JsMap.keys (fold_left (fun c name => JsMap.set name WHITE c) l acc))).
  { induction l as [|n l IH]; intros acc Hacc; simpl; auto. apply IH, set_nodup, Hacc. }
  apply H. constructor.
Qed.


(** *** Walks *)

Lemma deps_in_edges g x d : In d (deps_of g x) -> In d (flat_map snd g).
Proof.
  unfold deps_of. destruct (JsMap.get x g) as [ds|] eqn:E; [|intros []].
  intros H. apply JsMapFacts.get_some_in in E. apply in_flat_map. exists (x, ds); auto.
Qed.

Lemma walk_app_l g l1 l2 : walk g (app l1 l2) -> walk g l1.
Proof.
  induction l1 as [|x l1 IH]; [simpl; auto|]. intros H.
  destruct l1 as [|y l1]; [exact I|]. simpl in H |- *. destruct H as [H Hw].
  split; [exact H | apply IH; exact Hw].
Qed.

Lemma walk_app_r g l1 l2 : walk g (app l1 l2) -> walk g l2.
Proof.
  induction l1 as [|x l1 IH]; simpl; [auto|].
  intros H; apply IH. destruct (app l1 l2) as [|y l]; [exact I|]. destruct l; tauto.
Qed.

Lemma walk_snoc g l x d :
  walk g (app l [x]) -> In d (deps_of g x) -> walk g (app l [x; d]).
Proof.
  induction l as [|y l IH]; simpl; [tauto|].
  destruct l as [|z l]; simpl in *; intuition.
Qed.

Lemma indexOf_in (d : string) (p : list string) :
  In d p -> exists pre post, p = app pre (d :: post) /\ ~ In d pre /\
                             indexOf d p = Z.of_nat (length pre).
Proof.
  induction p as [|y p IH]; simpl; [intros []|].
  destruct (String.eqb_spec d y) as [->|Hne].
  - intros _. exists [], p. simpl. auto.
  - intros [->|Hin]; [contradiction|].
    destruct (IH Hin) as (pre & post & -> & Hni & Hi). rewrite Hi.
    exists (y :: pre), post. split; [reflexivity|]. split.
    + simpl. intros [->|H]; [apply Hne; reflexivity | contradiction].
    + simpl length. destruct (length pre); simpl; [reflexivity|]. lia.
Qed.

Lemma report_cycle g (p : list string) (x d : string) :
  NoDup (app p [x]) -> walk g (app p [x]) -> In d (deps_of g x) -> In d (app p [x]) ->
  exists pre post, app p [x] = app pre (d :: post) /\
    report (app p [x]) d = app (d :: post) [d] /\ simple_cycle g (d :: post).
Proof.
  intros Hnd Hw Hdx Hin.
  destruct (indexOf_in d _ Hin) as (pre & post & Hp & Hni & Hi).
  exists pre, post. split; [exact Hp|]. split.
  - unfold report. rewrite Hi. unfold slice_from.
    replace (Z.of_nat (length pre) <? 0)%Z with false by (symmetry; apply Z.ltb_ge; lia).
    rewrite Nat2Z.id, Hp. clear. induction pre as [|z pre IH]; simpl; auto.
  - split.
    + rewrite Hp in Hnd. eapply NoDup_app_remove_l; eauto.
    + exists d, post. split; [reflexivity|].
      assert (Hw' : walk g (d :: post)) by (rewrite Hp in Hw; eapply walk_app_r; eauto).
      destruct (exists_last (l := d :: post) ltac:(discriminate)) as (l' & z & Hl).
      assert (Hz : z = x).
      { assert (E : app p [x] = app (app pre l') [z]) by (rewrite Hp, Hl, app_assoc; reflexivity).
        apply app_inj_tail in E. symmetry; apply E. }
      subst z. rewrite Hl in Hw' |- *. rewrite <- app_assoc. simpl. apply walk_snoc; auto.
Qed.

Lemma apath_cons (x : string) ds rest : apath ((x, ds) :: rest) = app (apath rest) [x].
Proof. reflexivity. Qed.

Lemma in_apath y stk : In y (apath stk) <-> In y (map fst stk).
Proof. unfold apath. split; [apply in_rev | apply in_rev]. Qed.

(** *** The invariant *)

Section Invariant.
Variable g : list (string * list string).
Variable ap : bool.

Lemma inv_init : Inv g ap (mkA (col0 g) [] []).
Proof.
  constructor; simpl.
  - constructor.
  - intros y. rewrite col0_get. destruct (in_dec _ _ _); split; (discriminate || tauto).
  - tauto.
  - exact I.
  - intros y Hy. rewrite col0_get. destruct (in_dec _ _ _); [discriminate | contradiction].
  - intros y Hy. rewrite col0_get in Hy. destruct (in_dec _ _ _); [auto | contradiction].
  - apply col0_nodup.
  - tauto.
Qed.

Lemma suffix_top s x d ds rest :
  Inv g ap s -> ast s = (x, d :: ds) :: rest -> In d (deps_of g x).
Proof.
  intros Hi E. destruct (inv_suffix _ _ _ Hi x (d :: ds)) as [pre Hpre].
  - rewrite E; left; reflexivity.
  - rewrite Hpre. apply in_or_app. right; left; reflexivity.
Qed.

Lemma suffix_step s x d ds rest :
  Inv g ap s -> ast s = (x, d :: ds) :: rest ->
  forall x' ds', In (x', ds') ((x, ds) :: rest) -> exists pre, deps_of g x' = app pre ds'.
Proof.
  intros Hi E x' ds' [H|H].
  - injection H as H1 H2; subst x' ds'. destruct (inv_suffix _ _ _ Hi x (d :: ds)) as [pre Hpre].
    + rewrite E; left; reflexivity.
    + exists (app pre [d]). rewrite Hpre, <- app_assoc. reflexivity.
  - apply (inv_suffix _ _ _ Hi). rewrite E; right; exact H.
Qed.

Lemma inv_move s s' : Inv g ap s -> move g ap s s' -> Inv g ap s'.
Proof.
  intros Hi Hm.
  assert (Htop := suffix_top s). assert (Hstep := suffix_step s).
  pose proof Hi as Hi0.
  destruct Hi as [Hnd Hgr Hsuf Hw Hk Hcol Hcnd Hcy].
  inversion Hm; subst; simpl in *.
  - (* MSkip *)
    constructor; simpl; auto; first [exact Hw | intros ? ? Hin'; eapply Hstep; [exact Hi0 | reflexivity | exact Hin']].
  - (* MBlack *)
    constructor; simpl; auto; first [exact Hw | intros ? ? Hin'; eapply Hstep; [exact Hi0 | reflexivity | exact Hin']].
  - (* MGray *)
    constructor; simpl; auto; try first [exact Hw | intros ? ? Hin'; eapply Hstep; [exact Hi0 | reflexivity | exact Hin']].
    intros cy' Hin. apply in_app_or in Hin. destruct Hin as [Hin|[<-|[]]]; [auto|].
    destruct (report_cycle g (apath rest) x d) as (pre & post & _ & Hrep & Hsc).
    + change (NoDup (apath ((x, d :: ds) :: rest))). unfold apath. apply NoDup_rev. exact Hnd.
    + exact Hw.
    + eapply Htop; [exact Hi0 | reflexivity].
    + change (In d (apath ((x, d :: ds) :: rest))). apply in_apath. apply Hgr. assumption.
    + exists d, post. split; [exact Hsc | exact Hrep].
  - (* MPush *)
    assert (Hdn : ~ In d (x :: map fst rest)) by (intros Hin; apply Hgr in Hin; congruence).
    constructor; simpl.
    + constructor; auto.
    + intros y. rewrite get_set. destruct (String.eqb_spec y d) as [->|Hne].
      * tauto.
      * rewrite Hgr. simpl. intuition congruence.
    + intros x' ds' [H'|H'].
      * inversion H'; subst. exists []; reflexivity.
      * eapply Hstep; [exact Hi0 | reflexivity | exact H'].
    + change (walk g (app (app (apath rest) [x]) [d])). rewrite <- app_assoc.
      apply walk_snoc; [exact Hw | eapply Htop; [exact Hi0 | reflexivity]].
    + intros y Hy. rewrite get_set. destruct (String.eqb y d); [discriminate | auto].
    + intros y. rewrite get_set. destruct (String.eqb_spec y d) as [->|Hne]; intros Hy.
      * apply Hcol. congruence.
      * auto.
    + apply set_nodup; auto.
    + auto.
  - (* MPushNew *)
    assert (Hdn : ~ In d (x :: map fst rest)) by (intros Hin; apply Hgr in Hin; congruence).
    constructor; simpl.
    + constructor; auto.
    + intros y. rewrite !get_set. destruct (String.eqb_spec y d) as [->|Hne].
      * tauto.
      * rewrite Hgr. simpl. intuition congruence.
    + intros x' ds' [H'|H'].
      * inversion H'; subst. exists []; reflexivity.
      * eapply Hstep; [exact Hi0 | reflexivity | exact H'].
    + change (walk g (app (app (apath rest) [x]) [d])). rewrite <- app_assoc.
      apply walk_snoc; [exact Hw | eapply Htop; [exact Hi0 | reflexivity]].
    + intros y Hy. rewrite !get_set. destruct (String.eqb y d); [discriminate | auto].
    + intros y. rewrite !get_set. destruct (String.eqb_spec y d) as [->|Hne]; intros Hy.
      * right. split; auto. eapply deps_in_edges. eapply Htop; [exact Hi0 | reflexivity].
      * auto.
    + apply set_nodup, set_nodup; auto.
    + auto.
  - (* MPop *)
    inversion Hnd as [|? ? Hxn Hnd']; subst.
    constructor; simpl; auto.
    + intros y. rewrite get_set. destruct (String.eqb_spec y x) as [->|Hne].
      * split; [discriminate | contradiction].
      * rewrite Hgr. simpl. intuition congruence.
    + unfold apath in Hw. simpl in Hw. eapply walk_app_l; eauto.
    + intros y Hy. rewrite get_set. destruct (String.eqb y x); [discriminate | auto].
    + intros y. rewrite get_set. destruct (String.eqb_spec y x) as [->|Hne]; intros Hy.
      * apply Hcol. rewrite (proj2 (Hgr x)); [discriminate | left; reflexivity].
      * auto.
    + apply set_nodup; auto.
  - (* MStart *)
    constructor; simpl.
    + constructor; [intros []|constructor].
    + intros y. rewrite get_set. destruct (String.eqb_spec y x) as [->|Hne].
      * tauto.
      * rewrite Hgr. simpl. intuition congruence.
    + intros x' ds' [H'|[]]. inversion H'; subst. exists []; reflexivity.
    + exact I.
    + intros y Hy. rewrite get_set. destruct (String.eqb y x); [discriminate | auto].
    + intros y. rewrite get_set. destruct (String.eqb_spec y x) as [->|Hne]; intros Hy.
      * apply Hcol. congruence.
      * auto.
    + apply set_nodup; auto.
    + auto.
Qed.

Lemma inv_reach s : reach g ap s -> Inv g ap s.
Proof. induction 1; [apply inv_init | eapply inv_move; eauto]. Qed.

End Invariant.

(** *** One two-name cycle *)

Definition cnt (s : AState) (c : list string) : nat :=
  count_occ (list_eq_dec string_dec) (acy s) c.

(** The references of [v] to [u] not yet examined. *)
Definition rem (g : list (string * list string)) (s : AState) (v u : string) : nat :=
  match JsMap.get v (ac s) with
  | Some GRAY => match JsMap.get v (ast s) with
                 | Some ds => count_occ string_dec ds u
                 | None => 0
                 end
  | Some BLACK => 0
  | _ => count_occ string_dec (deps_of g v) u
  end.

(** [v] is nearer the top of the stack than [u]. *)
Definition above (l : list string) (v u : string) : Prop :=
  exists i j, i < j /\ nth_error l i = Some v /\ nth_error l j = Some u.

Definition white_both (s : AState) (u v : string) : Prop :=
  JsMap.get u (ac s) = Some WHITE /\ JsMap.get v (ac s) = Some WHITE.

(** [u] is on the stack with its reference to [v] still to examine, [v] is white. *)
Definition half_open (s : AState) (u v : string) : Prop :=
  JsMap.get u (ac s) = Some GRAY /\ JsMap.get v (ac s) = Some WHITE /\
  exists ds, JsMap.get u (ast s) = Some ds /\ In v ds.

(** [v] is on the stack above [u], with its reference to [u] still to examine. *)
Definition nested (s : AState) (u v : string) : Prop :=
  JsMap.get u (ac s) = Some GRAY /\ JsMap.get v (ac s) = Some GRAY /\
  above (map fst (ast s)) v u /\
  exists ds, JsMap.get v (ast s) = Some ds /\ In u ds.

Lemma above_cons l v u y : above l v u -> above (y :: l) v u.
Proof. intros (i & j & H & Hi & Hj). exists (S i), (S j). simpl. auto with arith. Qed.

Lemma above_tail l v u y : above (y :: l) v u -> y <> v -> above l v u.
Proof.
  intros (i & j & H & Hi & Hj) Hne. destruct i as [|i]; [simpl in Hi; congruence|].
  destruct j as [|j]; [lia|]. exists i, j. simpl in *. split; [lia | auto].
Qed.

Lemma above_top l v u : NoDup (u :: l) -> ~ above (u :: l) v u.
Proof.
  intros Hnd (i & j & H & Hi & Hj).
  assert (j = 0).
  { apply (proj1 (NoDup_nth_error _) Hnd j 0).
    - apply nth_error_Some. congruence.
    - rewrite Hj. reflexivity. }
  lia.
Qed.

Lemma count_cons_le (ds : list string) d u :
  count_occ string_dec ds u <= count_occ string_dec (d :: ds) u.
Proof. simpl. destruct (string_dec d u); lia. Qed.

Lemma cnt_app s c cy' :
  cnt (mkA (ac s) (ast s) (app (acy s) cy')) c
  = cnt s c + count_occ (list_eq_dec string_dec) cy' c.
Proof. unfold cnt. simpl. apply count_occ_app. Qed.

Lemma get_top_same {V} (x : string) (w : V) rest : JsMap.get x ((x, w) :: rest) = Some w.
Proof. simpl. now rewrite String.eqb_refl. Qed.

Lemma get_top_other {V} (x y : string) (w : V) rest :
  y <> x -> JsMap.get y ((x, w) :: rest) = JsMap.get y rest.
Proof. intros H. simpl. destruct (String.eqb_spec y x); [contradiction | reflexivity]. Qed.

Lemma get_set_ne {V} (x y : string) (w : V) m :
  y <> x -> JsMap.get y (JsMap.set x w m) = JsMap.get y m.
Proof. apply JsMapFacts.get_set_other. Qed.

(** Once [u; v; u] is reported, [v] is done or still above [u]. *)
Definition closed_after (s : AState) (u v : string) : Prop :=
  cnt s [u; v; u] >= 1 -> JsMap.get v (ac s) = Some BLACK \/ above (map fst (ast s)) v u.

Lemma cnt_step g ap s s' : move g ap s s' ->
  (forall c, cnt s' c = cnt s c) \/
  exists r, (forall c, cnt s' c = cnt s c + (if list_eq_dec string_dec r c then 1 else 0)) /\ In r (acy s').
Proof.
  intros Hm. inversion Hm; subst; cbn [acy]; try (left; reflexivity).
  right. exists (report (apath ((x, d :: ds) :: rest)) d). split.
  - intros c'. unfold cnt. cbn [acy]. rewrite count_occ_app. simpl. lia.
  - apply in_or_app. right. left. reflexivity.
Qed.

Section Pair.
Variable g : list (string * list string).
Variable ap : bool.
Variables u v : string.
Hypothesis Huv : u <> v.
Hypothesis Hedge_uv : In v (deps_of g u).
Hypothesis Hedge_vu : In u (deps_of g v).
Hypothesis Honly : forall c, simple_cycle g c -> c = [u; v] \/ c = [v; u].

Lemma deps_key x y : In y (deps_of g x) -> In x (JsMap.keys g).
Proof.
  unfold deps_of. destruct (JsMap.get x g) eqn:E; [|intros []].
  intros _. apply get_some_key. congruence.
Qed.

Lemma u_colored s : Inv g ap s -> JsMap.get u (ac s) <> None.
Proof. intros Hi. apply (inv_keys _ _ _ Hi). eapply deps_key; eauto. Qed.

Lemma v_colored s : Inv g ap s -> JsMap.get v (ac s) <> None.
Proof. intros Hi. apply (inv_keys _ _ _ Hi). eapply deps_key; eauto. Qed.

(** A reported cycle of this graph is [u; v; u] or [v; u; v]. *)
Lemma reported_pair s : Inv g ap s ->
  forall cy, In cy (acy s) -> cy = [u; v; u] \/ cy = [v; u; v].
Proof.
  intros Hi cy Hin. destruct (inv_cycles _ _ _ Hi cy Hin) as (x & r & Hsc & ->).
  destruct (Honly _ Hsc) as [E|E]; inversion E; subst; simpl; auto.
Qed.

(** Reporting [u; v; u] happens when [v] is on top, right above [u], and
    examines its reference to [u]. *)
Lemma report_shape c x d ds rest cy :
  Inv g ap (mkA c ((x, d :: ds) :: rest) cy) -> JsMap.get d c = Some GRAY ->
  report (apath ((x, d :: ds) :: rest)) d = [u; v; u] ->
  d = u /\ x = v /\ exists rest', map fst rest = u :: rest'.
Proof.
  intros Hi Hd Hr.
  destruct (report_cycle g (apath rest) x d) as (pre & post & Hp & Hrep & _).
  - change (NoDup (apath ((x, d :: ds) :: rest))). unfold apath. apply NoDup_rev.
    exact (inv_nodup _ _ _ Hi).
  - exact (inv_walk _ _ _ Hi).
  - eapply suffix_top; [exact Hi | reflexivity].
  - change (In d (apath ((x, d :: ds) :: rest))). apply in_apath.
    apply (inv_gray _ _ _ Hi). exact Hd.
  - change (report (app (apath rest) [x]) d = [u; v; u]) in Hr. rewrite Hrep in Hr.
    destruct post as [|p1 [|p2 post]]; simpl in Hr; inversion Hr; subst.
    + split; auto.
      assert (E : app (apath rest) [x] = app (app pre [u]) [v]) by (rewrite Hp, <- app_assoc; reflexivity).
      apply app_inj_tail in E. destruct E as [E ->]. split; [reflexivity|].
      exists (rev pre). unfold apath in E.
      rewrite <- (rev_involutive (map fst rest)), E, rev_app_distr. reflexivity.
    + destruct post; discriminate.
Qed.

Lemma black_persist s s' y :
  Inv g ap s -> move g ap s s' -> JsMap.get y (ac s) = Some BLACK -> JsMap.get y (ac s') = Some BLACK.
Proof.
  intros Hi Hm Hy. inversion Hm; subst; simpl in *; try exact Hy.
  all: rewrite ?get_set;
    repeat match goal with |- context [String.eqb ?p ?q] => destruct (String.eqb_spec p q) end;
    congruence.
Qed.

Lemma cnt_move s s' c :
  move g ap s s' ->
  cnt s' c = cnt s c \/
  exists x d ds rest, ast s = (x, d :: ds) :: rest /\ JsMap.get d (ac s) = Some GRAY /\
    acy s' = app (acy s) [report (apath (ast s)) d] /\ ast s' = (x, ds) :: rest /\ ac s' = ac s.
Proof.
  intros Hm. inversion Hm; subst; simpl; auto.
  right. do 4 eexists. repeat split; eauto.
Qed.

Lemma cnt_mono s s' c : move g ap s s' -> cnt s c <= cnt s' c.
Proof.
  intros Hm. destruct (cnt_move s s' c Hm) as [->|(x & d & ds & rest & _ & _ & E & _)]; [lia|].
  unfold cnt. rewrite E, count_occ_app. lia.
Qed.

(** A reference is examined once: the count of [u; v; u] and the
    references of [v] to [u] left never grow together. *)
Lemma rem_move s s' :
  Inv g ap s -> move g ap s s' ->
  cnt s' [u; v; u] + rem g s' v u <= cnt s [u; v; u] + rem g s v u.
Proof.
  intros Hi Hm. pose proof Hi as Hi0.
  destruct Hi as [Hnd Hgr Hsuf Hw Hk Hcol Hcnd Hcy].
  inversion Hm; subst; simpl in *; unfold cnt, rem; simpl.
  - destruct (JsMap.get v c) as [[| |]|]; try lia.
    destruct (String.eqb v x); [apply Nat.add_le_mono_l, count_cons_le | lia].
  - destruct (JsMap.get v c) as [[| |]|]; try lia.
    destruct (String.eqb v x); [apply Nat.add_le_mono_l, count_cons_le | lia].
  - rewrite count_occ_app. simpl.
    destruct (list_eq_dec string_dec (report (apath ((x, d :: ds) :: rest)) d) [u; v; u]) as [Er|Er].
    + destruct (report_shape c x d ds rest cy Hi0 H Er) as (-> & -> & _).
      assert (Hv : JsMap.get v c = Some GRAY) by (apply Hgr; left; reflexivity).
      rewrite Hv, String.eqb_refl. simpl. destruct (string_dec u u); [lia | congruence].
    + destruct (JsMap.get v c) as [[| |]|]; try lia.
      destruct (String.eqb v x); [|lia].
      pose proof (count_cons_le ds d u). lia.
  - rewrite get_set. destruct (String.eqb_spec v d) as [->|Hne].
    + rewrite H. simpl. lia.
    + destruct (JsMap.get v c) as [[| |]|]; try lia.
      destruct (String.eqb_spec v x); [|lia].
      pose proof (count_cons_le ds d u). lia.
  - rewrite !get_set. destruct (String.eqb_spec v d) as [->|Hne].
    + rewrite H. simpl. lia.
    + destruct (JsMap.get v c) as [[| |]|]; try lia.
      destruct (String.eqb_spec v x); [|lia].
      pose proof (count_cons_le ds d u). lia.
  - rewrite get_set. destruct (String.eqb_spec v x) as [->|Hne]; [lia|].
    destruct (JsMap.get v c) as [[| |]|]; try lia; try (destruct (String.eqb_spec v x); [congruence | lia]).
  - rewrite get_set. destruct (String.eqb_spec v x) as [->|Hne].
    + rewrite H. simpl. lia.
    + destruct (JsMap.get v c) as [[| |]|]; try lia; try (destruct (String.eqb_spec v x); [congruence | lia]).
Qed.

Lemma above_move s s' :
  Inv g ap s -> move g ap s s' -> above (map fst (ast s)) v u ->
  JsMap.get v (ac s') = Some BLACK \/ above (map fst (ast s')) v u.
Proof.
  intros Hi Hm Ha. inversion Hm; subst; cbn [ac ast] in *; auto.
  - right. apply above_cons. exact Ha.
  - right. apply above_cons. exact Ha.
  - destruct (string_dec x v) as [->|Hne].
    + left. apply JsMapFacts.get_set_same.
    + right. eapply above_tail; eauto.
  - destruct Ha as (i & j & _ & Hi' & _). destruct i; discriminate.
Qed.

Lemma closed_move s s' : Inv g ap s -> move g ap s s' -> closed_after s u v -> closed_after s' u v.
Proof.
  intros Hi Hm Hc Hc'.
  destruct (le_lt_dec 1 (cnt s [u; v; u])) as [Hge|Hlt].
  - destruct (Hc Hge) as [Hb|Ha].
    + left. eapply black_persist; eauto.
    + eapply above_move; eauto.
  - destruct (cnt_move s s' [u; v; u] Hm) as [E|(x & d & ds & rest & Hst & Hd & Hacy & Hast & Hac)];
      [lia|].
    assert (Er : report (apath (ast s)) d = [u; v; u]).
    { unfold cnt in Hc', Hlt. rewrite Hacy, count_occ_app in Hc'. simpl in Hc'.
      destruct (list_eq_dec string_dec (report (apath (ast s)) d) [u; v; u]); [assumption | lia]. }
    destruct s as [c stk cy]. cbn [ac ast acy] in *. subst stk.
    destruct (report_shape c x d ds rest cy Hi Hd Er) as (-> & -> & rest' & Hr).
    right. rewrite Hast. simpl. rewrite Hr. exists 0, 1. simpl. auto.
Qed.

Lemma excl_step s s' :
  Inv g ap s -> move g ap s s' -> closed_after s v u ->
  cnt s [u; v; u] = 0 -> cnt s' [u; v; u] >= 1 -> cnt s [v; u; v] = 0.
Proof.
  intros Hi Hm Hc H0 H1.
  destruct (cnt_move s s' [u; v; u] Hm) as [E|(x & d & ds & rest & Hst & Hd & Hacy & Hast & Hac)];
    [lia|].
  assert (Er : report (apath (ast s)) d = [u; v; u]).
  { unfold cnt in H0, H1. rewrite Hacy, count_occ_app in H1. simpl in H1.
    destruct (list_eq_dec string_dec (report (apath (ast s)) d) [u; v; u]); [assumption | lia]. }
  destruct s as [c stk cy]. cbn [ac ast acy] in *. subst stk.
  destruct (report_shape c x d ds rest cy Hi Hd Er) as (-> & -> & rest' & Hr).
  destruct (Nat.eq_dec (cnt (mkA c ((v, u :: ds) :: rest) cy) [v; u; v]) 0) as [Z|NZ]; [exact Z|].
  exfalso. destruct (Hc ltac:(lia)) as [Hb|Ha]; cbn [ac ast] in *; [congruence|].
  apply (above_top (map fst rest) u v); [exact (inv_nodup _ _ _ Hi) | exact Ha].
Qed.

Lemma white_move s s' :
  Inv g ap s -> move g ap s s' -> white_both s u v ->
  white_both s' u v \/ half_open s' u v \/ half_open s' v u.
Proof.
  intros Hi Hm [Hu Hv]. pose proof (inv_gray _ _ _ Hi) as Hgr.
  unfold white_both, half_open.
  inversion Hm; subst; cbn [ac ast] in *; try (left; split; assumption).
  - destruct (string_dec d u) as [->|Hdu]; [|destruct (string_dec d v) as [->|Hdv]].
    + right; left. split; [apply JsMapFacts.get_set_same|]. split.
      * rewrite get_set_ne; auto.
      * exists (deps_of g u). split; [apply get_top_same | exact Hedge_uv].
    + right; right. split; [apply JsMapFacts.get_set_same|]. split.
      * rewrite get_set_ne; auto.
      * exists (deps_of g v). split; [apply get_top_same | exact Hedge_vu].
    + left. split; rewrite get_set_ne; auto.
  - assert (d <> u) by congruence. assert (d <> v) by congruence.
    left. split; rewrite !get_set_ne; auto.
  - assert (Hx : JsMap.get x c = Some GRAY) by (apply Hgr; left; reflexivity).
    left. split; rewrite get_set_ne; auto; congruence.
  - destruct (string_dec x u) as [->|Hxu]; [|destruct (string_dec x v) as [->|Hxv]].
    + right; left. split; [apply JsMapFacts.get_set_same|]. split.
      * rewrite get_set_ne; auto.
      * exists (deps_of g u). split; [apply get_top_same | exact Hedge_uv].
    + right; right. split; [apply JsMapFacts.get_set_same|]. split.
      * rewrite get_set_ne; auto.
      * exists (deps_of g v). split; [apply get_top_same | exact Hedge_vu].
    + left. split; rewrite get_set_ne; auto.
Qed.

Lemma half_move s s' :
  Inv g ap s -> move g ap s s' -> half_open s u v -> half_open s' u v \/ nested s' u v.
Proof.
  intros Hi Hm (Hu & Hv & dsu & Hget & Hin). pose proof (inv_gray _ _ _ Hi) as Hgr.
  unfold half_open, nested.
  (* the frame of [u] after its top frame lost its head [d], [d <> v] *)
  assert (Htop : forall x d ds rest, ast s = (x, d :: ds) :: rest -> d <> v ->
            exists ds0, JsMap.get u ((x, ds) :: rest) = Some ds0 /\ In v ds0).
  { intros x d ds rest E Hdv. rewrite E in Hget.
    destruct (string_dec u x) as [<-|Hne].
    - rewrite get_top_same in Hget |- *. injection Hget as <-.
      exists ds. split; [reflexivity|]. destruct Hin as [->|Hin]; [congruence | exact Hin].
    - rewrite get_top_other in Hget |- * by exact Hne. eauto. }
  inversion Hm; subst; cbn [ac ast] in *.
  - left. repeat split; auto. eapply Htop; [reflexivity | congruence].
  - left. repeat split; auto. eapply Htop; [reflexivity | congruence].
  - left. repeat split; auto. eapply Htop; [reflexivity | congruence].
  - destruct (string_dec d v) as [->|Hdv].
    + right. split; [rewrite get_set_ne; auto|]. split; [apply JsMapFacts.get_set_same|].
      split.
      * assert (Hu' : In u (x :: map fst rest)) by (apply Hgr; exact Hu).
        destruct (In_nth_error _ _ Hu') as [j Hj].
        exists 0, (S j). simpl. split; [lia|]. auto.
      * exists (deps_of g v). split; [apply get_top_same | exact Hedge_vu].
    + assert (Hdu : d <> u) by congruence.
      left. split; [rewrite get_set_ne; auto|]. split; [rewrite get_set_ne; auto|].
      rewrite get_top_other by auto. eapply Htop; [reflexivity | exact Hdv].
  - assert (Hdu : d <> u) by congruence. assert (Hdv : d <> v) by congruence.
    left. split; [rewrite !get_set_ne; auto|]. split; [rewrite !get_set_ne; auto|].
    rewrite get_top_other by auto. eapply Htop; [reflexivity | exact Hdv].
  - assert (Hx : JsMap.get x c = Some GRAY) by (apply Hgr; left; reflexivity).
    assert (Hxv : x <> v) by congruence.
    assert (Hxu : x <> u).
    { intros ->. rewrite get_top_same in Hget. injection Hget as <-. destruct Hin. }
    left. split; [rewrite get_set_ne; auto|]. split; [rewrite get_set_ne; auto|].
    rewrite get_top_other in Hget by auto. eauto.
  - exfalso. apply (proj1 (Hgr u)). exact Hu.
Qed.

Lemma nested_move s s' :
  Inv g ap s -> move g ap s s' -> nested s u v -> nested s' u v \/ cnt s' [u; v; u] >= 1.
Proof.
  intros Hi Hm (Hu & Hv & Ha & dsv & Hget & Hin). pose proof (inv_gray _ _ _ Hi) as Hgr.
  assert (Hi' : Inv g ap s') by (eapply inv_move; eauto).
  unfold nested.
  assert (Htop : forall x d ds rest, ast s = (x, d :: ds) :: rest -> (v = x -> d <> u) ->
            exists ds0, JsMap.get v ((x, ds) :: rest) = Some ds0 /\ In u ds0).
  { intros x d ds rest E Hdu. rewrite E in Hget.
    destruct (string_dec v x) as [<-|Hne].
    - rewrite get_top_same in Hget |- *. injection Hget as <-.
      exists ds. split; [reflexivity|].
      destruct Hin as [->|Hin]; [exfalso; apply Hdu; reflexivity | exact Hin].
    - rewrite get_top_other in Hget |- * by exact Hne. eauto. }
  inversion Hm; subst; cbn [ac ast acy] in *.
  - left. repeat split; auto. eapply Htop; [reflexivity | intros _ ->; congruence].
  - left. repeat split; auto. eapply Htop; [reflexivity | intros _ ->; congruence].
  - destruct (string_dec v x) as [<-|Hvx]; [destruct (string_dec d u) as [->|Hdu]|].
    + right. unfold cnt. cbn [acy]. rewrite count_occ_app.
      assert (Hr : In (report (apath ((v, u :: ds) :: rest)) u)
                      (app cy [report (apath ((v, u :: ds) :: rest)) u]))
        by (apply in_or_app; right; left; reflexivity).
      destruct (reported_pair _ Hi' _ Hr) as [E|E].
      * rewrite E. cbn [count_occ]. destruct (list_eq_dec string_dec [u; v; u] [u; v; u]); [lia | congruence].
      * exfalso. unfold report in E.
        assert (E' : app (slice_from (indexOf u (apath ((v, u :: ds) :: rest)))
                                     (apath ((v, u :: ds) :: rest))) [u] = app [v; u] [v])
          by exact E.
        apply app_inj_tail in E'. destruct E' as [_ E']. congruence.
    + left. repeat split; auto. eapply Htop; [reflexivity | intros _; exact Hdu].
    + left. repeat split; auto. eapply Htop; [reflexivity | intros E; contradiction].
  - assert (Hdu : d <> u) by congruence. assert (Hdv : d <> v) by congruence.
    left. split; [rewrite get_set_ne; auto|]. split; [rewrite get_set_ne; auto|].
    split; [apply above_cons; exact Ha|].
    rewrite get_top_other by auto. eapply Htop; [reflexivity | intros _; exact Hdu].
  - assert (Hdu : d <> u) by congruence. assert (Hdv : d <> v) by congruence.
    left. split; [rewrite !get_set_ne; auto|]. split; [rewrite !get_set_ne; auto|].
    split; [apply above_cons; exact Ha|].
    rewrite get_top_other by auto. eapply Htop; [reflexivity | intros _; exact Hdu].
  - assert (Hxv : x <> v).
    { intros ->. rewrite get_top_same in Hget. injection Hget as <-. destruct Hin. }
    assert (Hxu : x <> u).
    { intros ->. apply (above_top (map fst rest) v u); [exact (inv_nodup _ _ _ Hi) | exact Ha]. }
    left. split; [rewrite get_set_ne; auto|]. split; [rewrite get_set_ne; auto|].
    split; [eapply above_tail; eauto|].
    rewrite get_top_other in Hget by auto. eauto.
  - exfalso. apply (proj1 (Hgr u)). exact Hu.
Qed.

End Pair.

Lemma count_two {A} (dec : forall x y : A, {x = y} + {x <> y}) (l : list A) p q :
  p <> q -> (forall x, In x l -> x = p \/ x = q) ->
  count_occ dec l p + count_occ dec l q = 1 -> l = [p] \/ l = [q].
Proof.
  intros Hpq Hall Hc.
  assert (Hnil : forall l', (forall x, In x l' -> x = p \/ x = q) ->
            count_occ dec l' p + count_occ dec l' q = 0 -> l' = []).
  { intros [|y l'] Hl' H0; [reflexivity|exfalso].
    destruct (Hl' y (or_introl eq_refl)) as [->| ->]; simpl in H0;
      destruct (dec p p); destruct (dec q p); destruct (dec p q); destruct (dec q q);
      try congruence; lia. }
  destruct l as [|x l]; [simpl in Hc; lia|].
  assert (Hl : forall y, In y l -> y = p \/ y = q) by (intros y Hy; apply Hall; right; exact Hy).
  destruct (Hall x (or_introl eq_refl)) as [->| ->]; simpl in Hc.
  - left. destruct (dec p p); [|congruence]. destruct (dec p q); [congruence|].
    rewrite (Hnil l Hl) by lia. reflexivity.
  - right. destruct (dec q p); [congruence|]. destruct (dec q q); [|congruence].
    rewrite (Hnil l Hl) by lia. reflexivity.
Qed.

Section TwoCycle.
Variable g : list (string * list string).
Variable ap : bool.
Variables a b : string.
Hypothesis Hab : a <> b.
Hypothesis Hedge_ab : In b (deps_of g a).
Hypothesis Hedge_ba : In a (deps_of g b).
Hypothesis Honly : forall c, simple_cycle g c -> c = [a; b] \/ c = [b; a].
Hypothesis Hcount_ab : count_occ string_dec (deps_of g a) b = 1.
Hypothesis Hcount_ba : count_occ string_dec (deps_of g b) a = 1.

Let Hba : b <> a.
Proof. congruence. Qed.

Let Honly' : forall c, simple_cycle g c -> c = [b; a] \/ c = [a; b].
Proof. intros c Hc. destruct (Honly c Hc); auto. Qed.

Record J (s : AState) : Prop := {
  j_rem_ab : cnt s [a; b; a] + rem g s b a <= 1;
  j_rem_ba : cnt s [b; a; b] + rem g s a b <= 1;
  j_closed_ab : closed_after s a b;
  j_closed_ba : closed_after s b a;
  j_excl : cnt s [a; b; a] + cnt s [b; a; b] <= 1;
  j_exist : cnt s [a; b; a] >= 1 \/ cnt s [b; a; b] >= 1 \/ white_both s a b \/
            half_open s a b \/ half_open s b a \/ nested s a b \/ nested s b a
}.

Lemma j_init : J (mkA (col0 g) [] []).
Proof.
  assert (Ka : In a (JsMap.keys g)) by (eapply deps_key; eauto).
  assert (Kb : In b (JsMap.keys g)) by (eapply deps_key; eauto).
  assert (Ca : JsMap.get a (col0 g) = Some WHITE)
    by (rewrite col0_get; destruct (in_dec string_dec a (JsMap.keys g)); tauto).
  assert (Cb : JsMap.get b (col0 g) = Some WHITE)
    by (rewrite col0_get; destruct (in_dec string_dec b (JsMap.keys g)); tauto).
  constructor; unfold rem, closed_after, cnt; cbn [ac ast acy count_occ]; try lia.
  - rewrite Cb. lia.
  - rewrite Ca. lia.
  - right; right; left. split; assumption.
Qed.

Lemma j_move s s' : Inv g ap s -> move g ap s s' -> J s -> J s'.
Proof.
  intros Hi Hm Hj. destruct Hj as [Rab Rba Cab Cba Ex Ee].
  assert (Hi' : Inv g ap s') by (eapply inv_move; eauto).
  pose proof (rem_move g ap a b Hab Hedge_ab Hedge_ba Honly s s' Hi Hm) as Mab.
  pose proof (rem_move g ap b a Hba Hedge_ba Hedge_ab Honly' s s' Hi Hm) as Mba.
  constructor.
  - lia.
  - lia.
  - exact (closed_move g ap a b s s' Hi Hm Cab).
  - exact (closed_move g ap b a s s' Hi Hm Cba).
  - destruct (cnt_step g ap s s' Hm) as [Eq|(r & Eq & Hr)].
    + rewrite !Eq. exact Ex.
    + rewrite !Eq.
      destruct (reported_pair g ap a b Honly s' Hi' r Hr) as [->| ->].
      * assert (Z' : cnt s [b; a; b] = 0).
        { apply (excl_step g ap a b s s' Hi Hm Cba).
          - pose proof (Eq [a; b; a]).
            destruct (list_eq_dec string_dec [a; b; a] [a; b; a]); [lia|congruence].
          - rewrite Eq. destruct (list_eq_dec string_dec [a; b; a] [a; b; a]); [lia|congruence]. }
        pose proof (Eq [a; b; a]) as E1.
        destruct (list_eq_dec string_dec [a; b; a] [a; b; a]); [|congruence].
        destruct (list_eq_dec string_dec [a; b; a] [b; a; b]) as [E|_]; [injection E; congruence|].
        lia.
      * assert (Z' : cnt s [a; b; a] = 0).
        { apply (excl_step g ap b a s s' Hi Hm Cab).
          - pose proof (Eq [b; a; b]).
            destruct (list_eq_dec string_dec [b; a; b] [b; a; b]); [lia|congruence].
          - rewrite Eq. destruct (list_eq_dec string_dec [b; a; b] [b; a; b]); [lia|congruence]. }
        pose proof (Eq [b; a; b]) as E1.
        destruct (list_eq_dec string_dec [b; a; b] [b; a; b]); [|congruence].
        destruct (list_eq_dec string_dec [b; a; b] [a; b; a]) as [E|_]; [injection E; congruence|].
        lia.
  - pose proof (cnt_mono g ap s s' [a; b; a] Hm). pose proof (cnt_mono g ap s s' [b; a; b] Hm).
    destruct Ee as [E|[E|[E|[E|[E|[E|E]]]]]].
    + lia.
    + lia.
    + destruct (white_move g ap a b Hab Hedge_ab Hedge_ba s s' Hi Hm E) as [W|[W|W]]; tauto.
    + destruct (half_move g ap a b Hab Hedge_ba s s' Hi Hm E) as [W|W]; tauto.
    + destruct (half_move g ap b a Hba Hedge_ab s s' Hi Hm E) as [W|W]; tauto.
    + destruct (nested_move g ap a b Hab Honly s s' Hi Hm E) as [W|W]; tauto.
    + destruct (nested_move g ap b a Hba Honly' s s' Hi Hm E) as [W|W]; tauto.
Qed.

Lemma j_reach s : reach g ap s -> J s.
Proof.
  induction 1; [apply j_init|]. eapply j_move; eauto. apply inv_reach; assumption.
Qed.

(** When the search is over with [a] visited, the cycle is reported once. *)
Lemma pair_reported_once s :
  reach g ap s -> ast s = [] -> JsMap.get a (ac s) <> Some WHITE ->
  acy s = [[a; b; a]] \/ acy s = [[b; a; b]].
Proof.
  intros Hr Hst Ha. pose proof (inv_reach g ap s Hr) as Hi. destruct (j_reach s Hr) as [_ _ _ _ Ex Ee].
  apply (count_two (list_eq_dec string_dec)).
  - intros E. injection E. congruence.
  - apply (reported_pair g ap a b Honly s Hi).
  - unfold cnt in *.
    destruct Ee as [E|[E|[E|[E|[E|[E|E]]]]]]; try lia.
    + exfalso. apply Ha, E.
    + destruct E as (_ & _ & ds & E & _). rewrite Hst in E. discriminate.
    + destruct E as (_ & _ & ds & E & _). rewrite Hst in E. discriminate.
    + destruct E as (_ & _ & _ & ds & E & _). rewrite Hst in E. discriminate.
    + destruct E as (_ & _ & _ & ds & E & _). rewrite Hst in E. discriminate.
Qed.

End TwoCycle.

End DfsModel.

(** *** The two [findCycles] as runs of the abstract search *)
Module DfsRun.
Import DfsModel.

Inductive star (g : list (string * list string)) (ap : bool) : AState -> AState -> Prop :=
  | star_refl s : star g ap s s
  | star_step s s' s'' : move g ap s s' -> star g ap s' s'' -> star g ap s s''.

Lemma star_trans g ap s1 s2 s3 : star g ap s1 s2 -> star g ap s2 s3 -> star g ap s1 s3.
Proof. induction 1; intros; [assumption | econstructor; eauto]. Qed.

Lemma star_one g ap s s' : move g ap s s' -> star g ap s s'.
Proof. intros H. econstructor; [exact H | constructor]. Qed.

Lemma reach_star g ap s s' : reach g ap s -> star g ap s s' -> reach g ap s'.
Proof. intros Hr Hs. induction Hs; [assumption | apply IHHs; econstructor; eauto]. Qed.

(** A name that is grey or black never turns white again. *)
Definition nonwhite (c : list (string * color)) (y : string) : Prop :=
  JsMap.get y c = Some GRAY \/ JsMap.get y c = Some BLACK.

Lemma nonwhite_move g ap s s' y : move g ap s s' -> nonwhite (ac s) y -> nonwhite (ac s') y.
Proof.
  unfold nonwhite. intros Hm Hy. inversion Hm; subst; cbn [ac] in *; auto.
  all: rewrite ?get_set;
       repeat match goal with |- context [String.eqb ?p ?q] => destruct (String.eqb p q) end; auto.
Qed.

Lemma nonwhite_star g ap s s' y : star g ap s s' -> nonwhite (ac s) y -> nonwhite (ac s') y.
Proof. induction 1; eauto using nonwhite_move. Qed.

Lemma keys_set_ext {V} (x : string) (v : V) m : exists l, JsMap.keys (JsMap.set x v m) = app (JsMap.keys m) l.
Proof.
  destruct (keys_set x v m) as [E|[_ E]]; rewrite E; [exists []; symmetry; apply app_nil_r | eauto].
Qed.

Lemma keys_move g ap s s' : move g ap s s' -> exists l, JsMap.keys (ac s') = app (JsMap.keys (ac s)) l.
Proof.
  intros Hm. inversion Hm; subst; cbn [ac]; try (exists []; symmetry; apply app_nil_r); try apply keys_set_ext.
  destruct (keys_set_ext d WHITE c) as [l1 E1]. destruct (keys_set_ext d GRAY (JsMap.set d WHITE c)) as [l2 E2].
  exists (app l1 l2). rewrite E2, E1, app_assoc. reflexivity.
Qed.

Lemma keys_star g ap s s' : star g ap s s' -> exists l, JsMap.keys (ac s') = app (JsMap.keys (ac s)) l.
Proof.
  induction 1 as [s|s s' s'' Hm Hs [l IH]]; [exists []; symmetry; apply app_nil_r|].
  destruct (keys_move _ _ _ _ Hm) as [l1 E1]. exists (app l1 l). rewrite IH, E1, app_assoc. reflexivity.
Qed.

(** The names of the graph and those it references, without repetition. *)
Definition universe (g : list (string * list string)) : list string :=
  nodup string_dec (app (JsMap.keys g) (flat_map snd g)).

Lemma colored_universe g ap s y : Inv g ap s -> JsMap.get y (ac s) <> None -> In y (universe g).
Proof.
  intros Hi Hy. unfold universe. apply nodup_In, in_or_app.
  destruct (inv_colored _ _ _ Hi y Hy) as [H|[_ H]]; auto.
Qed.

Lemma universe_nodup g : NoDup (universe g).
Proof. apply NoDup_nodup. Qed.

Lemma universe_length g : length (universe g) <= Figma.graph_size g.
Proof.
  unfold Figma.graph_size.
  apply (Nat.le_trans _ (length (app (JsMap.keys g) (flat_map snd g)))).
  - apply NoDup_incl_length; [apply NoDup_nodup | intros y Hy; apply nodup_In in Hy; exact Hy].
  - rewrite length_app. unfold JsMap.keys. rewrite length_map. lia.
Qed.

Lemma colors_length g ap s : Inv g ap s -> length (ac s) <= length (universe g).
Proof.
  intros Hi. replace (length (ac s)) with (length (JsMap.keys (ac s)))
    by (unfold JsMap.keys; apply length_map).
  apply NoDup_incl_length; [exact (inv_cnodup _ _ _ Hi)|].
  intros y Hy. eapply colored_universe; [exact Hi|].
  intros E. apply JsMapFacts.get_none_iff in E. contradiction.
Qed.

(** *** validate-tokens.js *)

Definition vframe (g : list (string * list string)) (f : Validate.Frame) : string * list string :=
  (Validate.node f, skipn (Validate.childIdx f) (deps_of g (Validate.node f))).

Definition vabs (g : list (string * list string)) (st : Validate.DfsState) : AState :=
  mkA (Validate.colors st) (map (vframe g) (Validate.callStack st)) (Validate.cycles st).

(** [path] lists the names of the call stack, bottom first. *)
Definition vpath_ok (st : Validate.DfsState) : Prop :=
  Validate.path st = rev (map Validate.node (Validate.callStack st)).

(** White names of [K]. *)
Definition wcount (K : list string) (c : list (string * color)) : nat :=
  length (filter (fun y => match JsMap.get y c with Some WHITE => true | _ => false end) K).

Definition muV (g : list (string * list string)) (s : AState) : nat :=
  2 * wcount (nodup string_dec (JsMap.keys g)) (ac s) + length (ast s).

Lemma wcount_le K c : wcount K c <= length K.
Proof.
  unfold wcount. induction K as [|y K IH]; simpl; [lia|].
  destruct (JsMap.get y c) as [[]|]; simpl; lia.
Qed.

Lemma wcount_set_le K x v c : v <> WHITE -> wcount K (JsMap.set x v c) <= wcount K c.
Proof.
  intros Hv. unfold wcount. induction K as [|y K IH]; simpl; [lia|].
  rewrite get_set. destruct (String.eqb y x).
  - destruct v; [congruence| |]; destruct (JsMap.get y c) as [[]|]; simpl; lia.
  - destruct (JsMap.get y c) as [[]|]; simpl; lia.
Qed.

Lemma wcount_set_notin K x v c : ~ In x K -> wcount K (JsMap.set x v c) = wcount K c.
Proof.
  intros Hn. unfold wcount. induction K as [|y K IH]; simpl; [reflexivity|].
  rewrite get_set. destruct (String.eqb_spec y x) as [->|Hne]; [exfalso; apply Hn; left; reflexivity|].
  destruct (JsMap.get y c) as [[]|]; simpl; rewrite IH by (intros H; apply Hn; right; exact H); reflexivity.
Qed.

Lemma wcount_set_white K x v c :
  NoDup K -> In x K -> JsMap.get x c = Some WHITE -> v <> WHITE ->
  S (wcount K (JsMap.set x v c)) = wcount K c.
Proof.
  intros Hnd Hin Hx Hv. induction Hnd as [|y K Hy Hnd IH]; [destruct Hin|].
  unfold wcount in *. simpl. rewrite get_set.
  destruct (String.eqb_spec y x) as [->|Hne].
  - rewrite Hx. destruct v; [congruence| |]; simpl; f_equal; apply wcount_set_notin; exact Hy.
  - destruct Hin as [->|Hin]; [congruence|].
    destruct (JsMap.get y c) as [[]|]; simpl; rewrite <- IH by exact Hin; reflexivity.
Qed.

Lemma muV_move g s s' : Inv g false s -> move g false s s' -> muV g s' <= muV g s.
Proof.
  intros Hi Hm. unfold muV. inversion Hm; subst; cbn [ac ast length]; try lia; try congruence.
  - assert (Hk : In d (nodup string_dec (JsMap.keys g))).
    { apply nodup_In. destruct (inv_colored _ _ _ Hi d) as [Hk0|[Hk0 _]]; cbn [ac]; [congruence | exact Hk0 | discriminate]. }
    pose proof (wcount_set_white _ d GRAY c (NoDup_nodup _ _) Hk H ltac:(discriminate)). lia.
  - pose proof (wcount_set_le (nodup string_dec (JsMap.keys g)) x BLACK c ltac:(discriminate)). lia.
  - assert (Hk : In x (nodup string_dec (JsMap.keys g))).
    { apply nodup_In. destruct (inv_colored _ _ _ Hi x) as [H'|[H' _]]; cbn [ac]; [congruence | exact H' | discriminate]. }
    pose proof (wcount_set_white _ x GRAY c (NoDup_nodup _ _) Hk H ltac:(discriminate)). lia.
Qed.

Lemma muV_star g s s' : reach g false s -> star g false s s' -> muV g s' <= muV g s.
Proof.
  intros Hr Hs. induction Hs as [s|s s1 s2 Hm Hs IH]; [lia|].
  pose proof (muV_move g s s1 (inv_reach _ _ _ Hr) Hm).
  pose proof (IH (RMove _ _ _ _ Hr Hm)). lia.
Qed.

Lemma skipn_cons_S {A} k (l : list A) d ds : skipn k l = d :: ds -> skipn (S k) l = ds.
Proof.
  revert l; induction k as [|k IH]; intros [|y l] H; simpl in *; try discriminate.
  - injection H as _ ->. reflexivity.
  - apply IH. exact H.
Qed.

Section Inner.
Variable g : list (string * list string).
Variable x : string.
Variable R : list (string * list string).
Variable p : list string.
Hypothesis Hp : p = rev (x :: map fst R).

Lemma inner_sim ds : forall k c cy, skipn k (deps_of g x) = ds ->
  match Validate.inner ds k c p cy with
  | (_, col, cyc, None) => star g false (mkA c ((x, ds) :: R) cy) (mkA col ((x, []) :: R) cyc)
  | (idx, col, cyc, Some d) =>
      exists c1, star g false (mkA c ((x, ds) :: R) cy) (mkA c1 ((x, d :: skipn idx (deps_of g x)) :: R) cyc) /\
        JsMap.get d c1 = Some WHITE /\ col = JsMap.set d GRAY c1
  end.
Proof.
  induction ds as [|d ds IH]; intros k c cy Hk; simpl; [constructor|].
  pose proof (skipn_cons_S _ _ _ _ Hk) as Hk'.
  destruct (JsMap.get d c) as [[]|] eqn:Hd.
  - exists c. rewrite Hk'. split; [constructor | split; [exact Hd | reflexivity]].
  - specialize (IH (S k) c (app cy [app (slice_from (indexOf d p) p) [d]]) Hk').
    destruct (Validate.inner ds (S k) c p _) as [[[idx col] cyc] [d'|]].
    + destruct IH as (c1 & Hs & H1 & H2). exists c1. split; [|auto].
      econstructor; [|exact Hs].
      assert (E : app (slice_from (indexOf d p) p) [d] = report (apath ((x, d :: ds) :: R)) d)
        by (unfold report, apath; rewrite Hp; reflexivity).
      rewrite E. apply MGray. exact Hd.
    + econstructor; [|exact IH].
      assert (E : app (slice_from (indexOf d p) p) [d] = report (apath ((x, d :: ds) :: R)) d)
        by (unfold report, apath; rewrite Hp; reflexivity).
      rewrite E. apply MGray. exact Hd.
  - specialize (IH (S k) c cy Hk').
    destruct (Validate.inner ds (S k) c p cy) as [[[idx col] cyc] [d'|]].
    + destruct IH as (c1 & Hs & H1 & H2). exists c1. split; [|auto].
      econstructor; [apply MBlack; exact Hd | exact Hs].
    + econstructor; [apply MBlack; exact Hd | exact IH].
  - specialize (IH (S k) c cy Hk').
    destruct (Validate.inner ds (S k) c p cy) as [[[idx col] cyc] [d'|]].
    + destruct IH as (c1 & Hs & H1 & H2). exists c1. split; [|auto].
      econstructor; [apply MSkip; [exact Hd | reflexivity] | exact Hs].
    + econstructor; [apply MSkip; [exact Hd | reflexivity] | exact IH].
Qed.

End Inner.

Lemma vstep_sim g st :
  vpath_ok st -> Validate.callStack st <> [] -> reach g false (vabs g st) ->
  star g false (vabs g st) (vabs g (Validate.step g st)) /\
  muV g (vabs g (Validate.step g st)) < muV g (vabs g st) /\
  vpath_ok (Validate.step g st).
Proof.
  destruct st as [c stk pth cy]. unfold vpath_ok, vabs. cbn [Validate.colors Validate.callStack Validate.path Validate.cycles].
  intros Hp Hne Hr. destruct stk as [|[x k] rest]; [congruence|].
  unfold Validate.step. cbn [Validate.callStack Validate.node Validate.childIdx Validate.colors Validate.path Validate.cycles].
  fold (deps_of g x).
  assert (Hp' : pth = rev (x :: map fst (map (vframe g) rest)))
    by (rewrite Hp, map_map; reflexivity).
  pose proof (inner_sim g x (map (vframe g) rest) pth Hp' (skipn k (deps_of g x)) k c cy eq_refl) as Hin.
  destruct (Validate.inner (skipn k (deps_of g x)) k c pth cy) as [[[idx col] cyc] [d|]].
  - destruct Hin as (c1 & Hs & Hd & ->).
    assert (Hm : move g false (mkA c1 ((x, d :: skipn idx (deps_of g x)) :: map (vframe g) rest) cyc)
                   (mkA (JsMap.set d GRAY c1) ((d, deps_of g d) :: (x, skipn idx (deps_of g x)) :: map (vframe g) rest) cyc))
      by (apply MPush; exact Hd).
    assert (Hr1 := reach_star _ _ _ _ Hr Hs).
    pose proof (muV_star _ _ _ Hr Hs). pose proof (muV_move g _ _ (inv_reach _ _ _ Hr1) Hm).
    assert (Hk : In d (nodup string_dec (JsMap.keys g))).
    { apply nodup_In. destruct (inv_colored _ _ _ (inv_reach _ _ _ Hr1) d) as [Hk0|[Hk0 _]]; cbn [ac]; [congruence | exact Hk0 | discriminate]. }
    pose proof (wcount_set_white _ d GRAY c1 (NoDup_nodup _ _) Hk Hd ltac:(discriminate)).
    split; [|split].
    + eapply star_trans; [exact Hs | apply star_one; exact Hm].
    + unfold muV in *. cbn [ac ast length map vframe Validate.node Validate.childIdx Validate.colors Validate.callStack skipn] in *. lia.
    + cbn [Validate.callStack Validate.path map Validate.node]. rewrite Hp. reflexivity.
  - assert (Hm : move g false (mkA col ((x, []) :: map (vframe g) rest) cyc)
                   (mkA (JsMap.set x BLACK col) (map (vframe g) rest) cyc)) by apply MPop.
    pose proof (muV_star _ _ _ Hr Hin).
    pose proof (wcount_set_le (nodup string_dec (JsMap.keys g)) x BLACK col ltac:(discriminate)).
    split; [|split].
    + eapply star_trans; [exact Hin | apply star_one; exact Hm].
    + unfold muV in *. cbn [ac ast length map vframe Validate.node Validate.childIdx Validate.colors Validate.callStack] in *. lia.
    + cbn [Validate.callStack Validate.path]. rewrite Hp. cbn [map rev]. apply removelast_last.
Qed.

Lemma vloop_sim g : forall fuel st,
  vpath_ok st -> reach g false (vabs g st) -> muV g (vabs g st) <= fuel ->
  Validate.callStack (Validate.loop g fuel st) = [] /\
  star g false (vabs g st) (vabs g (Validate.loop g fuel st)).
Proof.
  induction fuel as [|f IH]; intros st Hp Hr Hmu; simpl.
  - split; [|constructor]. unfold muV, vabs in Hmu. cbn [ast] in Hmu. rewrite length_map in Hmu.
    destruct (Validate.callStack st); [reflexivity | simpl in Hmu; lia].
  - destruct (Validate.callStack st) eqn:Hs; [split; [exact Hs | constructor]|].
    assert (Hne : Validate.callStack st <> []) by congruence.
    destruct (vstep_sim g st Hp Hne Hr) as (Hst & Hlt & Hp').
    destruct (IH (Validate.step g st) Hp' (reach_star _ _ _ _ Hr Hst) ltac:(lia)) as [H1 H2].
    split; [exact H1 | eapply star_trans; eauto].
Qed.

Lemma vdfs_sim g name c cy :
  reach g false (mkA c [] cy) -> JsMap.get name c = Some WHITE ->
  let r := Validate.dfs g name c cy in
  reach g false (mkA (fst r) [] (snd r)) /\
  (forall y, nonwhite c y -> nonwhite (fst r) y) /\ nonwhite (fst r) name.
Proof.
  intros Hr Hw. unfold Validate.dfs.
  set (st0 := Validate.mkDfs (JsMap.set name GRAY c) [Validate.mkFrame name 0] [name] cy).
  assert (Hm : move g false (mkA c [] cy) (vabs g st0)) by (apply MStart; exact Hw).
  assert (Hr0 : reach g false (vabs g st0)) by (econstructor; eauto).
  assert (Hmu : muV g (vabs g st0) <= 2 * length g + 2).
  { unfold muV. cbn [vabs st0 ac ast Validate.colors Validate.callStack map length].
    pose proof (wcount_le (nodup string_dec (JsMap.keys g)) (JsMap.set name GRAY c)).
    assert (length (nodup string_dec (JsMap.keys g)) <= length g).
    { rewrite <- (length_map fst g). apply NoDup_incl_length; [apply NoDup_nodup|].
      intros y Hy. apply nodup_In in Hy. exact Hy. }
    lia. }
  destruct (vloop_sim g _ st0 eq_refl Hr0 Hmu) as [Hs Hst].
  set (st := Validate.loop g (2 * length g + 2) st0) in *.
  assert (E : vabs g st = mkA (Validate.colors st) [] (Validate.cycles st))
    by (unfold vabs; rewrite Hs; reflexivity).
  rewrite E in Hst. cbn [fst snd]. split; [|split].
  - eapply reach_star; eauto.
  - intros y Hy. apply (nonwhite_star _ _ _ _ _ Hst). cbn [vabs st0 ac Validate.colors].
    apply (nonwhite_move _ _ _ _ _ Hm). exact Hy.
  - apply (nonwhite_star _ _ _ _ _ Hst). cbn [vabs st0 ac Validate.colors].
    left. apply JsMapFacts.get_set_same.
Qed.

Lemma vfold_sim g : forall l c cy, reach g false (mkA c [] cy) ->
  let r := fold_left (fun '(c, cy) name =>
                        match JsMap.get name c with
                        | Some WHITE => Validate.dfs g name c cy
                        | _ => (c, cy)
                        end) l (c, cy) in
  reach g false (mkA (fst r) [] (snd r)) /\
  (forall y, nonwhite c y -> nonwhite (fst r) y) /\
  (forall y, In y l -> In y (JsMap.keys g) -> nonwhite (fst r) y).
Proof.
  induction l as [|name l IH]; intros c cy Hr; simpl.
  - split; [exact Hr | split; [auto | intros _ []]].
  - destruct (JsMap.get name c) as [[]|] eqn:Hn.
    + destruct (vdfs_sim g name c cy Hr Hn) as (Hr' & Hnw & Hname).
      destruct (Validate.dfs g name c cy) as [c' cy'] eqn:Ed. cbn [fst snd] in *.
      destruct (IH c' cy' Hr') as (Hr'' & Hnw' & Hl).
      split; [exact Hr'' | split; [auto|]].
      intros y [->|Hy] Hk; auto.
    + destruct (IH c cy Hr) as (Hr'' & Hnw' & Hl). split; [exact Hr'' | split; [auto|]].
      intros y [->|Hy] Hk; auto. apply Hnw'. left. exact Hn.
    + destruct (IH c cy Hr) as (Hr'' & Hnw' & Hl). split; [exact Hr'' | split; [auto|]].
      intros y [->|Hy] Hk; auto. apply Hnw'. right. exact Hn.
    + destruct (IH c cy Hr) as (Hr'' & Hnw' & Hl). split; [exact Hr'' | split; [auto|]].
      intros y [->|Hy] Hk; auto. exfalso.
      exact (inv_keys _ _ _ (inv_reach _ _ _ Hr) y Hk Hn).
Qed.

(** [Validate.findCycles] returns the cycles of a complete run. *)
Lemma validate_run g :
  exists c, reach g false (mkA c [] (Validate.findCycles g)) /\
            forall y, In y (JsMap.keys g) -> nonwhite c y.
Proof.
  destruct (vfold_sim g (JsMap.keys g) (col0 g) [] (RInit _ _)) as (Hr & _ & Hk).
  eexists. split; [exact Hr | intros y Hy; apply Hk; exact Hy].
Qed.

(** *** figma-sync-dry-run.js *)

Definition fframe (g : list (string * list string)) (f : Figma.Frame) : string * list string :=
  (Figma.fnode f, skipn (Figma.edgeIdx f) (deps_of g (Figma.fnode f))).

Definition fabs (g : list (string * list string)) (st : Figma.DfsState) : AState :=
  mkA (Figma.colors st) (map (fframe g) (Figma.stack st)) (Figma.cycles st).

(** Each frame's [path] lists the names of the frames from the bottom up to it. *)
Fixpoint paths_ok (l : list Figma.Frame) : Prop :=
  match l with
  | [] => True
  | f :: r => Figma.fpath f = rev (map Figma.fnode (f :: r)) /\ paths_ok r
  end.

Lemma skipn_nth {A} k (l : list A) dflt : k < length l -> skipn k l = nth k l dflt :: skipn (S k) l.
Proof.
  revert l; induction k as [|k IH]; intros [|y l] H; simpl in *; try lia; [reflexivity|].
  apply IH. lia.
Qed.

Lemma fstep_sim g st :
  paths_ok (Figma.stack st) -> Figma.stack st <> [] ->
  move g true (fabs g st) (fabs g (Figma.step g st)) /\ paths_ok (Figma.stack (Figma.step g st)).
Proof.
  destruct st as [c stk cy]. unfold fabs. cbn [Figma.colors Figma.stack Figma.cycles].
  intros Hp Hne. destruct stk as [|[x pth k] rest]; [congruence|].
  destruct Hp as [Hpth Hrest]. cbn [Figma.fpath Figma.fnode map] in Hpth.
  unfold Figma.step. cbn [Figma.stack Figma.fnode Figma.fpath Figma.edgeIdx Figma.colors Figma.cycles].
  fold (deps_of g x). cbn [map fframe Figma.fnode Figma.edgeIdx].
  destruct (Nat.leb_spec (length (deps_of g x)) k) as [Hle|Hlt].
  - cbn [Figma.stack Figma.colors Figma.cycles]. unfold fframe at 1. cbn [Figma.fnode Figma.edgeIdx]. rewrite skipn_all2 by exact Hle.
    split; [apply MPop | exact Hrest].
  - unfold fframe at 1. cbn [Figma.fnode Figma.edgeIdx]. rewrite (skipn_nth k (deps_of g x) "" Hlt).
    set (dep := nth k (deps_of g x) "").
    assert (Hrep : app (slice_from (indexOf dep pth) pth) [dep] =
                   report (apath ((x, dep :: skipn (S k) (deps_of g x)) :: map (fframe g) rest)) dep).
    { unfold report, apath. cbn [map fst]. rewrite Hpth, map_map. reflexivity. }
    unfold JsMap.has. destruct (JsMap.get dep c) as [[]|] eqn:Hd; cbv beta iota zeta; rewrite ?Hd.
    + split; [apply MPush; exact Hd|].
      cbn [paths_ok Figma.fpath Figma.fnode map]. rewrite Hpth. split; [reflexivity|]. split; [first [exact Hpth | reflexivity] | exact Hrest].
    + cbn [Figma.stack Figma.colors Figma.cycles map fframe Figma.fnode Figma.edgeIdx].
      rewrite Hrep. split; [apply MGray; exact Hd|].
      cbn [paths_ok Figma.fpath Figma.fnode map]. split; [first [exact Hpth | reflexivity] | exact Hrest].
    + cbn [Figma.stack Figma.colors Figma.cycles map fframe Figma.fnode Figma.edgeIdx].
      split; [apply MBlack; exact Hd|].
      cbn [paths_ok Figma.fpath Figma.fnode map]. split; [first [exact Hpth | reflexivity] | exact Hrest].
    + rewrite JsMapFacts.get_set_same.
      split; [apply MPushNew; [exact Hd | reflexivity]|].
      cbn [paths_ok Figma.fpath Figma.fnode map]. rewrite Hpth. split; [reflexivity|]. split; [first [exact Hpth | reflexivity] | exact Hrest].
Qed.

(** Names not yet grey or black weigh 1. *)
Definition wn (o : option color) : nat :=
  match o with Some GRAY | Some BLACK => 0 | _ => 1 end.

(** Each name not yet visited counts two plus its references, each frame one
    plus the references it has left. *)
Definition muF (g : list (string * list string)) (s : AState) : nat :=
  list_sum (map (fun y => wn (JsMap.get y (ac s)) * (2 + length (deps_of g y))) (universe g)) +
  list_sum (map (fun f => 1 + length (snd f)) (ast s)).

Ltac slia := unfold list_sum in *; cbn [fold_right] in *; lia.

Lemma sum_update (U : list string) (f f' : string -> nat) x :
  NoDup U -> In x U -> (forall y, In y U -> y <> x -> f' y = f y) ->
  list_sum (map f' U) + f x = list_sum (map f U) + f' x.
Proof.
  intros Hnd. revert f f'. induction Hnd as [|y U Hy Hnd IH]; intros f f' Hin Heq; [destruct Hin|].
  cbn [map length list_sum fold_right]. destruct (string_dec y x) as [->|Hne].
  - assert (E : map f' U = map f U).
    { apply map_ext_in. intros z Hz. apply Heq; [right; exact Hz | intros ->; contradiction]. }
    rewrite E. slia.
  - destruct Hin as [->|Hin]; [congruence|].
    rewrite (Heq y (or_introl eq_refl) Hne).
    pose proof (IH f f' Hin (fun z Hz => Heq z (or_intror Hz))). slia.
Qed.

Lemma frames_ge (l : list (string * list string)) : length l <= list_sum (map (fun f => 1 + length (snd f)) l).
Proof. induction l; cbn [map length list_sum fold_right]; slia. Qed.

Lemma muF_move g s s' : Inv g true s -> move g true s s' -> muF g s' < muF g s.
Proof.
  intros Hi Hm. unfold muF.
  set (U := universe g).
  assert (HU : NoDup U) by apply universe_nodup.
  assert (Hcol : forall c y, Inv g true (mkA c (ast s) (acy s)) -> JsMap.get y c <> None -> In y U)
    by (intros c y Hi' Hy; exact (colored_universe _ _ _ _ Hi' Hy)).
  inversion Hm; subst; cbn [ac ast map list_sum snd length fst]; try discriminate.
  - slia.
  - slia.
  - pose proof (sum_update U (fun y => wn (JsMap.get y c) * (2 + length (deps_of g y)))
                  (fun y => wn (JsMap.get y (JsMap.set d GRAY c)) * (2 + length (deps_of g y))) d HU
                  (colored_universe g true _ d Hi ltac:(cbn [ac]; congruence))
                  ltac:(intros y _ Hy; cbn beta; rewrite get_set_ne by exact Hy; reflexivity)) as E.
    cbn beta in E. rewrite JsMapFacts.get_set_same, H in E. cbn [wn] in E. slia.
  - assert (HdU : In d U).
    { unfold U, universe. apply nodup_In, in_or_app. right.
      destruct (inv_suffix _ _ _ Hi x (d :: ds) ltac:(cbn [ast]; left; reflexivity)) as [pre Hpre].
      eapply deps_in_edges. rewrite Hpre. apply in_or_app. right. left. reflexivity. }
    pose proof (sum_update U (fun y => wn (JsMap.get y c) * (2 + length (deps_of g y)))
                  (fun y => wn (JsMap.get y (JsMap.set d GRAY (JsMap.set d WHITE c))) * (2 + length (deps_of g y))) d HU HdU
                  ltac:(intros y _ Hy; cbn beta; rewrite !get_set_ne by exact Hy; reflexivity)) as E.
    cbn beta in E. rewrite JsMapFacts.get_set_same, H in E. cbn [wn] in E. slia.
  - assert (Hx : JsMap.get x c = Some GRAY) by (apply (inv_gray _ _ _ Hi); left; reflexivity).
    pose proof (sum_update U (fun y => wn (JsMap.get y c) * (2 + length (deps_of g y)))
                  (fun y => wn (JsMap.get y (JsMap.set x BLACK c)) * (2 + length (deps_of g y))) x HU
                  (colored_universe g true _ x Hi ltac:(cbn [ac]; congruence))
                  ltac:(intros y _ Hy; cbn beta; rewrite get_set_ne by exact Hy; reflexivity)) as E.
    cbn beta in E. rewrite JsMapFacts.get_set_same, Hx in E. cbn [wn] in E. slia.
  - pose proof (sum_update U (fun y => wn (JsMap.get y c) * (2 + length (deps_of g y)))
                  (fun y => wn (JsMap.get y (JsMap.set x GRAY c)) * (2 + length (deps_of g y))) x HU
                  (colored_universe g true _ x Hi ltac:(cbn [ac]; congruence))
                  ltac:(intros y _ Hy; cbn beta; rewrite get_set_ne by exact Hy; reflexivity)) as E.
    cbn beta in E. rewrite JsMapFacts.get_set_same, H in E. cbn [wn] in E. slia.
Qed.

Lemma sum_le (U : list string) (f f' : string -> nat) :
  (forall y, f y <= f' y) -> list_sum (map f U) <= list_sum (map f' U).
Proof. intros H. induction U as [|y U IH]; cbn [map length list_sum fold_right]; [slia|]. pose proof (H y). slia. Qed.

Lemma sum_plus2 (U : list string) (k : string -> nat) :
  list_sum (map (fun y => 2 + k y) U) = 2 * length U + list_sum (map k U).
Proof. induction U as [|y U IH]; cbn [map length list_sum fold_right]; slia. Qed.

Lemma sum_if_le (U : list string) k (A : nat) (h : string -> nat) :
  NoDup U -> list_sum (map (fun y => if String.eqb y k then A else h y) U) <= A + list_sum (map h U).
Proof.
  induction 1 as [|y U Hy Hnd IH]; cbn [map length list_sum fold_right]; [slia|].
  destruct (String.eqb_spec y k) as [->|Hne].
  - assert (E : map (fun y => if String.eqb y k then A else h y) U = map h U).
    { apply map_ext_in. intros z Hz. destruct (String.eqb_spec z k) as [->|]; [contradiction | reflexivity]. }
    rewrite E. slia.
  - slia.
Qed.

Lemma deps_sum g (U : list string) :
  NoDup U -> list_sum (map (fun y => length (deps_of g y)) U) <= length (flat_map snd g).
Proof.
  intros HU. induction g as [|[k d] g IH].
  - assert (E : map (fun y => length (deps_of [] y)) U = map (fun _ => 0) U) by (apply map_ext; reflexivity).
    rewrite E. clear. induction U as [|y U IHU]; cbn [map list_sum fold_right]; slia.
  - assert (E : map (fun y => length (deps_of ((k, d) :: g) y)) U =
                map (fun y => if String.eqb y k then length d else length (deps_of g y)) U).
    { apply map_ext. intros y. unfold deps_of. simpl. destruct (String.eqb y k); reflexivity. }
    rewrite E. pose proof (sum_if_le U k (length d) (fun y => length (deps_of g y)) HU).
    cbn [flat_map snd]. rewrite length_app. slia.
Qed.

Lemma muF_bound g c cy : muF g (mkA c [] cy) <= 3 * Figma.graph_size g.
Proof.
  unfold muF. cbn [ac ast map list_sum].
  pose proof (sum_le (universe g) (fun y => wn (JsMap.get y c) * (2 + length (deps_of g y)))
                (fun y => 2 + length (deps_of g y))
                ltac:(intros y; cbn beta; destruct (JsMap.get y c) as [[]|]; simpl; lia)).
  rewrite sum_plus2 in H.
  pose proof (deps_sum g (universe g) (universe_nodup g)).
  pose proof (universe_length g). unfold Figma.graph_size in *. slia.
Qed.

Lemma floop_sim g : forall fuel st,
  paths_ok (Figma.stack st) -> reach g true (fabs g st) -> muF g (fabs g st) <= fuel ->
  Figma.stack (Figma.loop g fuel st) = [] /\ star g true (fabs g st) (fabs g (Figma.loop g fuel st)).
Proof.
  induction fuel as [|f IH]; intros st Hp Hr Hmu; simpl.
  - split; [|constructor]. unfold muF, fabs in Hmu. cbn [ast] in Hmu.
    pose proof (frames_ge (map (fframe g) (Figma.stack st))). rewrite length_map in H.
    destruct (Figma.stack st); [reflexivity | cbn [length] in H; lia].
  - destruct (Figma.stack st) eqn:Hs; [split; [exact Hs | constructor]|].
    assert (Hne : Figma.stack st <> []) by congruence. rewrite <- Hs in Hp.
    destruct (fstep_sim g st Hp Hne) as [Hm Hp'].
    pose proof (muF_move g _ _ (inv_reach _ _ _ Hr) Hm).
    destruct (IH (Figma.step g st) Hp' (RMove _ _ _ _ Hr Hm) ltac:(lia)) as [H1 H2].
    split; [exact H1 | econstructor; eauto].
Qed.

Lemma fdfs_sim g name c cy :
  reach g true (mkA c [] cy) -> JsMap.get name c = Some WHITE ->
  let r := Figma.dfs g name c cy in
  reach g true (mkA (fst r) [] (snd r)) /\
  (forall y, nonwhite c y -> nonwhite (fst r) y) /\ nonwhite (fst r) name /\
  exists l, JsMap.keys (fst r) = app (JsMap.keys c) l.
Proof.
  intros Hr Hw. unfold Figma.dfs.
  set (st0 := Figma.mkDfs (JsMap.set name GRAY c) [Figma.mkFrame name [name] 0] cy).
  assert (Hm : move g true (mkA c [] cy) (fabs g st0)) by (apply MStart; exact Hw).
  assert (Hr0 : reach g true (fabs g st0)) by (econstructor; eauto).
  assert (Hmu : muF g (fabs g st0) <= 3 * Figma.graph_size g + 2).
  { pose proof (muF_move g _ _ (inv_reach _ _ _ Hr) Hm). pose proof (muF_bound g c cy). lia. }
  assert (Hp0 : paths_ok (Figma.stack st0)) by (simpl; auto).
  destruct (floop_sim g _ st0 Hp0 Hr0 Hmu) as [Hs Hst].
  set (st := Figma.loop g (3 * Figma.graph_size g + 2) st0) in *.
  assert (E : fabs g st = mkA (Figma.colors st) [] (Figma.cycles st))
    by (unfold fabs; rewrite Hs; reflexivity).
  rewrite E in Hst. cbn [fst snd]. split; [|split; [|split]].
  - eapply reach_star; eauto.
  - intros y Hy. apply (nonwhite_star _ _ _ _ _ Hst). apply (nonwhite_move _ _ _ _ _ Hm). exact Hy.
  - apply (nonwhite_star _ _ _ _ _ Hst). cbn [fabs st0 ac Figma.colors].
    left. apply JsMapFacts.get_set_same.
  - destruct (keys_star _ _ _ _ (star_step _ _ _ _ _ Hm Hst)) as [l El]. exists l. exact El.
Qed.

Lemma firstn_S_nth {A} (l : list A) i x : nth_error l i = Some x -> firstn (S i) l = app (firstn i l) [x].
Proof.
  revert i; induction l as [|y l IH]; intros [|i] H; simpl in *; try discriminate.
  - injection H as ->. reflexivity.
  - f_equal. apply IH. exact H.
Qed.

Lemma firstn_app_le {A} (l m : list A) i : i <= length l -> firstn i (app l m) = firstn i l.
Proof.
  intros H. rewrite firstn_app. replace (i - length l) with 0 by lia. simpl. apply app_nil_r.
Qed.

Lemma fouter_sim g : forall fuel i c cy,
  reach g true (mkA c [] cy) ->
  (forall y, In y (firstn i (JsMap.keys c)) -> nonwhite c y) ->
  length (universe g) < i + fuel ->
  exists c', reach g true (mkA c' [] (Figma.outer g fuel i c cy)) /\
             forall y, In y (JsMap.keys c') -> nonwhite c' y.
Proof.
  induction fuel as [|f IH]; intros i c cy Hr Hpre Hfuel.
  - exists c. split; [exact Hr|]. intros y Hy. apply Hpre.
    pose proof (colors_length _ _ _ (inv_reach _ _ _ Hr)). cbn [ac] in H.
    rewrite firstn_all2; [exact Hy|]. unfold JsMap.keys. rewrite length_map. lia.
  - cbn [Figma.outer]. pose proof (inv_cnodup _ _ _ (inv_reach _ _ _ Hr)) as Hnd. cbn [ac] in Hnd.
    destruct (nth_error c i) as [[nd clr]|] eqn:Hn.
    + assert (Hget : JsMap.get nd c = Some clr)
        by (apply JsMapFacts.get_in; [exact Hnd | eapply nth_error_In; exact Hn]).
      assert (Hk : nth_error (JsMap.keys c) i = Some nd)
        by (unfold JsMap.keys; rewrite nth_error_map, Hn; reflexivity).
      assert (Hlen : S i <= length (JsMap.keys c))
        by (assert (Hs : nth_error (JsMap.keys c) i <> None) by congruence; apply nth_error_Some in Hs; lia).
      destruct clr.
      * destruct (fdfs_sim g nd c cy Hr Hget) as (Hr' & Hnw & Hnd' & l & El).
        destruct (Figma.dfs g nd c cy) as [c' cy'] eqn:Ed. cbn [fst snd] in *.
        apply IH; [exact Hr' | | lia].
        rewrite El, firstn_app_le by exact Hlen. rewrite (firstn_S_nth _ _ _ Hk).
        intros y Hy. apply in_app_or in Hy. destruct Hy as [Hy|[<-|[]]]; auto.
      * apply IH; [exact Hr | | lia].
        rewrite (firstn_S_nth _ _ _ Hk). intros y Hy. apply in_app_or in Hy.
        destruct Hy as [Hy|[<-|[]]]; auto. left. exact Hget.
      * apply IH; [exact Hr | | lia].
        rewrite (firstn_S_nth _ _ _ Hk). intros y Hy. apply in_app_or in Hy.
        destruct Hy as [Hy|[<-|[]]]; auto. right. exact Hget.
    + exists c. split; [exact Hr|]. intros y Hy. apply Hpre.
      apply nth_error_None in Hn. rewrite firstn_all2; [exact Hy|].
      unfold JsMap.keys. rewrite length_map. exact Hn.
Qed.

(** [Figma.findCycles] returns the cycles of a complete run. *)
Lemma figma_run g :
  exists c, reach g true (mkA c [] (Figma.findCycles g)) /\
            forall y, In y (JsMap.keys c) -> nonwhite c y.
Proof.
  apply (fouter_sim g (S (Figma.graph_size g)) 0 (col0 g) [] (RInit _ _)).
  - intros y [].
  - pose proof (universe_length g). lia.
Qed.

End DfsRun.

(** C1 (counterexample). The graph of [css_double_reference] has exactly
    one simple cycle, [--semantic-a] to [--semantic-b] and back, but
    [--semantic-b] references [--semantic-a] twice: both cycle detectors
    report the same cycle twice. *)
Lemma double_reference_reported_twice :
  simple_cycle graph_double_reference ["--semantic-a"; "--semantic-b"] /\
  (forall c, simple_cycle graph_double_reference c ->
     c = ["--semantic-a"; "--semantic-b"] \/ c = ["--semantic-b"; "--semantic-a"]) /\
  buildGraph (tokenDefs (parseCSS css_double_reference)) = graph_double_reference /\
  Validate.findCycles graph_double_reference
    = [["--semantic-a"; "--semantic-b"; "--semantic-a"];
       ["--semantic-a"; "--semantic-b"; "--semantic-a"]] /\
  Figma.findCycles graph_double_reference
    = [["--semantic-a"; "--semantic-b"; "--semantic-a"];
       ["--semantic-a"; "--semantic-b"; "--semantic-a"]].
Proof.
  split; [|split; [exact CycleFacts.double_reference_cycles|]].
  - split.
    + constructor; [simpl; intros [H|[]]; discriminate | constructor; [simpl; tauto | constructor]].
    + exists "--semantic-a", ["--semantic-b"]. split; [reflexivity|].
      simpl. tauto.
  - split; [vm_compute; reflexivity|]. split; vm_compute; reflexivity.
Qed.

(** C1 (amended). In any dependency graph whose only simple cycle is
    [a] to [b] and back, where [a] references [b] once and [b] references
    [a] once, each of the two cycle detectors returns exactly one cycle:
    [a; b; a] or [b; a; b], whatever the order of the names and of the
    references. *)
Theorem two_cycle_reported_once (graph : list (string * list string)) (a b : string) :
  simple_cycle graph [a; b] ->
  (forall c, simple_cycle graph c -> c = [a; b] \/ c = [b; a]) ->
  count_occ string_dec (deps_of graph a) b = 1 ->
  count_occ string_dec (deps_of graph b) a = 1 ->
  (Validate.findCycles graph = [[a; b; a]] \/ Validate.findCycles graph = [[b; a; b]]) /\
  (Figma.findCycles graph = [[a; b; a]] \/ Figma.findCycles graph = [[b; a; b]]).
Proof.
  intros [Hnd (x & r & E & Hw)] Honly Hab Hba. injection E as <- <-.
  cbn [app walk] in Hw. destruct Hw as (H1 & H2 & _).
  assert (Hne : a <> b) by (intros ->; inversion Hnd as [|? ? Hn _]; apply Hn; left; reflexivity).
  assert (Ka : In a (JsMap.keys graph)) by exact (DfsModel.deps_key graph a b H1).
  split.
  - destruct (DfsRun.validate_run graph) as (c & Hr & Hk).
    apply (DfsModel.pair_reported_once graph false a b Hne H1 H2 Honly Hab Hba _ Hr eq_refl).
    cbn [DfsModel.ac]. intros Ew. destruct (Hk a Ka) as [E'|E']; congruence.
  - destruct (DfsRun.figma_run graph) as (c & Hr & Hk).
    apply (DfsModel.pair_reported_once graph true a b Hne H1 H2 Honly Hab Hba _ Hr eq_refl).
    cbn [DfsModel.ac]. intros Ew.
    assert (Kc : In a (JsMap.keys c)).
    { apply DfsModel.get_some_key.
      exact (DfsModel.inv_keys _ _ _ (DfsModel.inv_reach _ _ _ Hr) a Ka). }
    destruct (Hk a Kc) as [E'|E']; congruence.
Qed.

Lemma two_cycle_reported_once_witness :
  (Validate.findCycles graph_two_cycle = [["--semantic-a"; "--semantic-b"; "--semantic-a"]] \/
   Validate.findCycles graph_two_cycle = [["--semantic-b"; "--semantic-a"; "--semantic-b"]]) /\
  (Figma.findCycles graph_two_cycle = [["--semantic-a"; "--semantic-b"; "--semantic-a"]] \/
   Figma.findCycles graph_two_cycle = [["--semantic-b"; "--semantic-a"; "--semantic-b"]]).
Proof.
  apply (two_cycle_reported_once graph_two_cycle "--semantic-a" "--semantic-b").
  - split.
    + constructor; [simpl; intros [H|[]]; discriminate | constructor; [simpl; tauto | constructor]].
    + exists "--semantic-a", ["--semantic-b"]. split; [reflexivity|]. simpl. tauto.
  - exact CycleFacts.two_cycle_cycles.
  - vm_compute. reflexivity.
  - vm_compute. reflexivity.
Defined.

(* ================================================================== *)
(** * Further properties of the scripts *)

Module ThemeFacts.
Import ThemeOut.

Fixpoint str_all (p : ascii -> bool) (s : string) : bool :=
  match s with
  | EmptyString => true
  | String c s' => p c && str_all p s'
  end.

Fixpoint last_non_ws (s : string) : bool :=
  match s with
  | EmptyString => false
  | String c EmptyString => negb (is_ws c)
  | String _ s' => last_non_ws s'
  end.

Definition theme_name_ok (n : string) : bool :=
  match strip_prefix "--" n with
  | Some nm => negb (String.eqb nm "") && str_all is_name_char nm
  | None => false
  end.

Definition theme_value_ok (v : string) : bool :=
  str_all (fun c => negb (is_lineterm c || Ascii.eqb c ";"%char
                          || Ascii.eqb c "{"%char || Ascii.eqb c "}"%char)) v
  && match v with String c _ => negb (is_ws c) | EmptyString => false end
  && last_non_ws v.

Definition plain_text (s : string) : bool :=
  str_all (fun c => negb (Ascii.eqb c "010"%char || Ascii.eqb c "{"%char || Ascii.eqb c "}"%char)) s.

Definition no_lf (s : string) : bool := str_all (fun c => negb (Ascii.eqb c "010"%char)) s.

Lemma append_assoc (a b c : string) : (a ++ b) ++ c = a ++ (b ++ c).
Proof. induction a; simpl; [reflexivity|]. rewrite IHa. reflexivity. Qed.

Lemma str_all_app p s t : str_all p (s ++ t) = str_all p s && str_all p t.
Proof. induction s; simpl; [reflexivity|]. rewrite IHs, andb_assoc. reflexivity. Qed.

Lemma count_char_app c s t : count_char c (s ++ t) = count_char c s + count_char c t.
Proof. induction s; simpl; [reflexivity|]. rewrite IHs. lia. Qed.

Lemma split_no_lf s : no_lf s = true -> split_lines s = [s].
Proof.
  induction s as [|c s IH]; [reflexivity|].
  unfold no_lf; simpl. intros H. apply andb_prop in H as [H1 H2].
  apply negb_true_iff in H1. rewrite H1, IH by exact H2. reflexivity.
Qed.

Lemma split_app_lf s t : no_lf s = true -> split_lines (s ++ LF ++ t) = s :: split_lines t.
Proof.
  change (LF ++ t) with (String "010"%char t).
  induction s as [|c s IH]; [reflexivity|].
  unfold no_lf; simpl. intros H. apply andb_prop in H as [H1 H2].
  apply negb_true_iff in H1. rewrite H1, IH by exact H2. reflexivity.
Qed.

Lemma split_join l : l <> [] -> Forall (fun s => no_lf s = true) l -> split_lines (join_lines l) = l.
Proof.
  induction l as [|x l IH]; [congruence|]. intros _ HF. inversion HF; subst.
  destruct l as [|y l].
  - apply split_no_lf; assumption.
  - unfold join_lines.
    change (String.concat LF (x :: y :: l)) with (x ++ LF ++ String.concat LF (y :: l)).
    rewrite split_app_lf by assumption. f_equal. apply IH; [congruence | assumption].
Qed.

Lemma join_app l1 l2 : l1 <> [] -> l2 <> [] ->
  join_lines (app l1 l2) = join_lines l1 ++ LF ++ join_lines l2.
Proof.
  intros H1 H2. unfold join_lines. induction l1 as [|x l1 IH]; [congruence|].
  destruct l1 as [|y l1].
  - cbn [app]. destruct l2; [congruence|]. reflexivity.
  - cbn [app] in *. change (String.concat LF (x :: y :: app l1 l2))
      with (x ++ LF ++ String.concat LF (y :: app l1 l2)).
    rewrite IH by congruence.
    change (String.concat LF (x :: y :: l1)) with (x ++ LF ++ String.concat LF (y :: l1)).
    rewrite !append_assoc. reflexivity.
Qed.

Lemma tok_lines_app st n l1 l2 :
  tok_lines st n (app l1 l2) = tok_lines (tok_lines st n l1) (n + length l1) l2.
Proof.
  revert st n; induction l1 as [|x l1 IH]; intros st n; simpl.
  - rewrite Nat.add_0_r. reflexivity.
  - rewrite IH. f_equal. lia.
Qed.

(** A line that opens no [:root] block and has no braces leaves a state
    outside [:root] as it is. *)
Definition inert (l : string) : Prop :=
  Regex.is_root_open (trim l) = false /\ count_char "{"%char l = 0 /\ count_char "}"%char l = 0.

Lemma tok_line_inert st n l : ts_inRoot st = false -> inert l -> tok_line st n l = st.
Proof.
  intros Hr (H1 & H2 & H3). destruct st as [d r rd toks]; simpl in Hr; subst r.
  unfold tok_line; cbn [ts_inRoot ts_depth ts_rootDepth ts_tokens].
  rewrite H1, H2, H3. simpl. f_equal. lia.
Qed.

Lemma tok_lines_inert st n l : ts_inRoot st = false -> Forall inert l -> tok_lines st n l = st.
Proof.
  revert st n; induction l as [|x l IH]; intros st n Hr HF; [reflexivity|].
  inversion HF; subst. simpl. rewrite tok_line_inert by assumption. apply IH; assumption.
Qed.

Lemma drop_ws_snoc l c : is_ws c = false -> drop_ws_list (app l [c]) = app (drop_ws_list l) [c].
Proof.
  intros Hc. induction l as [|x l IH]; simpl.
  - rewrite Hc. reflexivity.
  - destruct (is_ws x); [exact IH | reflexivity].
Qed.

Lemma rtrim_head c r : is_ws c = false -> exists r', rtrim (String c r) = String c r'.
Proof.
  intros Hc. unfold rtrim. cbn [list_ascii_of_string rev].
  rewrite drop_ws_snoc by exact Hc. rewrite rev_app_distr. cbn.
  eexists. reflexivity.
Qed.

Lemma list_ascii_app s t : list_ascii_of_string (s ++ t) = app (list_ascii_of_string s) (list_ascii_of_string t).
Proof. induction s; simpl; [reflexivity|]. rewrite IHs. reflexivity. Qed.

Lemma rtrim_semi s : rtrim (s ++ ";") = s ++ ";".
Proof.
  unfold rtrim. rewrite list_ascii_app. cbn [list_ascii_of_string].
  rewrite rev_app_distr. cbn [rev app drop_ws_list].
  replace (is_ws ";"%char) with false by reflexivity.
  rewrite <- rev_unit, rev_involutive. change [";"%char] with (list_ascii_of_string ";").
  rewrite <- list_ascii_app. apply string_of_list_ascii_of_string.
Qed.

Lemma append_nil_r (s : string) : s ++ "" = s.
Proof. induction s; simpl; [reflexivity|]. rewrite IHs. reflexivity. Qed.

Lemma str_all_impl (p q : ascii -> bool) s :
  (forall c, p c = true -> q c = true) -> str_all p s = true -> str_all q s = true.
Proof.
  intros Hpq. induction s as [|c s IH]; simpl; [reflexivity|].
  intros H. apply andb_prop in H as [H1 H2]. rewrite (Hpq c H1), (IH H2). reflexivity.
Qed.

Lemma count_zero c s : str_all (fun d => negb (Ascii.eqb c d)) s = true -> count_char c s = 0.
Proof.
  induction s as [|d s IH]; simpl; [reflexivity|].
  intros H. apply andb_prop in H as [H1 H2]. apply negb_true_iff in H1. rewrite H1, IH; auto.
Qed.

Lemma root_open_head s c r :
  ltrim s = String c r -> is_ws c = false -> Ascii.eqb ":"%char c = false ->
  Regex.is_root_open (trim s) = false.
Proof.
  intros Hs Hc Hcol. unfold trim. rewrite Hs. destruct (rtrim_head c r Hc) as [r' ->].
  unfold Regex.is_root_open. cbn [strip_prefix]. rewrite Hcol. reflexivity.
Qed.

Lemma plain_facts s : plain_text s = true ->
  count_char "{"%char s = 0 /\ count_char "}"%char s = 0 /\ no_lf s = true.
Proof.
  intros H. repeat split.
  - apply count_zero. revert H. apply str_all_impl. intros c Hc.
    destruct (Ascii.eqb_spec "{"%char c); [subst; vm_compute in Hc; discriminate | reflexivity].
  - apply count_zero. revert H. apply str_all_impl. intros c Hc.
    destruct (Ascii.eqb_spec "}"%char c); [subst; vm_compute in Hc; discriminate | reflexivity].
  - revert H. apply str_all_impl. intros c Hc.
    destruct (Ascii.eqb_spec c "010"%char); [subst; vm_compute in Hc; discriminate | reflexivity].
Qed.

(** A header line: a fixed text [pre] whose first non-blank character is
    not [:] and which has no braces, followed by free text. *)
Lemma inert_text pre c r txt :
  ltrim (pre ++ txt) = String c r -> is_ws c = false -> Ascii.eqb ":"%char c = false ->
  count_char "{"%char pre = 0 -> count_char "}"%char pre = 0 ->
  plain_text txt = true -> inert (pre ++ txt).
Proof.
  intros Hl Hc Hcol H1 H2 Ht. destruct (plain_facts txt Ht) as (T1 & T2 & _).
  split; [exact (root_open_head _ c r Hl Hc Hcol)|].
  rewrite !count_char_app. lia.
Qed.

Lemma no_lf_text pre txt : no_lf pre = true -> plain_text txt = true -> no_lf (pre ++ txt) = true.
Proof.
  intros H1 H2. unfold no_lf. rewrite str_all_app. apply andb_true_intro; split; [exact H1|].
  apply plain_facts. exact H2.
Qed.

Lemma dec_aux_plain f n acc : plain_text acc = true -> plain_text (dec_aux f n acc) = true.
Proof.
  revert n acc; induction f as [|f IH]; intros n acc H; [exact H|].
  cbn [dec_aux].
  assert (Hd : plain_text (String (ascii_of_nat (48 + n mod 10)) acc) = true).
  { unfold plain_text in *. cbn [str_all]. rewrite H, andb_true_r.
    assert (Hlt : n mod 10 < 10) by (apply Nat.mod_upper_bound; lia).
    remember (n mod 10) as d. clear Heqd.
    do 10 (destruct d as [|d]; [reflexivity|]). lia. }
  destruct (n <? 10); [exact Hd | apply IH; exact Hd].
Qed.

Lemma to_dec_plain n : plain_text (to_dec n) = true.
Proof. apply dec_aux_plain. reflexivity. Qed.

Ltac header_line :=
  first [ repeat split; vm_compute; reflexivity
        | eapply inert_text; [reflexivity | reflexivity | reflexivity | reflexivity | reflexivity
                             | first [assumption | apply to_dec_plain]]
        | apply no_lf_text; [reflexivity | first [assumption | apply to_dec_plain]] ].

Lemma header_inert now relSrc n : plain_text now = true -> plain_text relSrc = true ->
  Forall inert (css_header_lines now relSrc n ":root").
Proof.
  intros Hn Hr. unfold css_header_lines.
  repeat apply Forall_cons; try apply Forall_nil; header_line.
Qed.

Lemma header_no_lf now relSrc n : plain_text now = true -> plain_text relSrc = true ->
  Forall (fun s => no_lf s = true) (css_header_lines now relSrc n ":root").
Proof.
  intros Hn Hr. unfold css_header_lines.
  repeat apply Forall_cons; try apply Forall_nil; header_line.
Qed.

Lemma strip_prefix_app p s r : strip_prefix p s = Some r -> s = p ++ r.
Proof.
  revert s; induction p as [|a p IH]; intros s H; simpl in *.
  - congruence.
  - destruct s as [|b s]; [discriminate|].
    destruct (Ascii.eqb_spec a b); [subst; f_equal; apply IH; exact H | discriminate].
Qed.

Lemma name_run_colon nm r : str_all is_name_char nm = true ->
  name_run (nm ++ String ":"%char r) = (nm, String ":"%char r).
Proof.
  induction nm as [|c nm IH]; simpl; [reflexivity|].
  intros H. apply andb_prop in H as [H1 H2]. rewrite H1, IH by exact H2. reflexivity.
Qed.

Lemma value_no_semi_skip w : last_non_ws w = true ->
  str_all (fun c => negb (Ascii.eqb c ";"%char)) w = true ->
  head_is ";"%char (skip_ws (w ++ ";")) = false.
Proof.
  induction w as [|c w IH]; [discriminate|]. intros Hl Hs.
  cbn [str_all] in Hs. apply andb_prop in Hs as [Hs1 Hs2].
  cbn [append skip_ws]. destruct (is_ws c) eqn:Hc.
  - destruct w as [|d w]; [cbn in Hl; rewrite Hc in Hl; discriminate|].
    apply IH; [exact Hl | exact Hs2].
  - cbn [head_is]. apply negb_true_iff in Hs1. rewrite Ascii.eqb_sym. exact Hs1.
Qed.

Lemma lazy_value_semi v : v <> "" -> last_non_ws v = true ->
  str_all (fun c => negb (is_lineterm c || Ascii.eqb c ";"%char)) v = true ->
  Regex.lazy_value (v ++ ";") = Some v.
Proof.
  induction v as [|c v IH]; [congruence|]. intros _ Hl Hs.
  cbn [str_all] in Hs. apply andb_prop in Hs as [Hs1 Hs2].
  apply negb_true_iff, orb_false_iff in Hs1 as [Ht Hsc].
  cbn [append Regex.lazy_value]. rewrite Ht.
  destruct v as [|d v].
  - reflexivity.
  - unfold Regex.ws_then_semi.
    rewrite value_no_semi_skip.
    + rewrite IH by (first [discriminate | exact Hl | exact Hs2]). reflexivity.
    + exact Hl.
    + revert Hs2. apply str_all_impl. intros x Hx.
      apply negb_true_iff, orb_false_iff in Hx as [_ Hx]. rewrite Hx. reflexivity.
Qed.

Lemma value_after_spaces k v : theme_value_ok v = true ->
  Regex.value_after_colon (spaces k ++ v ++ ";") = Some v.
Proof.
  intros Hv. unfold theme_value_ok in Hv.
  apply andb_prop in Hv as [Hv Hl]. apply andb_prop in Hv as [Hs Hh].
  destruct v as [|c v']; [discriminate|].
  assert (Hlz : Regex.lazy_value (String c v' ++ ";") = Some (String c v')).
  { apply lazy_value_semi; [discriminate | exact Hl |].
    revert Hs. apply str_all_impl. intros x Hx.
    apply negb_true_iff in Hx. apply negb_true_iff.
    apply orb_false_iff in Hx as [Hx _]. apply orb_false_iff in Hx as [Hx _]. exact Hx. }
  apply negb_true_iff in Hh.
  induction k as [|k IH].
  - cbn [spaces append Regex.value_after_colon]. rewrite Hh. exact Hlz.
  - cbn [spaces append Regex.value_after_colon]. replace (is_ws " "%char) with true by reflexivity.
    cbn [append] in IH. rewrite IH. reflexivity.
Qed.

Lemma decl_match m n v : theme_name_ok n = true -> theme_value_ok v = true ->
  Regex.match_def (trim (decl m (n, v))) = Some (n, v).
Proof.
  intros Hn Hv. unfold theme_name_ok in Hn.
  destruct (strip_prefix "--" n) as [nm|] eqn:Hp; [|discriminate].
  apply strip_prefix_app in Hp. apply andb_prop in Hn as [Hne Hnm].
  apply negb_true_iff in Hne. subst n.
  unfold decl, trim.
  set (k := m - String.length ("--" ++ nm) + 1).
  replace ("    " ++ ("--" ++ nm) ++ ":" ++ spaces k ++ v ++ ";")
    with ("    " ++ (("--" ++ nm ++ ":" ++ spaces k ++ v) ++ ";"))
    by (rewrite !append_assoc; reflexivity).
  set (X := "--" ++ nm ++ ":" ++ spaces k ++ v).
  replace (ltrim ("    " ++ X ++ ";")) with (X ++ ";") by reflexivity.
  subst X.
  rewrite rtrim_semi. rewrite !append_assoc.
  unfold Regex.match_def. cbn [strip_prefix append]. rewrite Ascii.eqb_refl.
  change (":" ++ spaces k ++ v ++ ";") with (String ":"%char (spaces k ++ v ++ ";")).
  rewrite name_run_colon by exact Hnm. rewrite Hne. cbn [skip_ws].
  replace (is_ws ":"%char) with false by reflexivity. rewrite Ascii.eqb_refl.
  rewrite value_after_spaces by exact Hv. reflexivity.
Qed.

Lemma spaces_plain k : plain_text (spaces k) = true.
Proof. induction k as [|k IH]; [reflexivity|]. exact IH. Qed.

Lemma decl_plain m n v : theme_name_ok n = true -> theme_value_ok v = true ->
  plain_text (decl m (n, v)) = true.
Proof.
  intros Hn Hv. unfold theme_name_ok in Hn.
  destruct (strip_prefix "--" n) as [nm|] eqn:Hp; [|discriminate].
  apply strip_prefix_app in Hp. apply andb_prop in Hn as [_ Hnm]. subst n.
  unfold theme_value_ok in Hv. apply andb_prop in Hv as [Hv _]. apply andb_prop in Hv as [Hv _].
  unfold decl, plain_text. rewrite !str_all_app.
  rewrite (spaces_plain _).
  replace (str_all _ nm) with true.
  2:{ symmetry. revert Hnm. apply str_all_impl. intros c Hc.
      destruct (Ascii.eqb_spec c "010"%char); [subst; vm_compute in Hc; discriminate|].
      destruct (Ascii.eqb_spec c "{"%char); [subst; vm_compute in Hc; discriminate|].
      destruct (Ascii.eqb_spec c "}"%char); [subst; vm_compute in Hc; discriminate|].
      reflexivity. }
  replace (str_all _ v) with true.
  2:{ symmetry. revert Hv. apply str_all_impl. intros c Hc.
      apply negb_true_iff in Hc. repeat rewrite orb_false_iff in Hc.
      destruct Hc as [[[Hc1 _] Hc3] Hc4].
      destruct (Ascii.eqb_spec c "010"%char); [subst; vm_compute in Hc1; discriminate|].
      rewrite Hc3, Hc4. reflexivity. }
  reflexivity.
Qed.

(** The [(name, value)] pairs of a token map. *)
Definition token_values (l : list (string * CssToken)) : list (string * string) :=
  map (fun '(n, t) => (n, ct_value t)) l.

Definition entry_ok (e : string * string) : Prop :=
  let '(n, v) := e in theme_name_ok n = true /\ theme_value_ok v = true.

Lemma tok_decl_line m n v acc k : theme_name_ok n = true -> theme_value_ok v = true ->
  ~ In n (JsMap.keys acc) ->
  tok_line (mkTokState 2 true 1 acc) k (decl m (n, v)) = mkTokState 2 true 1 (app acc [(n, mkCssToken v k)]).
Proof.
  intros Hn Hv Hk. destruct (plain_facts _ (decl_plain m n v Hn Hv)) as (H1 & H2 & _).
  unfold tok_line. cbn [ts_inRoot ts_depth ts_rootDepth ts_tokens negb andb].
  rewrite H1, H2. cbn -[Regex.match_def trim decl JsMap.set]. rewrite decl_match by assumption.
  rewrite JsMapFacts.set_absent by exact Hk. reflexivity.
Qed.

Lemma tok_decls m es : forall acc k, Forall entry_ok es ->
  NoDup (app (map fst acc) (map fst es)) ->
  exists toks, tok_lines (mkTokState 2 true 1 acc) k (map (decl m) es) = mkTokState 2 true 1 toks
               /\ token_values toks = app (token_values acc) es.
Proof.
  induction es as [|[n v] es IH]; intros acc k HF Hnd.
  - exists acc. split; [reflexivity|]. rewrite app_nil_r. reflexivity.
  - inversion HF as [|? ? He HF']; subst. destruct He as [Hn Hv]. cbn [map tok_lines].
    assert (Hk : ~ In n (JsMap.keys acc)).
    { intros Hin. apply NoDup_remove_2 in Hnd. apply Hnd. apply in_or_app. left. exact Hin. }
    rewrite tok_decl_line by assumption.
    destruct (IH (app acc [(n, mkCssToken v k)]) (S k) HF') as (toks & Ht & Hv').
    { rewrite map_app. cbn [map fst]. rewrite <- app_assoc. exact Hnd. }
    exists toks. split; [exact Ht|]. rewrite Hv'. unfold token_values. rewrite map_app, <- app_assoc.
    reflexivity.
Qed.

Lemma css_close toks k :
  tok_lines (mkTokState 2 true 1 toks) k ["  }"; ""; "}"; ""] = mkTokState 0 false 1 toks.
Proof. reflexivity. Qed.

Lemma css_open k : k = 9 ->
  tok_lines (mkTokState 0 false (-1) []) k [""; "@layer themes {"; ""; "  :root {"] = mkTokState 2 true 1 [].
Proof. intros ->. vm_compute. reflexivity. Qed.

(** [generateThemeCSS] and [parseCSSTokens] round trip: for distinct
    custom property names and single-line values without [;], braces or
    surrounding white space, and a timestamp and source name without line
    feeds or braces, parsing the generated [:root] theme file gives back
    exactly the token entries, in order. *)
Theorem theme_css_round_trip (now relSrc themeName : string) (tokens : list (string * string)) :
  plain_text now = true -> plain_text relSrc = true ->
  NoDup (map fst tokens) -> Forall entry_ok tokens ->
  token_values (parseCSSTokens (generateThemeCSS now relSrc tokens (buildSelector "root" themeName)))
  = tokens.
Proof.
  intros Hn Hr Hnd HF.
  replace (buildSelector "root" themeName) with ":root" by reflexivity.
  unfold parseCSSTokens.
  destruct tokens as [|e es].
  - assert (Eq : generateThemeCSS now relSrc [] ":root"
                 = join_lines (app (css_header_lines now relSrc 0 ":root")
                      [""; "/* (no token overrides " ++ EMDASH ++ " all tokens use system defaults) */"; ""])).
    { unfold generateThemeCSS, css_header. rewrite (join_app (css_header_lines _ _ _ _)) by discriminate. reflexivity. }
    rewrite Eq, split_join.
    + rewrite tok_lines_app, (tok_lines_inert _ 1 (css_header_lines _ _ _ _)) by (first [reflexivity | apply header_inert; assumption]).
      vm_compute. reflexivity.
    + discriminate.
    + apply Forall_app; split; [apply header_no_lf; assumption|].
      repeat constructor.
  - set (m := maxLen (e :: es)).
    assert (Eq : generateThemeCSS now relSrc (e :: es) ":root"
                 = join_lines (app (css_header_lines now relSrc (length (e :: es)) ":root")
                      (app [""; "@layer themes {"; ""; "  :root {"]
                           (app (map (decl m) (e :: es)) ["  }"; ""; "}"; ""])))).
    { unfold generateThemeCSS, css_header. rewrite (join_app (css_header_lines _ _ _ _)) by discriminate. reflexivity. }
    assert (Hdecl : Forall (fun s => no_lf s = true) (map (decl m) (e :: es))).
    { apply Forall_map. revert HF. apply Forall_impl. intros [n v] [Hn' Hv'].
      apply (plain_facts _ (decl_plain m n v Hn' Hv')). }
    rewrite Eq, split_join.
    + rewrite tok_lines_app, (tok_lines_inert _ 1 (css_header_lines _ _ _ _)) by (first [reflexivity | apply header_inert; assumption]).
      rewrite tok_lines_app, css_open by reflexivity.
      destruct (tok_decls m (e :: es) [] (1 + length (css_header_lines now relSrc (length (e :: es)) ":root") + 4) HF)
        as (toks & Ht & Hv); [exact Hnd|].
      rewrite tok_lines_app. cbn [length] in Ht |- *. rewrite Ht, css_close. exact Hv.
    + discriminate.
    + apply Forall_app; split; [apply header_no_lf; assumption|].
      apply Forall_app; split; [repeat constructor|].
      apply Forall_app; split; [exact Hdecl | repeat constructor].
Qed.

End ThemeFacts.

Module ThemeMore.
Import ThemeOut ThemeFacts.

(** With at least one token, the SCSS theme file and the CSS theme file end
    in the same [@layer themes] block, with the same aligned declarations;
    they differ only in their comment headers. *)
Theorem theme_scss_same_block (now relSrc : string) (tokens : list (string * string)) (selector : string) :
  tokens <> [] ->
  let block := join_lines (app ["@layer themes {"; ""; "  " ++ selector ++ " {"]
                              (app (map (decl (maxLen tokens)) tokens) ["  }"; ""; "}"; ""])) in
  (exists h, generateThemeCSS now relSrc tokens selector = h ++ LF ++ LF ++ block) /\
  (exists h, generateThemeSCSS now relSrc tokens selector = h ++ LF ++ LF ++ block).
Proof.
  intros Hne block. destruct tokens as [|t ts]; [congruence|].
  split.
  - exists (css_header now relSrc (length (t :: ts)) selector). unfold generateThemeCSS.
    change (app [css_header now relSrc (length (t :: ts)) selector; ""; "@layer themes {"; "";
                 "  " ++ selector ++ " {"] ?r)
      with (app [css_header now relSrc (length (t :: ts)) selector]
              ("" :: app ["@layer themes {"; ""; "  " ++ selector ++ " {"] r)).
    rewrite join_app by discriminate. reflexivity.
  - unfold generateThemeSCSS.
    match goal with |- exists h, join_lines (app (?a1 :: ?a2 :: ?a3 :: ?a4 :: ?a5 :: ?a6 :: ?a7 :: ?a8
                      :: ?a9 :: ?a10 :: ?a11 :: ?a12 :: ?a13 :: ?a14 :: ?a15 :: "" :: ?rest) ?tl) = _ =>
      exists (join_lines [a1; a2; a3; a4; a5; a6; a7; a8; a9; a10; a11; a12; a13; a14; a15]);
      change (app (a1 :: a2 :: a3 :: a4 :: a5 :: a6 :: a7 :: a8 :: a9 :: a10 :: a11 :: a12 :: a13
                   :: a14 :: a15 :: "" :: rest) tl)
        with (app [a1; a2; a3; a4; a5; a6; a7; a8; a9; a10; a11; a12; a13; a14; a15]
                ("" :: app rest tl))
    end.
    rewrite join_app by discriminate. reflexivity.
Qed.

End ThemeMore.

Module ArgsFacts.
Import ApplyArgs.

(** Induction over the arguments, for a loop that may consume two of them. *)
Lemma args_ind (P : list string -> Prop) (H0 : P [])
  (HS : forall a rest, (forall l, length l <= length rest -> P l) -> P (a :: rest)) :
  forall l, P l.
Proof.
  intros l. remember (length l) as n. revert l Heqn.
  induction n as [n IHn] using lt_wf_ind. intros [|a rest] E; [exact H0|].
  apply HS. intros l' Hl. apply (IHn (length l')); [simpl in E; lia | reflexivity].
Qed.

Definition opts_ok (o : Options) : Prop :=
  (scope o = "root" \/ scope o = "attr") /\ themeName o <> "".

Lemma loop_ok resolve : forall args o, opts_ok o -> opts_ok (parse_args_loop resolve args o).
Proof.
  intros args. induction args as [|a rest IH] using args_ind; intros o Ho; [exact Ho|].
  cbn [parse_args_loop].
  destruct (String.eqb a "--yes" || String.eqb a "-y").
  - apply IH; [lia | exact Ho].
  - destruct rest as [|v rest'].
    + destruct (negb (starts_with "-" a)); exact Ho.
    + destruct (String.eqb a "--theme" && negb (String.eqb v "")) eqn:Ht.
      { apply IH; [simpl; lia|]. split; [exact (proj1 Ho)|]. cbn [themeName].
        apply andb_prop in Ht as [_ Ht]. apply negb_true_iff, String.eqb_neq in Ht. exact Ht. }
      destruct (String.eqb a "--scope" && negb (String.eqb v "")).
      { apply IH; [simpl; lia|]. destruct (String.eqb v "attr"); [|exact Ho].
        split; [right; reflexivity | exact (proj2 Ho)]. }
      destruct (String.eqb a "--out" && negb (String.eqb v "")).
      { apply IH; [simpl; lia | exact Ho]. }
      destruct (negb (starts_with "-" a)); apply IH; (lia || exact Ho).
Qed.

(** Whatever the command line, [parseArgs] returns a scope that is [root]
    or [attr] and a theme name that is not empty. *)
Theorem parse_args_scope_and_theme (join resolve : string -> string) (argv : list string) :
  let o := parseArgs join resolve argv in
  (scope o = "root" \/ scope o = "attr") /\ themeName o <> "".
Proof.
  apply loop_ok. split; [left; reflexivity | discriminate].
Qed.

(** One step of the loop, closed with the induction hypothesis. *)
Ltac keep_flags IH :=
  match goal with
  | |- (_ -> yes (parse_args_loop _ ?l ?o') = _) /\ _ =>
      let H1 := fresh in let H2 := fresh in let H := fresh in
      destruct (IH l ltac:(simpl; lia) o') as [H1 H2];
      split; intros H; [apply H1 | apply H2]; first [exact H | reflexivity]
  | |- _ => split; auto
  end.

(** Later arguments never undo [--yes] or [--scope attr]: once set in the
    options, they stay set to the end of the loop of [parseArgs]. *)
Theorem parse_args_flags_sticky (resolve : string -> string) :
  forall args o,
    (yes o = true -> yes (parse_args_loop resolve args o) = true) /\
    (scope o = "attr" -> scope (parse_args_loop resolve args o) = "attr").
Proof.
  intros args. induction args as [|a rest IH] using args_ind; intros o; [split; auto|].
  cbn [parse_args_loop].
  destruct (String.eqb a "--yes" || String.eqb a "-y"); [keep_flags IH|].
  destruct rest as [|v rest']; [destruct (negb (starts_with "-" a)); keep_flags IH|].
  destruct (String.eqb a "--theme" && negb (String.eqb v "")); [keep_flags IH|].
  destruct (String.eqb a "--scope" && negb (String.eqb v "")).
  { destruct (String.eqb v "attr"); keep_flags IH. }
  destruct (String.eqb a "--out" && negb (String.eqb v "")); [keep_flags IH|].
  destruct (negb (starts_with "-" a)); keep_flags IH.
Qed.

End ArgsFacts.

Module RuleFacts.

Lemma existsb_eqb_in x l : existsb (String.eqb x) l = true <-> In x l.
Proof.
  rewrite existsb_exists. split.
  - intros (y & Hy & E). apply String.eqb_eq in E. subst. exact Hy.
  - intros H. exists x. split; [exact H | apply String.eqb_refl].
Qed.

Lemma existsb_eqb_notin x l : existsb (String.eqb x) l = false <-> ~ In x l.
Proof.
  rewrite <- existsb_eqb_in. destruct (existsb (String.eqb x) l); split; congruence || tauto.
Qed.

(** [findMissingRefs] reports exactly the references to undefined names:
    those of a token definition (with its line) and those of the rule
    usages (with consumer [(css rule)] and no line). *)
Theorem missing_refs_exact (defs : list (string * TokenDef)) (usages : list string) (r : MissingRef) :
  In r (findMissingRefs defs usages) <->
  ((exists d, In (mr_consumer r, d) defs /\ In (mr_missing r) (refs d)
              /\ mr_line r = Some (line d))
   \/ (mr_consumer r = "(css rule)" /\ mr_line r = None /\ In (mr_missing r) usages))
  /\ ~ In (mr_missing r) (JsMap.keys defs).
Proof.
  destruct r as [c m l]; cbn [mr_consumer mr_missing mr_line].
  unfold findMissingRefs. rewrite in_app_iff, !in_flat_map. split.
  - intros [([n d] & Hin & Hr) | (u & Hu & Hr)].
    + apply in_flat_map in Hr as (dep & Hdep & Hr).
      destruct (existsb (String.eqb dep) (JsMap.keys defs)) eqn:E; [destruct Hr|].
      destruct Hr as [Hr|[]]. inversion Hr; subst.
      split; [left; exists d; auto | apply existsb_eqb_notin; exact E].
    + destruct (existsb (String.eqb u) (JsMap.keys defs)) eqn:E; [destruct Hr|].
      destruct Hr as [Hr|[]]. inversion Hr; subst.
      split; [right; auto | apply existsb_eqb_notin; exact E].
  - intros [[(d & Hin & Hm & Hl) | (Hc & Hl & Hu)] Hnot]; apply existsb_eqb_notin in Hnot; subst.
    + left. exists (c, d). split; [exact Hin|]. apply in_flat_map. exists m.
      rewrite Hnot. split; [exact Hm | left; reflexivity].
    + right. exists m. rewrite Hnot. split; [exact Hu | left; reflexivity].
Qed.

Lemma tier_eqb_true a b : tier_eqb a b = true <-> a = b.
Proof. destruct a, b; simpl; split; congruence. Qed.

Lemma existsb_tier_in t l : existsb (tier_eqb t) l = true <-> In t l.
Proof.
  rewrite existsb_exists. split.
  - intros (y & Hy & E). apply tier_eqb_true in E. subst. exact Hy.
  - intros H. exists t. split; [exact H | apply tier_eqb_true; reflexivity].
Qed.

(** [findTierViolations] reports exactly the references from a token of a
    known tier to a token whose tier is not in [ALLOWED_DEPS] of it, with the
    defining line and both tiers. *)
Theorem tier_violations_exact (defs : list (string * TokenDef)) (v : TierViolation) :
  In v (findTierViolations defs) <->
  exists d, In (tv_token v, d) defs /\ In (tv_dep v) (refs d) /\ tv_line v = line d
            /\ tv_tokenTier v = getTier (tv_token v) /\ tv_depTier v = getTier (tv_dep v)
            /\ tv_tokenTier v <> Unknown
            /\ ~ In (tv_depTier v) (ALLOWED_DEPS (tv_tokenTier v)).
Proof.
  destruct v as [n dep tt dt l]; cbn [tv_token tv_dep tv_line tv_tokenTier tv_depTier].
  unfold findTierViolations. rewrite in_flat_map. split.
  - intros ([n' d] & Hin & Hv).
    destruct (getTier n') eqn:Et.
    + apply in_map_iff in Hv as (x & Hx & Hdep). inversion Hx; subst.
      exists d. repeat split; auto; try congruence; simpl; tauto.
    + apply in_flat_map in Hv as (x & Hx & Hv).
      destruct (existsb (tier_eqb (getTier x)) (ALLOWED_DEPS Semantic)) eqn:E; [destruct Hv|].
      destruct Hv as [Hv|[]]. inversion Hv; subst. exists d. repeat split; auto; try congruence.
      intros Hi. apply existsb_tier_in in Hi. congruence.
    + apply in_flat_map in Hv as (x & Hx & Hv).
      destruct (existsb (tier_eqb (getTier x)) (ALLOWED_DEPS Component)) eqn:E; [destruct Hv|].
      destruct Hv as [Hv|[]]. inversion Hv; subst. exists d. repeat split; auto; try congruence.
      intros Hi. apply existsb_tier_in in Hi. congruence.
    + apply in_flat_map in Hv as (x & Hx & Hv).
      destruct (existsb (tier_eqb (getTier x)) (ALLOWED_DEPS Base)) eqn:E; [destruct Hv|].
      destruct Hv as [Hv|[]]. inversion Hv; subst. exists d. repeat split; auto; try congruence.
      intros Hi. apply existsb_tier_in in Hi. congruence.
    + destruct Hv.
  - intros (d & Hin & Hdep & Hl & Htt & Hdt & Hnu & Hna). subst.
    exists (n, d). split; [exact Hin|].
    destruct (getTier n) eqn:Et; [| | | | congruence].
    + apply in_map_iff. exists dep. split; [reflexivity | exact Hdep].
    + apply in_flat_map. exists dep. split; [exact Hdep|].
      destruct (existsb (tier_eqb (getTier dep)) (ALLOWED_DEPS Semantic)) eqn:E.
      * apply existsb_tier_in in E. contradiction.
      * left. reflexivity.
    + apply in_flat_map. exists dep. split; [exact Hdep|].
      destruct (existsb (tier_eqb (getTier dep)) (ALLOWED_DEPS Component)) eqn:E.
      * apply existsb_tier_in in E. contradiction.
      * left. reflexivity.
    + apply in_flat_map. exists dep. split; [exact Hdep|].
      destruct (existsb (tier_eqb (getTier dep)) (ALLOWED_DEPS Base)) eqn:E.
      * apply existsb_tier_in in E. contradiction.
      * left. reflexivity.
Qed.

Lemma set_add_nodup x l : NoDup l -> NoDup (JsMap.set_add x l).
Proof.
  intros H. unfold JsMap.set_add. destruct (existsb (String.eqb x) l) eqn:E; [exact H|].
  apply existsb_eqb_notin in E. apply NoDup_app; auto.
  - repeat constructor. intros [].
  - intros y Hy [<-|[]]. contradiction.
Qed.

Lemma record_usages_nodup k t names us ps :
  NoDup us -> NoDup (fst (record_usages k t names us ps)).
Proof.
  revert us ps; induction names as [|x names IH]; intros us ps H; [exact H|].
  cbn [record_usages]. apply IH, set_add_nodup, H.
Qed.

(** One line changes the definitions only by adding a name not yet
    defined, and the usages only by adding to the set. *)
Lemma parse_line_shape st k l :
  (tokenDefs (parse_line st k l) = tokenDefs st
   \/ exists n td, JsMap.has n (tokenDefs st) = false
                   /\ tokenDefs (parse_line st k l) = JsMap.set n td (tokenDefs st))
  /\ (NoDup (ruleUsages st) -> NoDup (ruleUsages (parse_line st k l))).
Proof.
  unfold parse_line.
  destruct (String.eqb (trim l) "" || starts_with "/*" (trim l) || starts_with "//" (trim l));
    [split; [left; reflexivity | auto]|].
  destruct (negb (inRoot st) && Regex.is_root_open (trim l)).
  all: destruct (_ && (_ <? _)%Z).
  all: cbn [fst snd].
  all: repeat match goal with
       | |- context [if ?b then _ else _] => destruct b
       end.
  all: try (destruct (Regex.match_def (trim l)) as [[n v]|];
            [destruct (JsMap.has n (tokenDefs st)) eqn:Eh;
             [split; [left; reflexivity | auto] | split; [right; exists n; eexists; split; [exact Eh | reflexivity] | auto]]
            | split; [left; reflexivity | auto]]).
  all: try (destruct (record_usages _ _ _ _ _) as [us ps] eqn:Er; split; [left; reflexivity|];
            cbn [ruleUsages]; intros H;
            change us with (fst (us, ps)); rewrite <- Er; apply record_usages_nodup, H).
  all: try (split; [left; reflexivity | auto]).
Qed.

Lemma parse_lines_inv st k ls :
  NoDup (JsMap.keys (tokenDefs st)) -> NoDup (ruleUsages st) ->
  NoDup (JsMap.keys (tokenDefs (parse_lines st k ls))) /\ NoDup (ruleUsages (parse_lines st k ls)).
Proof.
  revert st k; induction ls as [|l ls IH]; intros st k H1 H2; [auto|].
  cbn [parse_lines]. destruct (parse_line_shape st k l) as [[E|(n & td & _ & E)] Hu]; apply IH.
  - rewrite E. exact H1.
  - apply Hu, H2.
  - rewrite E. apply DfsModel.set_nodup, H1.
  - apply Hu, H2.
Qed.

Lemma parse_lines_keep st k ls n d :
  JsMap.get n (tokenDefs st) = Some d -> JsMap.get n (tokenDefs (parse_lines st k ls)) = Some d.
Proof.
  revert st k; induction ls as [|l ls IH]; intros st k H; [exact H|].
  cbn [parse_lines]. apply IH.
  destruct (parse_line_shape st k l) as [[E|(n' & td & Eh & E)] _]; rewrite E; [exact H|].
  rewrite DfsModel.get_set. destruct (String.eqb_spec n n') as [->|]; [|exact H].
  unfold JsMap.has in Eh. rewrite H in Eh. discriminate.
Qed.

Lemma split_lines_nonnil s : split_lines s <> [].
Proof.
  destruct s as [|c s]; [discriminate|]. cbn [split_lines].
  destruct (Ascii.eqb c "010"%char); [discriminate|]. destruct (split_lines s); discriminate.
Qed.

Lemma split_lines_app_lf s t : split_lines (s ++ LF ++ t) = app (split_lines s) (split_lines t).
Proof.
  change (LF ++ t) with (String "010"%char t).
  induction s as [|c s IH]; [reflexivity|].
  cbn [append split_lines]. destruct (Ascii.eqb c "010"%char).
  - rewrite IH. reflexivity.
  - rewrite IH. destruct (split_lines s) as [|l ls] eqn:E.
    + exfalso. exact (split_lines_nonnil s E).
    + reflexivity.
Qed.

(** [parseCSS] never records a token name twice, nor a name used in rules
    twice. *)
Lemma parse_css_unique_names (css : string) :
  NoDup (JsMap.keys (tokenDefs (parseCSS css))) /\ NoDup (ruleUsages (parseCSS css)).
Proof. apply parse_lines_inv; constructor. Qed.

(** [parseCSS] keeps the first definition of a token: a definition found in
    a stylesheet is not changed by appending more lines to it. *)
Theorem parse_css_first_definition_kept (css1 css2 n : string) (d : TokenDef) :
  JsMap.get n (tokenDefs (parseCSS css1)) = Some d ->
  JsMap.get n (tokenDefs (parseCSS (css1 ++ LF ++ css2))) = Some d.
Proof.
  unfold parseCSS. rewrite split_lines_app_lf.
  assert (E : forall st k l1 l2, parse_lines st k (app l1 l2)
                                 = parse_lines (parse_lines st k l1) (k + length l1) l2).
  { intros st k l1; revert st k; induction l1 as [|x l1 IH]; intros st k l2; cbn [app parse_lines length].
    - rewrite Nat.add_0_r. reflexivity.
    - rewrite IH. f_equal. lia. }
  rewrite E. apply parse_lines_keep.
Qed.

Lemma build_graph_acc (defs acc : list (string * TokenDef)) g :
  NoDup (app (JsMap.keys g) (JsMap.keys defs)) ->
  fold_left (fun g '(name, d) => JsMap.set name (refs d) g) defs g
  = app g (map (fun '(n, d) => (n, refs d)) defs).
Proof.
  revert g; induction defs as [|[n d] defs IH]; intros g H; cbn [fold_left map].
  - rewrite app_nil_r. reflexivity.
  - rewrite JsMapFacts.set_absent.
    + rewrite IH; [rewrite <- app_assoc; reflexivity|].
      unfold JsMap.keys in *. rewrite map_app. cbn in *. rewrite <- app_assoc. exact H.
    + intros Hin. apply (NoDup_remove_2 _ _ _ H). apply in_or_app. left. exact Hin.
Qed.

(** On the token definitions of [parseCSS], [buildGraph] has one node per
    definition, in order, whose edges are the definition's references. *)
Lemma build_graph_of_parse (css : string) :
  buildGraph (tokenDefs (parseCSS css))
  = map (fun '(n, d) => (n, refs d)) (tokenDefs (parseCSS css)).
Proof.
  unfold buildGraph. rewrite (build_graph_acc _ [] []); [reflexivity|].
  apply parse_css_unique_names.
Qed.

Lemma edges_of_graph (defs : list (string * TokenDef)) n :
  In n (flat_map snd (map (fun '(m, d) => (m, refs d)) defs))
  <-> exists m d, In (m, d) defs /\ In n (refs d).
Proof.
  rewrite in_flat_map. split.
  - intros ([m ds] & Hin & Hn). apply in_map_iff in Hin as ([m' d] & E & Hin).
    injection E as <- <-. exists m', d. auto.
  - intros (m & d & Hin & Hn). exists (m, refs d). split; [|exact Hn].
    apply in_map_iff. exists (m, d). auto.
Qed.

(** On a parsed stylesheet, [findOrphans] lists exactly the defined tokens
    that no token definition references and no rule uses. *)
Theorem orphans_exact (css n : string) :
  let p := parseCSS css in
  In n (findOrphans (tokenDefs p) (buildGraph (tokenDefs p)) (ruleUsages p)) <->
  In n (JsMap.keys (tokenDefs p))
  /\ (forall m d, In (m, d) (tokenDefs p) -> ~ In n (refs d))
  /\ ~ In n (ruleUsages p).
Proof.
  cbv zeta. rewrite build_graph_of_parse. unfold findOrphans. rewrite filter_In.
  rewrite andb_true_iff, !negb_true_iff, !existsb_eqb_notin, edges_of_graph.
  split.
  - intros (Hk & Hr & Hu). repeat split; auto. intros m d Hin Hn. apply Hr. eauto.
  - intros (Hk & Hr & Hu). repeat split; auto. intros (m & d & Hin & Hn). exact (Hr m d Hin Hn).
Qed.

(** On a parsed stylesheet, [findUnusedSemantics] lists exactly the defined
    semantic tokens that no component token references and no rule uses. *)
Theorem unused_semantics_exact (css n : string) :
  let p := parseCSS css in
  In n (findUnusedSemantics (tokenDefs p) (buildGraph (tokenDefs p)) (ruleUsages p)) <->
  In n (JsMap.keys (tokenDefs p)) /\ getTier n = Semantic
  /\ (forall m d, In (m, d) (tokenDefs p) -> getTier m = Component -> ~ In n (refs d))
  /\ ~ In n (ruleUsages p).
Proof.
  cbv zeta. rewrite build_graph_of_parse. unfold findUnusedSemantics. rewrite filter_In.
  rewrite !andb_true_iff, !negb_true_iff, !existsb_eqb_notin, tier_eqb_true.
  assert (Hc : forall defs : list (string * TokenDef),
            In n (flat_map (fun '(name, deps) =>
                     if tier_eqb (getTier name) Component
                     then filter (fun dep => tier_eqb (getTier dep) Semantic) deps else [])
                   (map (fun '(m, d) => (m, refs d)) defs))
            <-> exists m d, In (m, d) defs /\ getTier m = Component /\ In n (refs d)
                            /\ getTier n = Semantic).
  { intros defs. rewrite in_flat_map. split.
    - intros ([m ds] & Hin & Hn). apply in_map_iff in Hin as ([m' d] & E & Hin).
      injection E as <- <-.
      destruct (tier_eqb (getTier m') Component) eqn:Et; [|destruct Hn].
      apply filter_In in Hn as [Hn Hs]. apply tier_eqb_true in Et, Hs. exists m', d. auto.
    - intros (m & d & Hin & Hm & Hn & Hs). exists (m, refs d). split.
      + apply in_map_iff. exists (m, d). auto.
      + replace (tier_eqb (getTier m) Component) with true by (symmetry; apply tier_eqb_true; exact Hm).
        apply filter_In. split; [exact Hn | apply tier_eqb_true; exact Hs]. }
  rewrite Hc. split.
  - intros (Hk & (Hs & Hr) & Hu). repeat split; auto. intros m d Hin Hm Hn. apply Hr. eauto 7.
  - intros (Hk & Hs & Hr & Hu). repeat split; auto.
    intros (m & d & Hin & Hm & Hn & _). exact (Hr m d Hin Hm Hn).
Qed.

End RuleFacts.

Module FigmaMore.
Import Figma ThemeFacts.

Lemma first_segment_split n : existsb (Ascii.eqb "."%char) (list_ascii_of_string n) = true ->
  exists rest, n = first_segment n ++ "." ++ rest.
Proof.
  induction n as [|c s IH]; [discriminate|]. cbn [list_ascii_of_string existsb first_segment].
  destruct (Ascii.eqb_spec c "."%char) as [->|Hc].
  - intros _. exists s. reflexivity.
  - assert (E1 : Ascii.eqb c "."%char = false) by (apply Ascii.eqb_neq; exact Hc).
    assert (E2 : Ascii.eqb "."%char c = false) by (rewrite Ascii.eqb_sym; exact E1).
    rewrite ?E1, ?E2. cbn [orb].
    intros H. destruct (IH H) as [rest E]. exists rest. rewrite E at 1. reflexivity.
Qed.

Lemma dots_app a b : dots_to_dashes (a ++ b) = dots_to_dashes a ++ dots_to_dashes b.
Proof. induction a; cbn [append dots_to_dashes]; [reflexivity|]. rewrite IHa. reflexivity. Qed.

(** A dotted Figma name of a valid tier becomes, through [figmaNameToCSSVar],
    a CSS name of the same tier. *)
Theorem figma_tier_kept_in_css_name (n : string) (t : tier) :
  getTierFromFigmaName n = Some t ->
  existsb (Ascii.eqb "."%char) (list_ascii_of_string n) = true ->
  getTierFromCSSName (figmaNameToCSSVar n) = Some t.
Proof.
  intros Ht Hdot. destruct (first_segment_split n Hdot) as [rest E].
  unfold getTierFromFigmaName in Ht. unfold figmaNameToCSSVar.
  rewrite E, !dots_app.
  destruct (String.eqb_spec (first_segment n) "primitive") as [->|H1];
    [injection Ht as <-; reflexivity|].
  destruct (String.eqb_spec (first_segment n) "semantic") as [->|H2];
    [injection Ht as <-; reflexivity|].
  destruct (String.eqb_spec (first_segment n) "component") as [->|H3];
    [injection Ht as <-; reflexivity | discriminate].
Qed.

(** An entry of the [tokens] array that the callback of [parseFigmaExport]
    accepts: a string [name] that is not blank and a string [value]. *)
Definition entry_valid (e : RawEntry) : bool :=
  match raw_name e, raw_value e with
  | Some n, Some _ => negb (String.eqb (trim n) "")
  | _, _ => false
  end.

(** When [parseFigmaExport] succeeds, the file had a [tokens] array of valid
    entries, and the result has one token per entry, in order, with the
    entry's name and value and the CSS name, CSS value and tier derived from
    them. *)
Theorem parse_figma_success (j : FigmaJson) (ts : list FigmaToken) :
  parseFigmaExport j = inr ts ->
  exists es, j = TokensArray es /\ forallb entry_valid es = true
    /\ map (fun t => (Some (figmaName t), Some (figmaValue t))) ts
       = map (fun e => (raw_name e, raw_value e)) es
    /\ Forall (fun t => cssName t = figmaNameToCSSVar (figmaName t)
                        /\ cssValue t = figmaValueToCSS (figmaValue t)
                        /\ ftier t = getTierFromFigmaName (figmaName t)) ts.
Proof.
  destruct j as [| |es]; try discriminate. cbn [parseFigmaExport]. intros H. exists es.
  split; [reflexivity|]. revert H. generalize 0 as idx. revert ts.
  induction es as [|e es IH]; intros ts idx H; cbn [convert_entries] in H.
  - injection H as <-. repeat split; constructor.
  - destruct (convert_entry idx e) as [err|t] eqn:Hc; [discriminate|].
    destruct (convert_entries (S idx) es) as [err|ts'] eqn:Hr; [discriminate|].
    injection H as <-. destruct (IH ts' (S idx) Hr) as (Hv & Hm & Hf).
    unfold convert_entry in Hc. cbn [forallb map]. unfold entry_valid at 1.
    destruct (raw_name e) as [n|]; [|discriminate].
    destruct (String.eqb (trim n) "") eqn:Hn; [discriminate|].
    destruct (raw_value e) as [v|]; [|discriminate]. injection Hc as <-.
    cbn. rewrite Hv, Hm. split; [reflexivity|]. split; [reflexivity|]. constructor; [cbn; auto | exact Hf].
Qed.

End FigmaMore.

Module FigmaRefFacts.
Import Figma.

(** A Figma reference [{name}] with a non-empty single-line [name] is
    recognised: [extractFigmaRef] gives the CSS name of [name] and
    [figmaValueToCSS] wraps that same name in [var()]. *)
Theorem figma_ref_round_trip (n : string) :
  n <> "" -> has_lineterm n = false ->
  extractFigmaRef ("{" ++ n ++ "}") = Some (figmaNameToCSSVar n) /\
  figmaValueToCSS ("{" ++ n ++ "}") = "var(" ++ figmaNameToCSSVar n ++ ")".
Proof.
  intros Hne Hl.
  assert (E : match_brace_ref ("{" ++ n ++ "}") = Some n).
  { cbn [append]. unfold match_brace_ref. rewrite Ascii.eqb_refl.
    rewrite ThemeFacts.list_ascii_app, rev_app_distr. cbn [list_ascii_of_string rev app].
    rewrite rev_involutive, string_of_list_ascii_of_string, Ascii.eqb_refl, Hl.
    destruct (String.eqb_spec n ""); [contradiction|]. reflexivity. }
  unfold extractFigmaRef, figmaValueToCSS. rewrite E. auto.
Qed.

Definition ref_ok (t : FigmaToken) : Prop :=
  exists tt, ftier t = Some tt /\
    forall r, extractFigmaRef (figmaValue t) = Some r ->
      (tt = Semantic /\ getTierFromCSSName r = Some Primitive)
      \/ (tt = Component /\ getTierFromCSSName r = Some Semantic).

Lemma check_token_ok t : check_token t = [] <-> ref_ok t.
Proof.
  unfold check_token, ref_ok. destruct (ftier t) as [tt|].
  - destruct (extractFigmaRef (figmaValue t)) as [r|].
    + destruct (getTierFromCSSName r) as [rt|] eqn:Ert.
      * split.
        -- intros H. exists tt. split; [reflexivity|]. intros r' Er. injection Er as <-.
           destruct rt, tt; cbn in H; try discriminate;
             solve [left; split; [reflexivity | exact Ert] | right; split; [reflexivity | exact Ert]].
        -- intros (tt' & E & H). injection E as <-. specialize (H r eq_refl).
           destruct H as [[-> E]|[-> E]]; rewrite Ert in E; injection E as ->; reflexivity.
      * split; [discriminate|]. intros (tt' & E & H). destruct (H r eq_refl) as [[_ E2]|[_ E2]]; rewrite Ert in E2; discriminate.
    + split; [intros _; exists tt; split; [reflexivity | intros ? ?; discriminate] | reflexivity].
  - split; [discriminate | intros (tt & E & _); discriminate].
Qed.

(** [validateFigmaTiers] finds no error exactly when every token has a Figma
    tier and every reference goes from a semantic token to a primitive one
    or from a component token to a semantic one; it reports at most one
    error per token. *)
Theorem figma_tiers_pass_exactly (ts : list FigmaToken) :
  (validateFigmaTiers ts = [] <-> Forall ref_ok ts) /\
  length (validateFigmaTiers ts) <= length ts.
Proof.
  split.
  - unfold validateFigmaTiers. induction ts as [|t ts IH]; cbn [flat_map].
    + split; [constructor | reflexivity].
    + rewrite Forall_cons_iff, <- check_token_ok, <- IH. split.
      * intros H. apply app_eq_nil in H. exact H.
      * intros [-> ->]. reflexivity.
  - unfold validateFigmaTiers. induction ts as [|t ts IH]; cbn [flat_map length]; [lia|].
    rewrite length_app. assert (length (check_token t) <= 1).
    { unfold check_token. destruct (ftier t); [|cbn; lia].
      destruct (extractFigmaRef _); [|cbn; lia]. destruct (getTierFromCSSName _) as [rt|]; [|cbn; lia].
      destruct (negb _); [cbn; lia|]. destruct (existsb _ _); cbn; lia. }
    lia.
Qed.

End FigmaRefFacts.

Module DiffMore.
Import Text Figma.

Lemma keys_set_iff {V} (x k : string) (v : V) m :
  In k (JsMap.keys (JsMap.set x v m)) <-> k = x \/ In k (JsMap.keys m).
Proof.
  destruct (DfsModel.keys_set x v m) as [E|[Hn E]]; rewrite E.
  - split; [auto|]. intros [->|H]; auto.
    destruct (in_dec string_dec x (JsMap.keys m)) as [Hi|Hi]; auto.
    exfalso. apply (JsMapFacts.get_none_iff x m) in Hi.
    pose proof (JsMapFacts.get_set_same x v m) as Hs.
    assert (Hk : In x (JsMap.keys (JsMap.set x v m))).
    { destruct (in_dec string_dec x (JsMap.keys (JsMap.set x v m))) as [H|H]; auto.
      apply JsMapFacts.get_none_iff in H. congruence. }
    rewrite E in Hk. apply JsMapFacts.get_none_iff in Hi. contradiction.
  - rewrite in_app_iff. simpl. intuition.
Qed.

Lemma has_iff {V} k (m : list (string * V)) : JsMap.has k m = true <-> In k (JsMap.keys m).
Proof.
  unfold JsMap.has. pose proof (JsMapFacts.get_none_iff k m) as H.
  destruct (JsMap.get k m); split; intros H1; auto; try discriminate.
  - destruct (in_dec string_dec k (JsMap.keys m)) as [Hi|Hi]; auto.
    apply H in Hi. discriminate.
  - exfalso. apply H; auto.
Qed.

Lemma fold_set_keys {V} (l acc : list (string * V)) k :
  In k (JsMap.keys (fold_left (fun m '(k, v) => JsMap.set k v m) l acc))
  <-> In k (JsMap.keys acc) \/ In k (JsMap.keys l).
Proof.
  revert acc; induction l as [|[k' v] l IH]; intros acc; cbn [fold_left].
  - simpl. tauto.
  - rewrite IH, keys_set_iff. unfold JsMap.keys. cbn [map fst In]. split; intros; intuition (subst; auto).
Qed.

Lemma fold_set_keys_nodup {V} (l acc : list (string * V)) :
  NoDup (JsMap.keys acc) ->
  NoDup (JsMap.keys (fold_left (fun m '(k, v) => JsMap.set k v m) l acc)).
Proof.
  revert acc; induction l as [|[k' v] l IH]; intros acc H; cbn [fold_left]; auto.
  apply IH, DfsModel.set_nodup, H.
Qed.

Lemma tok_lines_nodup st n ls :
  NoDup (JsMap.keys (ts_tokens st)) -> NoDup (JsMap.keys (ts_tokens (tok_lines st n ls))).
Proof.
  revert st n; induction ls as [|l ls IH]; intros st n H; cbn [tok_lines]; auto.
  apply IH. unfold tok_line.
  destruct (negb (ts_inRoot st) && Regex.is_root_open (trim l)); cbn;
  match goal with |- context [if ?b then _ else _] => destruct b end; cbn; auto;
  destruct (Regex.match_def (trim l)) as [[? ?]|]; auto; apply DfsModel.set_nodup; auto.
Qed.

Lemma parse_css_tokens_nodup text : NoDup (JsMap.keys (parseCSSTokens text)).
Proof. apply tok_lines_nodup. constructor. Qed.

Definition manageable_b (n : string) : bool :=
  match getTierFromCSSName n with Some t => valid_figma_tier t | None => false end.

Lemma manageable_b_iff n : manageable_b n = true <-> DiffFacts.manageable n.
Proof.
  unfold manageable_b, DiffFacts.manageable. destruct (getTierFromCSSName n) as [t|].
  - split; [eauto | intros (t' & E & H); congruence].
  - split; [discriminate | intros (t' & E & _); discriminate].
Qed.

Lemma relevant_filter (l acc : list (string * CssToken)) :
  NoDup (JsMap.keys (app acc l)) ->
  fold_left DiffFacts.relevant_set l acc = app acc (filter (fun p => manageable_b (fst p)) l).
Proof.
  revert acc; induction l as [|[k v] l IH]; intros acc Hnd; cbn [fold_left filter fst].
  - now rewrite app_nil_r.
  - unfold DiffFacts.relevant_set at 2. unfold manageable_b.
    unfold JsMap.keys in Hnd. rewrite map_app in Hnd. cbn [map fst] in Hnd.
    pose proof Hnd as Hnd2. apply NoDup_remove_2 in Hnd2. rewrite in_app_iff in Hnd2.
    assert (Hacc : NoDup (JsMap.keys (app acc l))).
    { unfold JsMap.keys. rewrite map_app. eapply NoDup_remove_1; eauto. }
    destruct (getTierFromCSSName k) as [t|]; [destruct (valid_figma_tier t)|].
    + rewrite JsMapFacts.set_absent by tauto. rewrite IH.
      * now rewrite <- app_assoc.
      * unfold JsMap.keys. rewrite <- app_assoc, map_app. exact Hnd.
    + apply IH; exact Hacc.
    + apply IH; exact Hacc.
Qed.

Lemma in_filter_keys (l : list (string * CssToken)) n :
  In n (JsMap.keys (filter (fun p => manageable_b (fst p)) l))
  <-> In n (JsMap.keys l) /\ manageable_b n = true.
Proof.
  induction l as [|[k v] l IH]; cbn [filter fst]; [simpl; tauto|].
  destruct (manageable_b k) eqn:E; cbn [JsMap.keys map fst In]; unfold JsMap.keys in IH; rewrite IH;
  split; intuition; subst; congruence.
Qed.

(** Step of the classification loop, with its names. *)
Definition names (acc : list Added * list Modified * list string) : list string :=
  let '(ad, md, un) := acc in app (map a_name ad) (app (map m_name md) un).

Lemma classify_perm rel (l : list (string * string)) acc :
  Permutation (names (fold_left (DiffFacts.classify rel) l acc)) (app (names acc) (JsMap.keys l)).
Proof.
  revert acc; induction l as [|[k v] l IH]; intros [[ad md] un]; cbn [fold_left].
  - cbn [JsMap.keys map]. now rewrite app_nil_r.
  - eapply perm_trans; [apply IH|]. unfold JsMap.keys. cbn [map fst].
    replace (app (names (ad, md, un)) (k :: map fst l))
      with (app (app (names (ad, md, un)) [k]) (map fst l)) by (now rewrite <- app_assoc).
    apply Permutation_app_tail.
    unfold DiffFacts.classify. cbn [names].
    destruct (JsMap.get k rel) as [d|]; [destruct (negb (String.eqb (ct_value d) v))|]; cbn [names];
      rewrite ?map_app; cbn [map a_name m_name].
    all: rewrite <- ?app_assoc; repeat apply Permutation_app_head; cbn [app];
      first [reflexivity | rewrite ?app_assoc; apply Permutation_cons_append].
Qed.

Lemma classify_added rel (l : list (string * string)) acc :
  map a_name (fst (fst (fold_left (DiffFacts.classify rel) l acc)))
  = app (map a_name (fst (fst acc)))
        (JsMap.keys (filter (fun p => match JsMap.get (fst p) rel with None => true | Some _ => false end) l)).
Proof.
  revert acc; induction l as [|[k v] l IH]; intros [[ad md] un]; cbn [fold_left filter].
  - cbn. now rewrite app_nil_r.
  - rewrite IH. unfold DiffFacts.classify. cbn [fst].
    destruct (JsMap.get k rel) as [d|]; [destruct (negb (String.eqb (ct_value d) v))|]; cbn [fst];
      rewrite ?map_app, <- ?app_assoc; reflexivity.
Qed.

Lemma diff_unfold cssTokens fts :
  diffTokens cssTokens fts =
  let figmaMap := JsMap.of_entries (map (fun t => (cssName t, cssValue t)) fts) in
  let cssRelevant := fold_left DiffFacts.relevant_set cssTokens [] in
  let '(ad, md, un) := fold_left (DiffFacts.classify cssRelevant) figmaMap ([], [], []) in
  mkDiff ad md (flat_map (fun '(name, data) =>
                            if JsMap.has name figmaMap then [] else [mkRemoved name (ct_value data)])
                         cssRelevant) un.
Proof. reflexivity. Qed.

Lemma relevant_keys cssTokens n :
  In n (JsMap.keys (fold_left DiffFacts.relevant_set cssTokens [])) <->
  In n (JsMap.keys cssTokens) /\ DiffFacts.manageable n.
Proof.
  rewrite <- manageable_b_iff.
  assert (H : forall acc, In n (JsMap.keys (fold_left DiffFacts.relevant_set cssTokens acc)) <->
                          In n (JsMap.keys acc) \/ (In n (JsMap.keys cssTokens) /\ manageable_b n = true)).
  { induction cssTokens as [|[k v] l IH]; intros acc; cbn [fold_left]; [simpl; tauto|].
    rewrite IH.
    assert (E : manageable_b k = true /\ DiffFacts.relevant_set acc (k, v) = JsMap.set k v acc
                \/ manageable_b k = false /\ DiffFacts.relevant_set acc (k, v) = acc).
    { unfold manageable_b, DiffFacts.relevant_set.
      destruct (getTierFromCSSName k) as [t|]; [destruct (valid_figma_tier t)|]; auto. }
    destruct E as [[Ek E]|[Ek E]]; rewrite E; [rewrite keys_set_iff|];
      unfold JsMap.keys; cbn [map fst In]; split; intros Hx; intuition (subst; try congruence). }
  rewrite H. simpl. tauto.
Qed.

(** [diffTokens] puts every name of the external batch in exactly one of the
    added, modified and unchanged lists; a name is added exactly when it is
    not a stylesheet token of a manageable tier. *)
Theorem diff_partitions_figma_names (cssTokens : list (string * CssToken)) (fts : list FigmaToken) :
  let d := diffTokens cssTokens fts in
  NoDup (app (map a_name (added d)) (app (map m_name (modified d)) (unchanged d))) /\
  (forall n, In n (app (map a_name (added d)) (app (map m_name (modified d)) (unchanged d)))
             <-> In n (map cssName fts)) /\
  (forall n, In n (map a_name (added d))
             <-> In n (map cssName fts) /\ ~ (In n (JsMap.keys cssTokens) /\ DiffFacts.manageable n)).
Proof.
  cbv zeta. rewrite diff_unfold. cbv zeta.
  set (fm := JsMap.of_entries (map (fun t => (cssName t, cssValue t)) fts)).
  set (rel := fold_left DiffFacts.relevant_set cssTokens []).
  pose proof (classify_perm rel fm ([], [], [])) as Hp.
  pose proof (classify_added rel fm ([], [], [])) as Ha.
  assert (Hfk : forall n, In n (JsMap.keys fm) <-> In n (map cssName fts)).
  { intros n. unfold fm, JsMap.of_entries.
    change (fold_left (fun m '(k, v) => JsMap.set k v m) _ []) with
      (fold_left (fun m '(k, v) => JsMap.set k v m) (map (fun t => (cssName t, cssValue t)) fts) []).
    rewrite fold_set_keys. unfold JsMap.keys. rewrite map_map. cbn. tauto. }
  assert (Hnd : NoDup (JsMap.keys fm)) by (apply fold_set_keys_nodup; constructor).
  destruct (fold_left (DiffFacts.classify rel) fm ([], [], [])) as [[ad md] un].
  cbn [added modified unchanged]. cbn [names app] in Hp. cbn [fst map app] in Ha.
  split; [|split].
  - eapply Permutation_NoDup; [symmetry; exact Hp | exact Hnd].
  - intros n. rewrite <- Hfk. split; intros H; [eapply Permutation_in; [exact Hp|exact H]|].
    eapply Permutation_in; [symmetry; exact Hp|exact H].
  - intros n. rewrite Ha, <- Hfk.
    assert (G : forall l : list (string * string),
               In n (JsMap.keys (filter (fun p => match JsMap.get (fst p) rel with None => true | Some _ => false end) l))
               <-> In n (JsMap.keys l) /\ JsMap.get n rel = None).
    { induction l as [|[k v] l IH]; cbn [filter fst]; [simpl; tauto|].
      destruct (JsMap.get k rel) eqn:E; cbn [JsMap.keys map fst In]; unfold JsMap.keys in IH; rewrite IH;
      split; intuition; subst; congruence. }
    rewrite G, JsMapFacts.get_none_iff. unfold rel. rewrite relevant_keys. tauto.
Qed.

(** On the tokens of [parseCSSTokens], [diffTokens] lists as removed exactly
    the stylesheet tokens of a manageable tier that the external batch does
    not name, with their stylesheet values. *)
Theorem diff_removed_exact (text : string) (fts : list FigmaToken) (r : Removed) :
  In r (removed (diffTokens (parseCSSTokens text) fts)) <->
  exists d, In (r_name r, d) (parseCSSTokens text) /\ r_cssValue r = ct_value d
            /\ DiffFacts.manageable (r_name r) /\ ~ In (r_name r) (map cssName fts).
Proof.
  rewrite diff_unfold. cbv zeta.
  set (fm := JsMap.of_entries (map (fun t => (cssName t, cssValue t)) fts)).
  assert (Hfk : forall n, In n (JsMap.keys fm) <-> In n (map cssName fts)).
  { intros n. unfold fm, JsMap.of_entries.
    rewrite fold_set_keys. unfold JsMap.keys. rewrite map_map. cbn. tauto. }
  rewrite (relevant_filter _ []) by apply parse_css_tokens_nodup. cbn [app].
  destruct (fold_left (DiffFacts.classify _) fm ([], [], [])) as [[ad md] un].
  cbn [removed]. rewrite in_flat_map. split.
  - intros ([n d] & Hin & Hr). apply filter_In in Hin as [Hin Hm]. cbn [fst] in Hm.
    destruct (JsMap.has n fm) eqn:Eh; [contradiction|]. destruct Hr as [<-|[]]. cbn.
    exists d. repeat split; auto.
    + now apply manageable_b_iff.
    + rewrite <- Hfk, <- has_iff, Eh. discriminate.
  - intros (d & Hin & Hv & Hm & Hn). exists (r_name r, d). split.
    + apply filter_In. split; auto. now apply manageable_b_iff.
    + destruct (JsMap.has (r_name r) fm) eqn:Eh.
      * apply has_iff, Hfk in Eh. contradiction.
      * left. destruct r; cbn in *; congruence.
Qed.

Lemma find_app {A} (f : A -> bool) l1 l2 :
  find f (app l1 l2) = match find f l1 with Some x => Some x | None => find f l2 end.
Proof. induction l1 as [|a l1 IH]; cbn; [reflexivity|]. destruct (f a); auto. Qed.

(** In [buildFigmaGraph], the node of a name is built from the last token
    of that name, and its edge list is its single reference or empty. *)
Theorem figma_graph_last_token_wins (ts : list FigmaToken) (x : string) :
  JsMap.get x (buildFigmaGraph ts)
  = match find (fun t => String.eqb (cssName t) x) (rev ts) with
    | Some t => Some (match extractFigmaRef (figmaValue t) with Some r => [r] | None => [] end)
    | None => None
    end.
Proof.
  unfold buildFigmaGraph.
  assert (H : forall g, JsMap.get x (fold_left (fun g t => JsMap.set (cssName t)
                          (match extractFigmaRef (figmaValue t) with
                           | Some r => [r] | None => [] end) g) ts g)
    = match find (fun t => String.eqb (cssName t) x) (rev ts) with
      | Some t => Some (match extractFigmaRef (figmaValue t) with Some r => [r] | None => [] end)
      | None => JsMap.get x g
      end).
  { induction ts as [|t ts IH]; intros g; cbn [fold_left rev find]; [reflexivity|].
    rewrite IH, find_app. cbn [find].
    destruct (find _ (rev ts)); [reflexivity|].
    rewrite DfsModel.get_set. destruct (String.eqb_spec x (cssName t)) as [->|Hne].
    - now rewrite String.eqb_refl.
    - destruct (String.eqb_spec (cssName t) x); [congruence|reflexivity]. }
  apply H.
Qed.

End DiffMore.

Module MergeFacts.
Import Text Figma Apply.

Definition add_step : list (string * string) * list string * list ChangeEntry -> Added ->
    list (string * string) * list string * list ChangeEntry :=
  fun '(tk, rs, cl) item =>
  let prev := or_null (JsMap.get (a_name item) tk) in
  (JsMap.set (a_name item) (a_figmaValue item) tk,
   filter (fun x => negb (String.eqb x (a_name item))) rs,
   app cl [mkChange "add" (a_name item) (Some (a_figmaValue item)) prev]).

Definition update_step : list (string * string) * list ChangeEntry -> Modified ->
    list (string * string) * list ChangeEntry :=
  fun '(tk, cl) item =>
  let prev := match or_null (JsMap.get (m_name item) tk) with
              | Some p => Some p | None => Some (m_cssValue item) end in
  (JsMap.set (m_name item) (m_figmaValue item) tk,
   app cl [mkChange "update" (m_name item) (Some (m_figmaValue item)) prev]).

Definition remove_step : list (string * string) * list string * list ChangeEntry -> Removed ->
    list (string * string) * list string * list ChangeEntry :=
  fun '(tk, rs, cl) item =>
  let prev := or_null (JsMap.get (r_name item) tk) in
  (obj_delete (r_name item) tk, JsMap.set_add (r_name item) rs,
   app cl [mkChange "remove" (r_name item) None prev]).

Lemma merge_unfold current ad up rm :
  mergeRegistryChanges current ad up rm =
  let '(t1, r1, c1) := fold_left add_step ad
        (reg_tokens current, fold_left (fun s x => JsMap.set_add x s) (reg_removed current) [], []) in
  let '(t2, c2) := fold_left update_step up (t1, c1) in
  let '(t3, r3, c3) := fold_left remove_step rm (t2, r1, c2) in
  mkRegistry t3 r3 c3.
Proof. reflexivity. Qed.

(** Projections of the three loops. *)
Lemma add_fold_proj ad tk rs cl :
  let r := fold_left add_step ad (tk, rs, cl) in
  fst (fst r) = fold_left (fun t i => JsMap.set (a_name i) (a_figmaValue i) t) ad tk /\
  snd (fst r) = fold_left (fun s i => filter (fun x => negb (String.eqb x (a_name i))) s) ad rs /\
  map (fun c => (ce_action c, ce_token c, ce_value c)) (snd r)
    = app (map (fun c => (ce_action c, ce_token c, ce_value c)) cl) (map (fun a => ("add", a_name a, Some (a_figmaValue a))) ad).
Proof.
  revert tk rs cl; induction ad as [|a ad IH]; intros tk rs cl; cbn [fold_left].
  - cbn. rewrite app_nil_r. auto.
  - cbv zeta. destruct (IH (JsMap.set (a_name a) (a_figmaValue a) tk)
                          (filter (fun x => negb (String.eqb x (a_name a))) rs)
                          (app cl [mkChange "add" (a_name a) (Some (a_figmaValue a))
                                      (or_null (JsMap.get (a_name a) tk))])) as (H1 & H2 & H3).
    cbn [add_step]. repeat split; auto. rewrite H3, map_app, <- app_assoc. reflexivity.
Qed.

Lemma update_fold_proj up tk cl :
  let r := fold_left update_step up (tk, cl) in
  fst r = fold_left (fun t i => JsMap.set (m_name i) (m_figmaValue i) t) up tk /\
  map (fun c => (ce_action c, ce_token c, ce_value c)) (snd r)
    = app (map (fun c => (ce_action c, ce_token c, ce_value c)) cl) (map (fun m => ("update", m_name m, Some (m_figmaValue m))) up).
Proof.
  revert tk cl; induction up as [|a up IH]; intros tk cl; cbn [fold_left].
  - cbn. rewrite app_nil_r. auto.
  - cbn [update_step]. cbv zeta.
    match goal with |- context [fold_left update_step up (?t, ?c)] =>
      destruct (IH t c) as (H1 & H3) end.
    split; auto. rewrite H3, map_app, <- app_assoc. reflexivity.
Qed.

Lemma remove_fold_proj rm tk rs cl :
  let r := fold_left remove_step rm (tk, rs, cl) in
  fst (fst r) = fold_left (fun t i => obj_delete (r_name i) t) rm tk /\
  snd (fst r) = fold_left (fun s i => JsMap.set_add (r_name i) s) rm rs /\
  map (fun c => (ce_action c, ce_token c, ce_value c)) (snd r)
    = app (map (fun c => (ce_action c, ce_token c, ce_value c)) cl) (map (fun r => ("remove", r_name r, @None string)) rm).
Proof.
  revert tk rs cl; induction rm as [|a rm IH]; intros tk rs cl; cbn [fold_left].
  - cbn. rewrite app_nil_r. auto.
  - cbn [remove_step]. cbv zeta.
    match goal with |- context [fold_left remove_step rm (?t, ?s, ?c)] =>
      destruct (IH t s c) as (H1 & H2 & H3) end.
    repeat split; auto. rewrite H3, map_app, <- app_assoc. reflexivity.
Qed.

Lemma merge_components current ad up rm :
  let m := mergeRegistryChanges current ad up rm in
  reg_tokens m = fold_left (fun t i => obj_delete (r_name i) t) rm
                   (fold_left (fun t i => JsMap.set (m_name i) (m_figmaValue i) t) up
                      (fold_left (fun t i => JsMap.set (a_name i) (a_figmaValue i) t) ad
                         (reg_tokens current))) /\
  reg_removed m = fold_left (fun s i => JsMap.set_add (r_name i) s) rm
                    (fold_left (fun s i => filter (fun x => negb (String.eqb x (a_name i))) s) ad
                       (fold_left (fun s x => JsMap.set_add x s) (reg_removed current) [])) /\
  map (fun c => (ce_action c, ce_token c, ce_value c)) (reg_changelog m)
    = app (map (fun a => ("add", a_name a, Some (a_figmaValue a))) ad)
          (app (map (fun m => ("update", m_name m, Some (m_figmaValue m))) up) (map (fun r => ("remove", r_name r, @None string)) rm)).
Proof.
  cbv zeta. rewrite merge_unfold.
  pose proof (add_fold_proj ad (reg_tokens current)
                (fold_left (fun s x => JsMap.set_add x s) (reg_removed current) []) []) as (A1 & A2 & A3).
  destruct (fold_left add_step ad _) as [[t1 r1] c1]. cbn [fst snd] in A1, A2, A3.
  pose proof (update_fold_proj up t1 c1) as (U1 & U3).
  destruct (fold_left update_step up (t1, c1)) as [t2 c2]. cbn [fst snd] in U1, U3.
  pose proof (remove_fold_proj rm t2 r1 c2) as (R1 & R2 & R3).
  destruct (fold_left remove_step rm (t2, r1, c2)) as [[t3 r3] c3]. cbn [fst snd] in R1, R2, R3.
  cbn [reg_tokens reg_removed reg_changelog]. subst. repeat split; auto.
  rewrite R3, U3, A3. cbn [map app]. now rewrite <- app_assoc.
Qed.

Lemma fold_set_get {A} (f : A -> string) (g : A -> string) (l : list A) t0 n :
  JsMap.get n (fold_left (fun t i => JsMap.set (f i) (g i) t) l t0)
  = match find (fun i => String.eqb (f i) n) (rev l) with
    | Some i => Some (g i) | None => JsMap.get n t0 end.
Proof.
  revert t0; induction l as [|a l IH]; intros t0; cbn [fold_left rev]; [reflexivity|].
  rewrite IH, DiffMore.find_app. cbn [find].
  destruct (find _ (rev l)); [reflexivity|].
  rewrite DfsModel.get_set. destruct (String.eqb_spec n (f a)) as [->|Hne].
  - now rewrite String.eqb_refl.
  - destruct (String.eqb_spec (f a) n); [congruence|reflexivity].
Qed.

Lemma get_obj_delete x n t :
  JsMap.get n (obj_delete x t) = if String.eqb n x then None else JsMap.get n t.
Proof.
  induction t as [|[k v] t IH].
  - cbn. destruct (String.eqb n x); reflexivity.
  - change (obj_delete x ((k, v) :: t))
      with (if negb (String.eqb x k) then (k, v) :: obj_delete x t else obj_delete x t).
    destruct (String.eqb_spec x k) as [->|Hne]; cbn [negb JsMap.get].
    + rewrite IH. destruct (String.eqb n k); reflexivity.
    + rewrite IH. destruct (String.eqb_spec n x) as [->|]; [|reflexivity].
      destruct (String.eqb_spec x k); [congruence|reflexivity].
Qed.

Lemma fold_delete_get (rm : list Removed) t n :
  JsMap.get n (fold_left (fun t i => obj_delete (r_name i) t) rm t)
  = if existsb (String.eqb n) (map r_name rm) then None else JsMap.get n t.
Proof.
  revert t; induction rm as [|r rm IH]; intros t; cbn [fold_left map existsb]; [reflexivity|].
  rewrite IH, get_obj_delete. destruct (String.eqb n (r_name r)); cbn [orb];
  destruct (existsb _ _); reflexivity.
Qed.

Lemma in_set_add x n s : In n (JsMap.set_add x s) <-> In n s \/ n = x.
Proof.
  unfold JsMap.set_add. destruct (existsb (String.eqb x) s) eqn:E.
  - apply existsb_exists in E as (y & Hy & Ey). apply String.eqb_eq in Ey. subst y.
    split; [auto|]. intros [H| ->]; auto.
  - rewrite in_app_iff. cbn. intuition.
Qed.

Lemma nodup_set_add x s : NoDup s -> NoDup (JsMap.set_add x s).
Proof.
  intros H. unfold JsMap.set_add. destruct (existsb (String.eqb x) s) eqn:E; auto.
  apply NoDup_app; auto.
  - repeat constructor. intros [].
  - intros y Hy [Ey|[]]. subst y. assert (existsb (String.eqb x) s = true) by
      (apply existsb_exists; exists x; split; auto; apply String.eqb_refl). congruence.
Qed.

Lemma fold_set_add_in {A} (f : A -> string) (l : list A) s n :
  In n (fold_left (fun s i => JsMap.set_add (f i) s) l s) <-> In n s \/ In n (map f l).
Proof.
  revert s; induction l as [|a l IH]; intros s; cbn [fold_left map In]; [tauto|].
  rewrite IH, in_set_add. intuition (subst; auto).
Qed.

Lemma fold_set_add_nodup {A} (f : A -> string) (l : list A) s :
  NoDup s -> NoDup (fold_left (fun s i => JsMap.set_add (f i) s) l s).
Proof.
  revert s; induction l as [|a l IH]; intros s H; cbn [fold_left]; auto.
  apply IH, nodup_set_add, H.
Qed.

Lemma fold_filter_in (ad : list Added) s n :
  In n (fold_left (fun s i => filter (fun x => negb (String.eqb x (a_name i))) s) ad s)
  <-> In n s /\ ~ In n (map a_name ad).
Proof.
  revert s; induction ad as [|a ad IH]; intros s; cbn [fold_left map In]; [tauto|].
  rewrite IH, filter_In. destruct (String.eqb_spec n (a_name a)); cbn [negb]; intuition congruence.
Qed.

Lemma fold_filter_nodup (ad : list Added) s :
  NoDup s -> NoDup (fold_left (fun s i => filter (fun x => negb (String.eqb x (a_name i))) s) ad s).
Proof.
  revert s; induction ad as [|a ad IH]; intros s H; cbn [fold_left]; auto.
  apply IH, NoDup_filter, H.
Qed.

(** [mergeRegistryChanges] writes one changelog entry per change: the
    additions, then the updates, then the removals, each in order, with the
    new value (none for a removal). *)
Theorem merge_changelog_order (current : Registry) ad up rm :
  map (fun c => (ce_action c, ce_token c, ce_value c))
      (reg_changelog (mergeRegistryChanges current ad up rm))
  = app (map (fun a => ("add", a_name a, Some (a_figmaValue a))) ad)
        (app (map (fun m => ("update", m_name m, Some (m_figmaValue m))) up)
             (map (fun r => ("remove", r_name r, @None string)) rm)).
Proof. apply (merge_components current ad up rm). Qed.

(** The removed list of the merged registry has no duplicate and holds
    exactly the names removed now and the names removed before that are not
    added now. *)
Theorem merge_removed_list (current : Registry) ad up rm :
  let m := mergeRegistryChanges current ad up rm in
  NoDup (reg_removed m) /\
  (forall n, In n (reg_removed m)
             <-> In n (map r_name rm) \/ (In n (reg_removed current) /\ ~ In n (map a_name ad))).
Proof.
  cbv zeta. destruct (merge_components current ad up rm) as (_ & E & _). rewrite E.
  split.
  - apply fold_set_add_nodup, fold_filter_nodup, fold_set_add_nodup. constructor.
  - intros n. rewrite fold_set_add_in, fold_filter_in, fold_set_add_in. cbn [In]. rewrite ?map_id. tauto.
Qed.

(** After [mergeRegistryChanges], a name removed now has no value; otherwise
    its value is that of its last update, else of its last addition, else
    the value it had before. *)
Theorem merge_token_value (current : Registry) ad up rm n :
  JsMap.get n (reg_tokens (mergeRegistryChanges current ad up rm))
  = if existsb (String.eqb n) (map r_name rm) then None
    else match find (fun u => String.eqb (m_name u) n) (rev up) with
         | Some u => Some (m_figmaValue u)
         | None => match find (fun a => String.eqb (a_name a) n) (rev ad) with
                   | Some a => Some (a_figmaValue a)
                   | None => JsMap.get n (reg_tokens current)
                   end
         end.
Proof.
  destruct (merge_components current ad up rm) as (E & _ & _). rewrite E.
  rewrite fold_delete_get, (fold_set_get m_name m_figmaValue), (fold_set_get a_name a_figmaValue).
  reflexivity.
Qed.

End MergeFacts.

Module ReviewMore.
Import Apply.

Lemma review_items_spec {A} (items : list A) : forall aa sa answers (ap0 sk0 : list A),
  match review_items aa sa items answers ap0 sk0 with
  | Some (ap, sk, q, rest) =>
      Permutation (app ap sk) (app ap0 (app sk0 items))
      /\ exists used, answers = app used rest /\ length used <= length items
  | None => length answers < length items
  end.
Proof.
  induction items as [|it items IH]; intros aa sa answers ap0 sk0; cbn [review_items].
  - split; [now rewrite app_nil_r | exists []; auto].
  - destruct aa.
    { specialize (IH true sa answers (app ap0 [it]) sk0).
      destruct (review_items _ _ items _ _ _) as [[[[ap sk] q] rest]|]; [|cbn; lia].
      destruct IH as [Hp (used & Hu & Hl)]. split; [|exists used; cbn; split; [auto|lia]].
      rewrite Hp, <- app_assoc. apply Permutation_app_head. cbn [app]. apply Permutation_middle. }
    destruct sa.
    { specialize (IH false true answers ap0 (app sk0 [it])).
      destruct (review_items _ _ items _ _ _) as [[[[ap sk] q] rest]|]; [|cbn; lia].
      destruct IH as [Hp (used & Hu & Hl)]. split; [|exists used; cbn; split; [auto|lia]].
      rewrite Hp, <- app_assoc. reflexivity. }
    destruct answers as [|a answers]; [cbn; lia|].
    destruct (prompt a).
    + specialize (IH false false answers (app ap0 [it]) sk0).
      destruct (review_items _ _ items _ _ _) as [[[[ap sk] q] rest]|]; [|cbn; lia].
      destruct IH as [Hp (used & Hu & Hl)]. split; [|exists (a :: used); cbn; split; [congruence|lia]].
      rewrite Hp, <- app_assoc. apply Permutation_app_head. cbn [app]. apply Permutation_middle.
    + specialize (IH false false answers ap0 (app sk0 [it])).
      destruct (review_items _ _ items _ _ _) as [[[[ap sk] q] rest]|]; [|cbn; lia].
      destruct IH as [Hp (used & Hu & Hl)]. split; [|exists (a :: used); cbn; split; [congruence|lia]].
      rewrite Hp, <- app_assoc. reflexivity.
    + specialize (IH true false answers (app ap0 [it]) sk0).
      destruct (review_items _ _ items _ _ _) as [[[[ap sk] q] rest]|]; [|cbn; lia].
      destruct IH as [Hp (used & Hu & Hl)]. split; [|exists (a :: used); cbn; split; [congruence|lia]].
      rewrite Hp, <- app_assoc. apply Permutation_app_head. cbn [app]. apply Permutation_middle.
    + specialize (IH false true answers ap0 (app sk0 [it])).
      destruct (review_items _ _ items _ _ _) as [[[[ap sk] q] rest]|]; [|cbn; lia].
      destruct IH as [Hp (used & Hu & Hl)]. split; [|exists (a :: used); cbn; split; [congruence|lia]].
      rewrite Hp, <- app_assoc. reflexivity.
    + split; [|exists [a]; cbn; split; [reflexivity|lia]].
      now rewrite <- !app_assoc.
Qed.

(** [reviewCategory] splits the items into approved and skipped (a
    permutation of the items) and reads at most one answer per item; it
    runs out of input only when there are fewer answers than items. *)
Theorem review_category_consumes {A} (items : list A) (answers : list string) :
  match reviewCategory items answers with
  | Some (ap, sk, q, rest) =>
      Permutation (app ap sk) items
      /\ exists used, answers = app used rest /\ length used <= length items
  | None => length answers < length items
  end.
Proof.
  unfold reviewCategory. destruct items as [|it items].
  - split; [constructor | exists []; auto].
  - apply (review_items_spec (it :: items) false false answers [] []).
Qed.

Lemma review_items_apply_all {A} (items : list A) sa answers ap sk :
  review_items true sa items answers ap sk = Some (app ap items, sk, false, answers).
Proof.
  revert ap; induction items as [|it items IH]; intros ap; cbn [review_items].
  - now rewrite app_nil_r.
  - rewrite IH, <- app_assoc. reflexivity.
Qed.

Lemma review_items_skip_all {A} (items : list A) answers ap sk :
  review_items false true items answers ap sk = Some (ap, app sk items, false, answers).
Proof.
  revert sk; induction items as [|it items IH]; intros sk; cbn [review_items].
  - now rewrite app_nil_r.
  - rewrite IH, <- app_assoc. reflexivity.
Qed.

(** Answering [a] (or [s]) to the first prompt of a category approves (or
    skips) every item of it without reading another answer. *)
Theorem review_all_or_skip_all_stops_asking {A} (item : A) (items : list A) (a : string)
    (answers : list string) :
  (prompt a = All ->
   reviewCategory (item :: items) (a :: answers) = Some (item :: items, [], false, answers)) /\
  (prompt a = SkipAll ->
   reviewCategory (item :: items) (a :: answers) = Some ([], item :: items, false, answers)).
Proof.
  split; intros Hp; unfold reviewCategory; cbn [review_items]; rewrite Hp.
  - now rewrite review_items_apply_all.
  - now rewrite review_items_skip_all.
Qed.

End ReviewMore.

Module ApplyFacts.
Import Figma Apply.

(** The apply run stops for the same reasons as the dry run (no stylesheet,
    no export file, a parse error, architecture errors) and otherwise works
    on the dry run's diff. *)
Theorem apply_follows_dry_run (css : option string) (figma : option FigmaJson) (yes : bool)
    (reg : Registry) (answers : list string) :
  match dry_run_main css figma with
  | DRNoCss => apply_main css figma yes reg answers = ApNoCss
  | DRNoFigmaFile => apply_main css figma yes reg answers = ApNoFigmaFile
  | DRParseFailed e => apply_main css figma yes reg answers = ApParseFailed e
  | DRBlocked es => apply_main css figma yes reg answers = ApBlocked es
  | DRDiffed d => apply_main css figma yes reg answers = apply_after_diff yes d reg answers
  end.
Proof.
  unfold dry_run_main, apply_main.
  destruct css as [text|]; [|reflexivity]. destruct figma as [j|]; [|reflexivity].
  destruct (parseFigmaExport j) as [e|ts]; [reflexivity|].
  destruct (0 <? length (archErrors ts)); reflexivity.
Qed.

(** With [--yes] the apply run never waits for input; it exits with 1 when no
    stylesheet is found and otherwise with the dry run's exit status. *)
Theorem yes_mode_exit_status (css : option string) (figma : option FigmaJson) (reg : Registry)
    (answers : list string) :
  apply_exit (apply_main css figma true reg answers)
  = Some (match css with None => 1 | Some _ => dry_run_exit (dry_run_main css figma) end).
Proof.
  unfold dry_run_main, apply_main.
  destruct css as [text|]; [|reflexivity]. destruct figma as [j|]; [|reflexivity].
  destruct (parseFigmaExport j) as [e|ts]; [reflexivity|].
  destruct (0 <? length (archErrors ts)); [reflexivity|].
  cbn [dry_run_exit]. unfold apply_after_diff.
  destruct (_ && _); [reflexivity|]. cbn [review_phase negb andb quit].
  destruct (_ =? 0); reflexivity.
Qed.

End ApplyFacts.

(* ------------------------------------------------------------------ *)
(** ** Instances of the properties above on concrete inputs *)

Definition theme_sample : list (string * string) :=
  [("--semantic-color-brand", "var(--primitive-blue)"); ("--primitive-blue", "#2563eb")].

Lemma theme_css_round_trip_witness :
  ThemeFacts.token_values
    (parseCSSTokens (ThemeOut.generateThemeCSS "2024-01-01T00:00:00.000Z" "figma-export.json"
                       theme_sample (ThemeOut.buildSelector "root" "user")))
  = theme_sample.
Proof.
  apply ThemeFacts.theme_css_round_trip; [reflexivity | reflexivity | |].
  - cbn. repeat constructor; cbn; intuition discriminate.
  - repeat constructor.
Defined.

Lemma parse_args_flags_sticky_witness :
  ApplyArgs.yes (ApplyArgs.parse_args_loop (fun a => a) ["--theme"; "dark"; "x.json"]
                   (ApplyArgs.mkOptions "f" true "user" "attr" "dist")) = true /\
  ApplyArgs.scope (ApplyArgs.parse_args_loop (fun a => a) ["--theme"; "dark"; "x.json"]
                   (ApplyArgs.mkOptions "f" true "user" "attr" "dist")) = "attr".
Proof.
  destruct (ArgsFacts.parse_args_flags_sticky (fun a => a) ["--theme"; "dark"; "x.json"]
              (ApplyArgs.mkOptions "f" true "user" "attr" "dist")) as [H1 H2].
  split; [apply H1 | apply H2]; reflexivity.
Defined.

Lemma parse_css_first_definition_kept_witness :
  JsMap.get "--primitive-a" (tokenDefs (parseCSS (":root {" ++ LF ++ "  --primitive-a: 1px;" ++ LF ++ "}"))) <> None /\
  JsMap.get "--primitive-a"
    (tokenDefs (parseCSS ((":root {" ++ LF ++ "  --primitive-a: 1px;" ++ LF ++ "}") ++ LF
                          ++ (":root {" ++ LF ++ "  --primitive-a: 2px;" ++ LF ++ "}"))))
  = JsMap.get "--primitive-a" (tokenDefs (parseCSS (":root {" ++ LF ++ "  --primitive-a: 1px;" ++ LF ++ "}"))).
Proof.
  split; [vm_compute; discriminate|].
  destruct (JsMap.get "--primitive-a" (tokenDefs (parseCSS (":root {" ++ LF ++ "  --primitive-a: 1px;" ++ LF ++ "}"))))
    as [d|] eqn:E; [|vm_compute in E; discriminate].
  apply RuleFacts.parse_css_first_definition_kept. exact E.
Defined.

Lemma figma_tier_kept_in_css_name_witness :
  Figma.getTierFromFigmaName "semantic.color.brand" = Some Semantic /\
  existsb (Ascii.eqb "."%char) (list_ascii_of_string "semantic.color.brand") = true /\
  Figma.getTierFromCSSName (Figma.figmaNameToCSSVar "semantic.color.brand") = Some Semantic.
Proof.
  split; [reflexivity|]. split; [reflexivity|].
  apply FigmaMore.figma_tier_kept_in_css_name; reflexivity.
Defined.

Lemma parse_figma_success_witness :
  exists es, Figma.TokensArray [Figma.mkRawEntry (Some "semantic.space") (Some "{primitive.4}")]
             = Figma.TokensArray es /\ forallb FigmaMore.entry_valid es = true
    /\ map (fun t => (Some (Figma.figmaName t), Some (Figma.figmaValue t)))
           [Figma.mkFigmaToken "--semantic-space" "var(--primitive-4)" "semantic.space" "{primitive.4}"
              (Some Semantic)]
       = map (fun e => (Figma.raw_name e, Figma.raw_value e)) es
    /\ Forall (fun t => Figma.cssName t = Figma.figmaNameToCSSVar (Figma.figmaName t)
                        /\ Figma.cssValue t = Figma.figmaValueToCSS (Figma.figmaValue t)
                        /\ Figma.ftier t = Figma.getTierFromFigmaName (Figma.figmaName t))
         [Figma.mkFigmaToken "--semantic-space" "var(--primitive-4)" "semantic.space" "{primitive.4}"
            (Some Semantic)].
Proof.
  apply FigmaMore.parse_figma_success. vm_compute. reflexivity.
Defined.

Lemma review_all_or_skip_all_stops_asking_witness :
  Apply.reviewCategory [1; 2; 3] ["a"; "n"] = Some ([1; 2; 3], [], false, ["n"]) /\
  Apply.reviewCategory [1; 2; 3] [" S "; "y"] = Some ([], [1; 2; 3], false, ["y"]).
Proof.
  split.
  - apply (ReviewMore.review_all_or_skip_all_stops_asking 1 [2; 3] "a" ["n"]). reflexivity.
  - apply (ReviewMore.review_all_or_skip_all_stops_asking 1 [2; 3] " S " ["y"]). reflexivity.
Defined.

Lemma theme_scss_same_block_witness :
  let tokens := [("--primitive-blue", "#2563eb")] in
  let block := ThemeOut.join_lines (app ["@layer themes {"; ""; "  " ++ ":root" ++ " {"]
                 (app (map (ThemeOut.decl (ThemeOut.maxLen tokens)) tokens) ["  }"; ""; "}"; ""])) in
  (exists h, ThemeOut.generateThemeCSS "t" "f.json" tokens ":root" = h ++ LF ++ LF ++ block) /\
  (exists h, ThemeOut.generateThemeSCSS "t" "f.json" tokens ":root" = h ++ LF ++ LF ++ block).
Proof. apply ThemeMore.theme_scss_same_block. discriminate. Defined.

Lemma figma_ref_round_trip_witness :
  Figma.extractFigmaRef ("{" ++ "primitive.color.blue.600" ++ "}") = Some "--primitive-color-blue-600" /\
  Figma.figmaValueToCSS ("{" ++ "primitive.color.blue.600" ++ "}") = "var(--primitive-color-blue-600)".
Proof. apply (FigmaRefFacts.figma_ref_round_trip "primitive.color.blue.600"); [discriminate | reflexivity]. Defined.
